(** * A staggered-grid Navier-Stokes solver: grid storage and time-step orchestrator

    Shallow embedding of [src/discretization/0_staggered_grid.cpp] and
    [src/computation.cpp].

    - C++ [int] is modelled by [Z].  Signed overflow is undefined behaviour in
      C++, so the model covers the runs in which [nCells + 2] fits an [int].
    - C++ [double] is modelled by Rocq's primitive binary64 floats
      ([PrimFloat.float]): the operations are the IEEE 754 ones the compiled
      program executes, and they compute inside Rocq.
    - a failed bounds check prints a message and executes [throw;] with no
      active exception, which terminates the process: the model returns
      [Terminated] with the content of the message, and no caller catches it.
    - text written to [std::cout] other than those messages is not modelled. *)

From Stdlib Require Import ZArith List String Bool Lia Floats.
From Stdlib Require Uint63.
Import ListNotations.

Set Warnings "-inexact-float".

Local Open Scope Z_scope.

(** ** Outcomes of a call *)

(** The content of the message printed before [throw;]:
    "<axis>-Index of <field> out of bounds error for index <index> in range
    <begin> to <end>". *)
Record OutOfBounds : Type := mkOutOfBounds {
  oob_axis  : string;
  oob_field : string;
  oob_index : Z;
  oob_begin : Z;
  oob_end   : Z
}.

Inductive outcome (A : Type) : Type :=
| Returns (a : A)
| Terminated (e : OutOfBounds).

Arguments Returns {A} a.
Arguments Terminated {A} e.

(** ** Field storage *)

(** Modelled from the spec: the class [FieldVariable] (header and source are
    not part of the tree).  "Field -- a 2-D array of floating-point values
    [...] tagged with its storage extents, a spatial offset, the mesh spacing
    in each direction."  The array is a total function of the storage
    coordinates; [size_] records the extents. *)
Record FieldVariable : Type := mkFieldVariable {
  size_      : Z * Z;
  origin_    : float * float;
  fieldMeshWidth_ : float * float;
  data_      : Z -> Z -> float
}.

(** Modelled from the spec: construction of a field of the given extents.
    The initial contents play no role below: every statement about the
    orchestrator quantifies over all grid contents. *)
Definition FieldVariable_new (size : Z * Z) (origin meshWidth : float * float)
  : FieldVariable :=
  mkFieldVariable size origin meshWidth (fun _ _ => 0%float).

(** [fv(x,y)] read through a reference. *)
Definition at_ (fv : FieldVariable) (x y : Z) : float := data_ fv x y.

(** [fv(x,y) = val]. *)
Definition assign (fv : FieldVariable) (x y : Z) (val : float) : FieldVariable :=
  mkFieldVariable (size_ fv) (origin_ fv) (fieldMeshWidth_ fv)
    (fun x' y' => if (x' =? x) && (y' =? y) then val else data_ fv x' y').

(** The storage cell [(x,y)] lies inside the extents of the field. *)
Definition inExtents (fv : FieldVariable) (x y : Z) : Prop :=
  0 <= x < fst (size_ fv) /\ 0 <= y < snd (size_ fv).

(** ** StaggeredGrid *)

Module StaggeredGrid.

Record t : Type := mk {
  u_   : FieldVariable;
  v_   : FieldVariable;
  p_   : FieldVariable;
  f_   : FieldVariable;
  g_   : FieldVariable;
  rhs_ : FieldVariable;
  meshWidth_ : float * float;
  nCells_    : Z * Z
}.

(** The constructor, lines 3-14. *)
Definition new (nCells : Z * Z) (meshWidth : float * float) : t :=
  let nx := fst nCells in
  let ny := snd nCells in
  let hx := fst meshWidth in
  let hy := snd meshWidth in
  {| u_   := FieldVariable_new (nx + 1, ny + 2) (0%float, (hy / 2)%float) meshWidth;
     v_   := FieldVariable_new (nx + 2, ny + 1) ((hx / 2)%float, 0%float) meshWidth;
     p_   := FieldVariable_new (nx + 2, ny + 2) ((hx / 2)%float, (hy / 2)%float) meshWidth;
     f_   := FieldVariable_new (nx + 1, ny + 2) (0%float, (hy / 2)%float) meshWidth;
     g_   := FieldVariable_new (nx + 2, ny + 1) ((hx / 2)%float, 0%float) meshWidth;
     rhs_ := FieldVariable_new (nx + 2, ny + 2) ((hx / 2)%float, (hy / 2)%float) meshWidth;
     meshWidth_ := meshWidth;
     nCells_ := nCells |}.

Definition meshWidth (sg : t) : float * float := meshWidth_ sg.
Definition nCells (sg : t) : Z * Z := nCells_ sg.

Definition dx (sg : t) : float := fst (meshWidth_ sg).
Definition dy (sg : t) : float := snd (meshWidth_ sg).

(** The index ranges, lines 56-116. *)
Definition uIBegin (sg : t) : Z := -1.
Definition uIEnd   (sg : t) : Z := fst (nCells_ sg).
Definition uJBegin (sg : t) : Z := -1.
Definition uJEnd   (sg : t) : Z := snd (nCells_ sg) + 1.

Definition vIBegin (sg : t) : Z := -1.
Definition vIEnd   (sg : t) : Z := fst (nCells_ sg) + 1.
Definition vJBegin (sg : t) : Z := -1.
Definition vJEnd   (sg : t) : Z := snd (nCells_ sg).

Definition pIBegin (sg : t) : Z := -1.
Definition pIEnd   (sg : t) : Z := fst (nCells_ sg) + 1.
Definition pJBegin (sg : t) : Z := -1.
Definition pJEnd   (sg : t) : Z := snd (nCells_ sg) + 1.

(** The two checks every accessor starts with, and the index transformation
    [x = i + 1], [y = j + 1].  [axisI] and [axisJ] are the axis letters the
    two messages print; [name] is the field name they print. *)
Definition checked (axisI axisJ name : string)
    (iBegin iEnd jBegin jEnd : Z) (i j : Z) : outcome (Z * Z) :=
  if negb ((i >=? iBegin) && (i <? iEnd)) then
    Terminated (mkOutOfBounds axisI name i iBegin iEnd)
  else if negb ((j >=? jBegin) && (j <? jEnd)) then
    Terminated (mkOutOfBounds axisJ name j jBegin jEnd)
  else
    let x := i + 1 in
    let y := j + 1 in
    Returns (x, y).

(** The [const] overloads return the stored value. *)
Definition read (fv : FieldVariable) (r : outcome (Z * Z)) : outcome float :=
  match r with
  | Returns (x, y) => Returns (at_ fv x y)
  | Terminated e => Terminated e
  end.

(** [double u(int i, int j) const], lines 120-139. *)
Definition u_const (sg : t) (i j : Z) : outcome float :=
  read (u_ sg)
    (checked "i"%string "j"%string "u"%string
       (uIBegin sg) (uIEnd sg) (uJBegin sg) (uJEnd sg) i j).

(** [double& u(int i, int j)], lines 141-160: the result is the cell of [u_]
    the returned reference designates.  The second message of this overload
    prints "i-Index" as well. *)
Definition u (sg : t) (i j : Z) : outcome (Z * Z) :=
  checked "i"%string "i"%string "u"%string
    (uIBegin sg) (uIEnd sg) (uJBegin sg) (uJEnd sg) i j.

(** [double v(int i, int j) const], lines 163-182. *)
Definition v_const (sg : t) (i j : Z) : outcome float :=
  read (v_ sg)
    (checked "i"%string "j"%string "v"%string
       (vIBegin sg) (vIEnd sg) (vJBegin sg) (vJEnd sg) i j).

(** [double& v(int i, int j)], lines 184-203. *)
Definition v (sg : t) (i j : Z) : outcome (Z * Z) :=
  checked "i"%string "j"%string "v"%string
    (vIBegin sg) (vIEnd sg) (vJBegin sg) (vJEnd sg) i j.

(** [double p(int i, int j) const], lines 206-225. *)
Definition p_const (sg : t) (i j : Z) : outcome float :=
  read (p_ sg)
    (checked "i"%string "j"%string "p"%string
       (pIBegin sg) (pIEnd sg) (pJBegin sg) (pJEnd sg) i j).

(** [double& p(int i, int j)], lines 227-246. *)
Definition p (sg : t) (i j : Z) : outcome (Z * Z) :=
  checked "i"%string "j"%string "p"%string
    (pIBegin sg) (pIEnd sg) (pJBegin sg) (pJEnd sg) i j.

(** [double& rhs(int i, int j)], lines 249-268: the range of [p]. *)
Definition rhs (sg : t) (i j : Z) : outcome (Z * Z) :=
  checked "i"%string "j"%string "rhs"%string
    (pIBegin sg) (pIEnd sg) (pJBegin sg) (pJEnd sg) i j.

(** [double& f(int i, int j)], lines 270-289: the range of [u]. *)
Definition f (sg : t) (i j : Z) : outcome (Z * Z) :=
  checked "i"%string "j"%string "f"%string
    (uIBegin sg) (uIEnd sg) (uJBegin sg) (uJEnd sg) i j.

(** [double& g(int i, int j)], lines 291-310: the range of [v]. *)
Definition g (sg : t) (i j : Z) : outcome (Z * Z) :=
  checked "i"%string "j"%string "g"%string
    (vIBegin sg) (vIEnd sg) (vJBegin sg) (vJEnd sg) i j.

(** The valid logical ranges, as propositions. *)
Definition inU (sg : t) (i j : Z) : Prop :=
  uIBegin sg <= i < uIEnd sg /\ uJBegin sg <= j < uJEnd sg.
Definition inV (sg : t) (i j : Z) : Prop :=
  vIBegin sg <= i < vIEnd sg /\ vJBegin sg <= j < vJEnd sg.
Definition inP (sg : t) (i j : Z) : Prop :=
  pIBegin sg <= i < pIEnd sg /\ pJBegin sg <= j < pJEnd sg.

End StaggeredGrid.

(** ** Collaborators declared outside the tree *)

(** The members of [struct Settings] that [computation.cpp] reads (the struct
    is declared in a header that is not part of the tree; [x[0]] and [x[1]]
    of a [std::array<double,2>] are [fst x] and [snd x]). *)
Module Settings.
Record t : Type := mk {
  nCells       : Z * Z;
  physicalSize : float * float;
  re           : float;
  endTime      : float;
  tau          : float;
  maximumDt    : float;
  g            : float * float;
  dirichletBcBottom : float * float;
  dirichletBcTop    : float * float;
  dirichletBcLeft   : float * float;
  dirichletBcRight  : float * float
}.

(** The members only [initialize] reads: the choice of the operator set and
    of the pressure solver, with their parameters. *)
Record selection : Type := mkSelection {
  useDonorCell   : bool;
  alpha          : float;
  pressureSolver : string;
  epsilon        : float;
  maximumNumberOfIterations : Z;
  omega          : float
}.
End Settings.

(** The derivative operators of class [Discretization], which derives from
    [StaggeredGrid]; [CentralDifferences] and [DonorCell] implement them
    outside the tree.  They are taken as parameters: functions of the grid
    contents ("each derivative evaluation [...] has no side effects -- it only
    reads Grid Storage"). *)
Record Discretization : Type := mkDiscretization {
  computeD2uDx2 : StaggeredGrid.t -> Z -> Z -> float;
  computeD2uDy2 : StaggeredGrid.t -> Z -> Z -> float;
  computeDu2Dx  : StaggeredGrid.t -> Z -> Z -> float;
  computeDuvDy  : StaggeredGrid.t -> Z -> Z -> float;
  computeD2vDx2 : StaggeredGrid.t -> Z -> Z -> float;
  computeD2vDy2 : StaggeredGrid.t -> Z -> Z -> float;
  computeDuvDx  : StaggeredGrid.t -> Z -> Z -> float;
  computeDv2Dy  : StaggeredGrid.t -> Z -> Z -> float;
  computeDpDx   : StaggeredGrid.t -> Z -> Z -> float;
  computeDpDy   : StaggeredGrid.t -> Z -> Z -> float
}.

(** The operators evaluate derivatives of the velocities and of the pressure:
    they do not depend on the auxiliary fields [f_], [g_] and [rhs_]. *)
Definition readsVelocityAndPressure (op : StaggeredGrid.t -> Z -> Z -> float) : Prop :=
  forall sg sg' i j,
    StaggeredGrid.u_ sg = StaggeredGrid.u_ sg' ->
    StaggeredGrid.v_ sg = StaggeredGrid.v_ sg' ->
    StaggeredGrid.p_ sg = StaggeredGrid.p_ sg' ->
    StaggeredGrid.meshWidth_ sg = StaggeredGrid.meshWidth_ sg' ->
    StaggeredGrid.nCells_ sg = StaggeredGrid.nCells_ sg' ->
    op sg i j = op sg' i j.

Definition wellBehaved (d : Discretization) : Prop :=
  readsVelocityAndPressure (computeD2uDx2 d) /\
  readsVelocityAndPressure (computeD2uDy2 d) /\
  readsVelocityAndPressure (computeDu2Dx d) /\
  readsVelocityAndPressure (computeDuvDy d) /\
  readsVelocityAndPressure (computeD2vDx2 d) /\
  readsVelocityAndPressure (computeD2vDy2 d) /\
  readsVelocityAndPressure (computeDuvDx d) /\
  readsVelocityAndPressure (computeDv2Dy d).

(** Modelled from the spec: the central-differences variant, "every derivative
    term uses symmetric finite-difference stencils over the immediate
    neighboring staggered points (standard second-order formulas); no
    parameters beyond mesh spacing".  It instantiates [Discretization] where a
    concrete operator set is needed. *)
Module CentralDifferences.
Import StaggeredGrid.
Local Open Scope float_scope.

Definition U (sg : t) (i j : Z) : float := at_ (u_ sg) (i + 1)%Z (j + 1)%Z.
Definition V (sg : t) (i j : Z) : float := at_ (v_ sg) (i + 1)%Z (j + 1)%Z.
Definition P (sg : t) (i j : Z) : float := at_ (p_ sg) (i + 1)%Z (j + 1)%Z.

Definition computeD2uDx2 (sg : t) (i j : Z) : float :=
  (U sg (i + 1)%Z j - 2 * U sg i j + U sg (i - 1)%Z j) / (dx sg * dx sg).
Definition computeD2uDy2 (sg : t) (i j : Z) : float :=
  (U sg i (j + 1)%Z - 2 * U sg i j + U sg i (j - 1)%Z) / (dy sg * dy sg).
Definition computeDu2Dx (sg : t) (i j : Z) : float :=
  let ur := (U sg i j + U sg (i + 1)%Z j) / 2 in
  let ul := (U sg (i - 1)%Z j + U sg i j) / 2 in
  (ur * ur - ul * ul) / dx sg.
Definition computeDuvDy (sg : t) (i j : Z) : float :=
  let vt := (V sg i j + V sg (i + 1)%Z j) / 2 in
  let ut := (U sg i j + U sg i (j + 1)%Z) / 2 in
  let vb := (V sg i (j - 1)%Z + V sg (i + 1)%Z (j - 1)%Z) / 2 in
  let ub := (U sg i (j - 1)%Z + U sg i j) / 2 in
  (vt * ut - vb * ub) / dy sg.
Definition computeD2vDx2 (sg : t) (i j : Z) : float :=
  (V sg (i + 1)%Z j - 2 * V sg i j + V sg (i - 1)%Z j) / (dx sg * dx sg).
Definition computeD2vDy2 (sg : t) (i j : Z) : float :=
  (V sg i (j + 1)%Z - 2 * V sg i j + V sg i (j - 1)%Z) / (dy sg * dy sg).
Definition computeDuvDx (sg : t) (i j : Z) : float :=
  let ur := (U sg i j + U sg i (j + 1)%Z) / 2 in
  let vr := (V sg i j + V sg (i + 1)%Z j) / 2 in
  let ul := (U sg (i - 1)%Z j + U sg (i - 1)%Z (j + 1)%Z) / 2 in
  let vl := (V sg (i - 1)%Z j + V sg i j) / 2 in
  (ur * vr - ul * vl) / dx sg.
Definition computeDv2Dy (sg : t) (i j : Z) : float :=
  let vt := (V sg i j + V sg i (j + 1)%Z) / 2 in
  let vb := (V sg i (j - 1)%Z + V sg i j) / 2 in
  (vt * vt - vb * vb) / dy sg.
Definition computeDpDx (sg : t) (i j : Z) : float :=
  (P sg (i + 1)%Z j - P sg i j) / dx sg.
Definition computeDpDy (sg : t) (i j : Z) : float :=
  (P sg i (j + 1)%Z - P sg i j) / dy sg.

Definition scheme : Discretization :=
  mkDiscretization computeD2uDx2 computeD2uDy2 computeDu2Dx computeDuvDy
    computeD2vDx2 computeD2vDy2 computeDuvDx computeDv2Dy computeDpDx computeDpDy.

End CentralDifferences.

(** ** Computation *)

(** [std::min(a, b)]: [(b < a) ? b : a]. *)
Definition std_min (a b : float) : float :=
  if (b <? a)%float then b else a.

(** [std::min({a, b, c})]: the first smallest element, found by scanning with
    [operator<] from the left. *)
Definition std_min3 (a b c : float) : float :=
  let smallest := a in
  let smallest := if (b <? smallest)%float then b else smallest in
  let smallest := if (c <? smallest)%float then c else smallest in
  smallest.

Module Computation.

Record t : Type := mk {
  settings_       : Settings.t;
  discretization_ : StaggeredGrid.t;
  meshWidth_      : float * float;
  dt_             : float
}.

(** Member functions read and assign the members of the object and may
    terminate the process: a state and error monad over [t]. *)
Definition M (A : Type) : Type := t -> outcome (A * t).

Definition ret {A : Type} (a : A) : M A := fun c => Returns (a, c).

Definition bind {A B : Type} (m : M A) (k : A -> M B) : M B :=
  fun c =>
    match m c with
    | Returns (a, c') => k a c'
    | Terminated e => Terminated e
    end.

Declare Scope comp_scope.
Delimit Scope comp_scope with comp.
Notation "x <- m ;; k" := (bind m (fun x => k))
  (at level 61, m at next level, right associativity) : comp_scope.
Notation "m ;; k" := (bind m (fun _ => k))
  (at level 61, right associativity) : comp_scope.
Local Open Scope comp_scope.

Definition settings : M Settings.t := fun c => Returns (settings_ c, c).
Definition discretization : M StaggeredGrid.t := fun c => Returns (discretization_ c, c).
Definition meshWidth : M (float * float) := fun c => Returns (meshWidth_ c, c).
Definition dt : M float := fun c => Returns (dt_ c, c).

Definition set_dt (val : float) : M unit :=
  fun c => Returns (tt, mk (settings_ c) (discretization_ c) (meshWidth_ c) val).

Definition set_discretization (sg : StaggeredGrid.t) : M unit :=
  fun c => Returns (tt, mk (settings_ c) sg (meshWidth_ c) (dt_ c)).

(** [for (int i = b; i < e; i++) body], with the local variables the body
    assigns threaded as [a].  The C++ loops re-evaluate the bound [e] before
    every iteration; every bound in this file is a function of [nCells_],
    which nothing assigns after construction, so it is evaluated once. *)
Fixpoint iterate {A : Type} (n : nat) (i : Z) (body : Z -> A -> M A) (a : A) : M A :=
  match n with
  | O => ret a
  | S n' => a' <- body i a ;; iterate n' (i + 1) body a'
  end.

Definition for_ {A : Type} (b e : Z) (body : Z -> A -> M A) (a : A) : M A :=
  iterate (Z.to_nat (e - b)) b body a.

Definition for_each (b e : Z) (body : Z -> M unit) : M unit :=
  for_ b e (fun i _ => body i) tt.

(** *** Field accesses through [discretization_]
    [discretization_] is a pointer to a non-const object, so every call
    [discretization_->u(i,j)] selects the [double&] overload, whether the
    result is read or assigned. *)

Definition load (acc : StaggeredGrid.t -> Z -> Z -> outcome (Z * Z))
    (field : StaggeredGrid.t -> FieldVariable) (i j : Z) : M float :=
  fun c =>
    match acc (discretization_ c) i j with
    | Returns (x, y) => Returns (at_ (field (discretization_ c)) x y, c)
    | Terminated e => Terminated e
    end.

Definition store (acc : StaggeredGrid.t -> Z -> Z -> outcome (Z * Z))
    (update : StaggeredGrid.t -> Z -> Z -> float -> StaggeredGrid.t)
    (i j : Z) (val : float) : M unit :=
  fun c =>
    match acc (discretization_ c) i j with
    | Returns (x, y) => set_discretization (update (discretization_ c) x y val) c
    | Terminated e => Terminated e
    end.

(** The grid after [field(x,y) = val]: the other members are untouched. *)
Definition assign_u (sg : StaggeredGrid.t) (x y : Z) (val : float)
  : StaggeredGrid.t :=
  StaggeredGrid.mk
    (assign (StaggeredGrid.u_ sg) x y val)
    (StaggeredGrid.v_ sg)
    (StaggeredGrid.p_ sg)
    (StaggeredGrid.f_ sg)
    (StaggeredGrid.g_ sg)
    (StaggeredGrid.rhs_ sg)
    (StaggeredGrid.meshWidth_ sg) (StaggeredGrid.nCells_ sg).
Definition assign_v (sg : StaggeredGrid.t) (x y : Z) (val : float)
  : StaggeredGrid.t :=
  StaggeredGrid.mk
    (StaggeredGrid.u_ sg)
    (assign (StaggeredGrid.v_ sg) x y val)
    (StaggeredGrid.p_ sg)
    (StaggeredGrid.f_ sg)
    (StaggeredGrid.g_ sg)
    (StaggeredGrid.rhs_ sg)
    (StaggeredGrid.meshWidth_ sg) (StaggeredGrid.nCells_ sg).
Definition assign_p (sg : StaggeredGrid.t) (x y : Z) (val : float)
  : StaggeredGrid.t :=
  StaggeredGrid.mk
    (StaggeredGrid.u_ sg)
    (StaggeredGrid.v_ sg)
    (assign (StaggeredGrid.p_ sg) x y val)
    (StaggeredGrid.f_ sg)
    (StaggeredGrid.g_ sg)
    (StaggeredGrid.rhs_ sg)
    (StaggeredGrid.meshWidth_ sg) (StaggeredGrid.nCells_ sg).
Definition assign_f (sg : StaggeredGrid.t) (x y : Z) (val : float)
  : StaggeredGrid.t :=
  StaggeredGrid.mk
    (StaggeredGrid.u_ sg)
    (StaggeredGrid.v_ sg)
    (StaggeredGrid.p_ sg)
    (assign (StaggeredGrid.f_ sg) x y val)
    (StaggeredGrid.g_ sg)
    (StaggeredGrid.rhs_ sg)
    (StaggeredGrid.meshWidth_ sg) (StaggeredGrid.nCells_ sg).
Definition assign_g (sg : StaggeredGrid.t) (x y : Z) (val : float)
  : StaggeredGrid.t :=
  StaggeredGrid.mk
    (StaggeredGrid.u_ sg)
    (StaggeredGrid.v_ sg)
    (StaggeredGrid.p_ sg)
    (StaggeredGrid.f_ sg)
    (assign (StaggeredGrid.g_ sg) x y val)
    (StaggeredGrid.rhs_ sg)
    (StaggeredGrid.meshWidth_ sg) (StaggeredGrid.nCells_ sg).
Definition assign_rhs (sg : StaggeredGrid.t) (x y : Z) (val : float)
  : StaggeredGrid.t :=
  StaggeredGrid.mk
    (StaggeredGrid.u_ sg)
    (StaggeredGrid.v_ sg)
    (StaggeredGrid.p_ sg)
    (StaggeredGrid.f_ sg)
    (StaggeredGrid.g_ sg)
    (assign (StaggeredGrid.rhs_ sg) x y val)
    (StaggeredGrid.meshWidth_ sg) (StaggeredGrid.nCells_ sg).

(** [discretization_->u(i,j)] as an rvalue, and [discretization_->u(i,j) = val]. *)
Definition u := load StaggeredGrid.u StaggeredGrid.u_.
Definition set_u := store StaggeredGrid.u assign_u.
Definition v := load StaggeredGrid.v StaggeredGrid.v_.
Definition set_v := store StaggeredGrid.v assign_v.
Definition p := load StaggeredGrid.p StaggeredGrid.p_.
Definition set_p := store StaggeredGrid.p assign_p.
Definition f := load StaggeredGrid.f StaggeredGrid.f_.
Definition set_f := store StaggeredGrid.f assign_f.
Definition g := load StaggeredGrid.g StaggeredGrid.g_.
Definition set_g := store StaggeredGrid.g assign_g.
Definition rhs := load StaggeredGrid.rhs StaggeredGrid.rhs_.
Definition set_rhs := store StaggeredGrid.rhs assign_rhs.

(** *** [computeTimeStepWidth], lines 104-159 *)

(** Lines 106-119: the bound from diffusion. *)
Definition boundary_diffusion (re : float) (meshWidth : float * float) : float :=
  if (fst meshWidth =? snd meshWidth)%float then
    ((re * fst meshWidth * snd meshWidth) / 4)%float
  else
    let h2x := (fst meshWidth * fst meshWidth)%float in
    let h2y := (snd meshWidth * snd meshWidth)%float in
    ((re / 2) * (h2x * h2y) * (1 / (h2x + h2y)))%float.

(** Lines 127-131 and 140-144: one step of a scan. *)
Definition scan_step (value_max value : float) : float :=
  let value := abs value in
  if (value_max <? value)%float then value else value_max.

(** Lines 122-133. *)
Definition u_max : M float :=
  d <- discretization ;;
  for_ (StaggeredGrid.uJBegin d) (StaggeredGrid.uJEnd d) (fun j u_max =>
    for_ (StaggeredGrid.uIBegin d) (StaggeredGrid.uIEnd d) (fun i u_max =>
      value <- u i j ;;
      ret (scan_step u_max value)) u_max) 0%float.

(** Lines 135-146. *)
Definition v_max : M float :=
  d <- discretization ;;
  for_ (StaggeredGrid.vJBegin d) (StaggeredGrid.vJEnd d) (fun j v_max =>
    for_ (StaggeredGrid.vIBegin d) (StaggeredGrid.vIEnd d) (fun i v_max =>
      value <- v i j ;;
      ret (scan_step v_max value)) v_max) 0%float.

(** Lines 149-150: a bound from convection, with no test on the divisor. *)
Definition boundary_convection (meshWidth_k value_max : float) : float :=
  (meshWidth_k / value_max)%float.

Definition computeTimeStepWidth : M unit :=
  s <- settings ;;
  meshWidth_ <- meshWidth ;;
  let boundary_diffusion := boundary_diffusion (Settings.re s) meshWidth_ in
  u_max <- u_max ;;
  v_max <- v_max ;;
  let boundary_convection_u := boundary_convection (fst meshWidth_) u_max in
  let boundary_convection_v := boundary_convection (snd meshWidth_) v_max in
  let min_dt := std_min3 boundary_diffusion boundary_convection_u boundary_convection_v in
  set_dt (std_min (min_dt * Settings.tau s)%float (Settings.maximumDt s)).

(** *** [applyBoundaryValues], lines 161-245
    In an assignment the right operand is evaluated before the left one. *)
Definition applyBoundaryValues : M unit :=
  s <- settings ;;
  d <- discretization ;;
  let uIBegin := StaggeredGrid.uIBegin d in
  let uIEnd := StaggeredGrid.uIEnd d in
  let uJBegin := StaggeredGrid.uJBegin d in
  let uJEnd := StaggeredGrid.uJEnd d in
  let vIBegin := StaggeredGrid.vIBegin d in
  let vIEnd := StaggeredGrid.vIEnd d in
  let vJBegin := StaggeredGrid.vJBegin d in
  let vJEnd := StaggeredGrid.vJEnd d in
  (* bottom and top: set u *)
  for_each uIBegin uIEnd (fun i =>
    r <- u i (uJBegin + 1) ;;
    set_u i uJBegin (2 * fst (Settings.dirichletBcBottom s) - r)%float ;;
    r <- u i (uJEnd - 2) ;;
    set_u i (uJEnd - 1) (2 * fst (Settings.dirichletBcTop s) - r)%float) ;;
  (* set v *)
  for_each vIBegin vIEnd (fun i =>
    set_v i vJBegin (snd (Settings.dirichletBcBottom s)) ;;
    set_v i (vJEnd - 1) (snd (Settings.dirichletBcTop s))) ;;
  (* sides: set u *)
  for_each uJBegin uJEnd (fun j =>
    set_u uIBegin j (fst (Settings.dirichletBcLeft s)) ;;
    set_u (uIEnd - 1) j (fst (Settings.dirichletBcRight s))) ;;
  (* set v *)
  for_each vJBegin vJEnd (fun j =>
    r <- v (vIBegin + 1) j ;;
    set_v vIBegin j (2 * snd (Settings.dirichletBcLeft s) - r)%float ;;
    r <- v (vIEnd - 2) j ;;
    set_v (vIEnd - 1) j (2 * snd (Settings.dirichletBcRight s) - r)%float) ;;
  (* bottom and top: set f *)
  for_each uIBegin uIEnd (fun i =>
    r <- u i uJBegin ;;
    set_f i uJBegin r ;;
    r <- u i (uJEnd - 1) ;;
    set_f i (uJEnd - 1) r) ;;
  (* set g *)
  for_each vIBegin vIEnd (fun i =>
    r <- v i vJBegin ;;
    set_g i vJBegin r ;;
    r <- v i (vJEnd - 1) ;;
    set_g i (vJEnd - 1) r) ;;
  (* sides: set f *)
  for_each uJBegin uJEnd (fun j =>
    r <- u uIBegin j ;;
    set_f uIBegin j r ;;
    r <- u (uIEnd - 1) j ;;
    set_f (uIEnd - 1) j r) ;;
  (* set g *)
  for_each vJBegin vJEnd (fun j =>
    r <- v vIBegin j ;;
    set_g vIBegin j r ;;
    r <- v (vIEnd - 1) j ;;
    set_g (vIEnd - 1) j r).

Section Orchestrator.

(** The operator set [discretization_] points to, and
    [pressureSolver_->solve()], both implemented outside the tree. *)
Variable scheme : Discretization.
Variable solve : StaggeredGrid.t -> outcome StaggeredGrid.t.

(** The value lines 254-257 assign to [f(i,j)]. *)
Definition preliminaryF (s : Settings.t) (dt_ : float) (d : StaggeredGrid.t)
    (uij : float) (i j : Z) : float :=
  let diffusion := (computeD2uDx2 scheme d i j + computeD2uDy2 scheme d i j)%float in
  let convection := (- computeDu2Dx scheme d i j - computeDuvDy scheme d i j)%float in
  let sum := (((1 / Settings.re s) * diffusion) + convection + fst (Settings.g s))%float in
  (uij + dt_ * sum)%float.

(** The value lines 266-269 assign to [g(i,j)]. *)
Definition preliminaryG (s : Settings.t) (dt_ : float) (d : StaggeredGrid.t)
    (vij : float) (i j : Z) : float :=
  let diffusion := (computeD2vDx2 scheme d i j + computeD2vDy2 scheme d i j)%float in
  let convection := (- computeDuvDx scheme d i j - computeDv2Dy scheme d i j)%float in
  let sum := (((1 / Settings.re s) * diffusion) + convection + snd (Settings.g s))%float in
  (vij + dt_ * sum)%float.

(** *** [computePreliminaryVelocities], lines 247-272 *)
Definition computePreliminaryVelocities : M unit :=
  s <- settings ;;
  d <- discretization ;;
  (* calculate F *)
  for_each (StaggeredGrid.uJBegin d + 1) (StaggeredGrid.uJEnd d - 1) (fun j =>
    for_each (StaggeredGrid.uIBegin d + 1) (StaggeredGrid.uIEnd d - 1) (fun i =>
      d <- discretization ;;
      dt_ <- dt ;;
      uij <- u i j ;;
      set_f i j (preliminaryF s dt_ d uij i j))) ;;
  (* calculate G *)
  for_each (StaggeredGrid.vJBegin d + 1) (StaggeredGrid.vJEnd d - 1) (fun j =>
    for_each (StaggeredGrid.vIBegin d + 1) (StaggeredGrid.vIEnd d - 1) (fun i =>
      d <- discretization ;;
      dt_ <- dt ;;
      vij <- v i j ;;
      set_g i j (preliminaryG s dt_ d vij i j))).

(** *** [computeRightHandSide], lines 274-285 *)
Definition computeRightHandSide : M unit :=
  d <- discretization ;;
  for_each (StaggeredGrid.pJBegin d + 1) (StaggeredGrid.pJEnd d - 1) (fun j =>
    for_each (StaggeredGrid.pIBegin d + 1) (StaggeredGrid.pIEnd d - 1) (fun i =>
      dt_ <- dt ;;
      fij <- f i j ;;
      fi1j <- f (i - 1) j ;;
      let difference_f := ((fij - fi1j) / StaggeredGrid.dx d)%float in
      gij <- g i j ;;
      gij1 <- g i (j - 1) ;;
      let difference_g := ((gij - gij1) / StaggeredGrid.dy d)%float in
      set_rhs i j ((1 / dt_) * (difference_f + difference_g))%float)).

(** *** [computePressure], lines 287-290 *)
Definition computePressure : M unit :=
  fun c =>
    match solve (discretization_ c) with
    | Returns sg => set_discretization sg c
    | Terminated e => Terminated e
    end.

(** *** [computeVelocities], lines 292-311 *)
Definition computeVelocities : M unit :=
  d <- discretization ;;
  for_each (StaggeredGrid.uJBegin d + 1) (StaggeredGrid.uJEnd d - 1) (fun j =>
    for_each (StaggeredGrid.uIBegin d + 1) (StaggeredGrid.uIEnd d - 1) (fun i =>
      d <- discretization ;;
      dt_ <- dt ;;
      fij <- f i j ;;
      set_u i j (fij - dt_ * computeDpDx scheme d i j)%float)) ;;
  for_each (StaggeredGrid.vJBegin d + 1) (StaggeredGrid.vJEnd d - 1) (fun j =>
    for_each (StaggeredGrid.vIBegin d + 1) (StaggeredGrid.vIEnd d - 1) (fun i =>
      d <- discretization ;;
      dt_ <- dt ;;
      gij <- g i j ;;
      set_v i j (gij - dt_ * computeDpDy scheme d i j)%float)).

(** *** [runSimulation], lines 44-102 *)

(** Lines 64-72: "set the dt such that the simulation stops exactly on
    endTime", then [currentTime += dt_].  The result is the new value of the
    local variable [currentTime]. *)
Definition advanceTime (currentTime : float) : M float :=
  s <- settings ;;
  dt_ <- dt ;;
  (if (Settings.endTime s <? currentTime + dt_)%float
   then set_dt (Settings.endTime s - currentTime)%float
   else ret tt) ;;
  dt_ <- dt ;;
  ret (currentTime + dt_)%float.

(** Lines 55-72: steps 1 and 2 of an iteration and the update of the time. *)
Definition beginTimeStep (currentTime : float) : M float :=
  applyBoundaryValues ;;
  computeTimeStepWidth ;;
  advanceTime currentTime.

(** Lines 55-100: the body of the loop.  The two output writers are external
    collaborators that read the grid and the time; they are not modelled. *)
Definition timeStep (currentTime : float) : M float :=
  currentTime <- beginTimeStep currentTime ;;
  computePreliminaryVelocities ;;
  computeRightHandSide ;;
  computePressure ;;
  computeVelocities ;;
  ret currentTime.

(** [while (currentTime < settings_.endTime) body]: the loop need not
    terminate (a step width of zero never advances the time), so it runs on
    fuel; [None] reports that the fuel ran out, [Some n] that the guard
    failed after [n] iterations. *)
Fixpoint simulationLoop (fuel : nat) (currentTime : float) (steps : nat)
  : M (option nat) :=
  match fuel with
  | O => ret None
  | S fuel' =>
      s <- settings ;;
      if (currentTime <? Settings.endTime s)%float then
        currentTime <- timeStep currentTime ;;
        simulationLoop fuel' currentTime (S steps)
      else ret (Some steps)
  end.

Definition runSimulation (fuel : nat) : M (option nat) :=
  let currentTime := 0%float in
  simulationLoop fuel currentTime O.

(** *** [runTest], lines 313-396 *)

(** [for (int j = hi; j >= lo; j--) body]. *)
Fixpoint iterate_down (n : nat) (j : Z) (body : Z -> M unit) : M unit :=
  match n with
  | O => ret tt
  | S n' => body j ;; iterate_down n' (j - 1) body
  end.

Definition for_down (hi lo : Z) (body : Z -> M unit) : M unit :=
  iterate_down (Z.to_nat (hi - lo + 1)) hi body.

(** Lines 320-329 (and 344-353, 361-370, 383-392): the table of [p] written
    to [std::cout], top row first.  The text is not modelled; the reads are,
    since each goes through the bounds-checked accessor. *)
Definition printPressure : M unit :=
  d <- discretization ;;
  for_down (StaggeredGrid.pJEnd d - 1) (StaggeredGrid.pJBegin d) (fun j =>
    for_each (StaggeredGrid.pIBegin d) (StaggeredGrid.pIEnd d) (fun i =>
      _ <- p i j ;;
      ret tt)).

Definition runTest : M unit :=
  (* test case 1: rhs = 0, p = const. *)
  printPressure ;;
  d <- discretization ;;
  for_each (StaggeredGrid.pJBegin d + 1) (StaggeredGrid.pJEnd d - 1) (fun j =>
    for_each (StaggeredGrid.pIBegin d + 1) (StaggeredGrid.pIEnd d - 1) (fun i =>
      set_rhs i j 0%float ;;
      set_p i j 1%float)) ;;
  computePressure ;;
  printPressure ;;
  (* test case 2: rhs = const., p = 0 *)
  printPressure ;;
  d <- discretization ;;
  for_each (StaggeredGrid.pJBegin d + 1) (StaggeredGrid.pJEnd d - 1) (fun j =>
    for_each (StaggeredGrid.pIBegin d + 1) (StaggeredGrid.pIEnd d - 1) (fun i =>
      set_rhs i j 1%float ;;
      set_p i j 0%float)) ;;
  computePressure ;;
  printPressure.

End Orchestrator.

(** *** [initialize], lines 3-42 *)

(** The conversion of an [int] to [double] in [physicalSize[i] / nCells[i]]. *)
Definition double_of_int (n : Z) : float :=
  if n <? 0 then (- of_uint63 (Uint63.of_Z (- n)))%float
  else of_uint63 (Uint63.of_Z n).

(** The objects [initialize] creates: [DonorCell] or [CentralDifferences] for
    [discretization_], [SOR] or [GaussSeidel] for [pressureSolver_], with the
    arguments of their constructors (the classes are outside the tree). *)
Inductive discretizationKind : Type :=
| DonorCell (nCells : Z * Z) (meshWidth : float * float) (alpha : float)
| CentralDifferences (nCells : Z * Z) (meshWidth : float * float).

Inductive pressureSolverKind : Type :=
| SOR (epsilon : float) (maximumNumberOfIterations : Z) (omega : float)
| GaussSeidel (epsilon : float) (maximumNumberOfIterations : Z).

Record initialized : Type := mkInitialized {
  computation_     : t;
  discretizationIs : discretizationKind;
  pressureSolverIs : pressureSolverKind
}.

(** The outcome of [initialize]: the members after the call, or the end of
    the process after the message "The name of the pressure solver is not
    understood" followed by the name. *)
Inductive initialization : Type :=
| Initialized (o : initialized)
| NotUnderstood (name : string).

(** [settings_.loadFromFile(argv[1])] is an external collaborator: [s] and
    [sel] are the settings it loaded.  Both operator sets construct their
    [StaggeredGrid] base from [nCells] and [meshWidth_]. *)
Definition initialize (s : Settings.t) (sel : Settings.selection) : initialization :=
  let meshWidth_ :=
    ((fst (Settings.physicalSize s) / double_of_int (fst (Settings.nCells s)))%float,
     (snd (Settings.physicalSize s) / double_of_int (snd (Settings.nCells s)))%float) in
  let discretization_ :=
    if Settings.useDonorCell sel
    then DonorCell (Settings.nCells s) meshWidth_ (Settings.alpha sel)
    else CentralDifferences (Settings.nCells s) meshWidth_ in
  let grid := StaggeredGrid.new (Settings.nCells s) meshWidth_ in
  if String.eqb (Settings.pressureSolver sel) "SOR" then
    Initialized
      (mkInitialized (mk s grid meshWidth_ 0%float) discretization_
         (SOR (Settings.epsilon sel) (Settings.maximumNumberOfIterations sel)
            (Settings.omega sel)))
  else if String.eqb (Settings.pressureSolver sel) "GaussSeidel" then
    Initialized
      (mkInitialized (mk s grid meshWidth_ 0%float) discretization_
         (GaussSeidel (Settings.epsilon sel) (Settings.maximumNumberOfIterations sel)))
  else NotUnderstood (Settings.pressureSolver sel).

End Computation.

(** ** Vocabulary of the statements *)

(** The value a field holds at a logical index: the storage cell one step up
    and to the right. *)
Definition cell (fv : FieldVariable) (i j : Z) : float := at_ fv (i + 1) (j + 1).

(** The logical index ranges of a grid of [nx] by [ny] cells. *)
Definition uRange (nx ny i j : Z) : Prop := -1 <= i < nx /\ -1 <= j < ny + 1.
Definition vRange (nx ny i j : Z) : Prop := -1 <= i < nx + 1 /\ -1 <= j < ny.
Definition pRange (nx ny i j : Z) : Prop := -1 <= i < nx + 1 /\ -1 <= j < ny + 1.

(** An access at [(i,j)] ended the process with a message that names the
    field and reports the first offending index with its valid range. *)
Definition failsOutOfRange {A : Type} (r : outcome A) (name : string)
    (iBegin iEnd jBegin jEnd i j : Z) : Prop :=
  exists e, r = Terminated e /\ oob_field e = name /\
    ((~ iBegin <= i < iEnd /\
      oob_index e = i /\ oob_begin e = iBegin /\ oob_end e = iEnd) \/
     (iBegin <= i < iEnd /\ ~ jBegin <= j < jEnd /\
      oob_index e = j /\ oob_begin e = jBegin /\ oob_end e = jEnd)).

(** A bounds-checked accessor: inside the range it designates the storage
    cell [(i+1, j+1)]; outside it fails as above and returns nothing. *)
Definition boundsChecked (acc : Z -> Z -> outcome (Z * Z)) (name : string)
    (iBegin iEnd jBegin jEnd : Z) : Prop :=
  forall i j,
    (iBegin <= i < iEnd /\ jBegin <= j < jEnd -> acc i j = Returns (i + 1, j + 1)) /\
    (~ (iBegin <= i < iEnd /\ jBegin <= j < jEnd) ->
     failsOutOfRange (acc i j) name iBegin iEnd jBegin jEnd i j).

(** The same for a [const] overload, which returns the stored value. *)
Definition boundsCheckedRead (acc : Z -> Z -> outcome float) (fv : FieldVariable)
    (name : string) (iBegin iEnd jBegin jEnd : Z) : Prop :=
  forall i j,
    (iBegin <= i < iEnd /\ jBegin <= j < jEnd -> acc i j = Returns (cell fv i j)) /\
    (~ (iBegin <= i < iEnd /\ jBegin <= j < jEnd) ->
     failsOutOfRange (acc i j) name iBegin iEnd jBegin jEnd i j).

(** The state of the computation with one field of the grid replaced. *)
Definition with_u (c : Computation.t) (fv : FieldVariable) : Computation.t :=
  let d := Computation.discretization_ c in
  Computation.mk (Computation.settings_ c)
    (StaggeredGrid.mk fv (StaggeredGrid.v_ d) (StaggeredGrid.p_ d)
       (StaggeredGrid.f_ d) (StaggeredGrid.g_ d) (StaggeredGrid.rhs_ d)
       (StaggeredGrid.meshWidth_ d) (StaggeredGrid.nCells_ d))
    (Computation.meshWidth_ c) (Computation.dt_ c).

Definition with_v (c : Computation.t) (fv : FieldVariable) : Computation.t :=
  let d := Computation.discretization_ c in
  Computation.mk (Computation.settings_ c)
    (StaggeredGrid.mk (StaggeredGrid.u_ d) fv (StaggeredGrid.p_ d)
       (StaggeredGrid.f_ d) (StaggeredGrid.g_ d) (StaggeredGrid.rhs_ d)
       (StaggeredGrid.meshWidth_ d) (StaggeredGrid.nCells_ d))
    (Computation.meshWidth_ c) (Computation.dt_ c).

Definition with_f (c : Computation.t) (fv : FieldVariable) : Computation.t :=
  let d := Computation.discretization_ c in
  Computation.mk (Computation.settings_ c)
    (StaggeredGrid.mk (StaggeredGrid.u_ d) (StaggeredGrid.v_ d) (StaggeredGrid.p_ d)
       fv (StaggeredGrid.g_ d) (StaggeredGrid.rhs_ d)
       (StaggeredGrid.meshWidth_ d) (StaggeredGrid.nCells_ d))
    (Computation.meshWidth_ c) (Computation.dt_ c).

Definition with_g (c : Computation.t) (fv : FieldVariable) : Computation.t :=
  let d := Computation.discretization_ c in
  Computation.mk (Computation.settings_ c)
    (StaggeredGrid.mk (StaggeredGrid.u_ d) (StaggeredGrid.v_ d) (StaggeredGrid.p_ d)
       (StaggeredGrid.f_ d) fv (StaggeredGrid.rhs_ d)
       (StaggeredGrid.meshWidth_ d) (StaggeredGrid.nCells_ d))
    (Computation.meshWidth_ c) (Computation.dt_ c).

(** The fields of the grid the computation owns, and its cell counts. *)
Definition uOf (c : Computation.t) : FieldVariable :=
  StaggeredGrid.u_ (Computation.discretization_ c).
Definition vOf (c : Computation.t) : FieldVariable :=
  StaggeredGrid.v_ (Computation.discretization_ c).
Definition pOf (c : Computation.t) : FieldVariable :=
  StaggeredGrid.p_ (Computation.discretization_ c).
Definition fOf (c : Computation.t) : FieldVariable :=
  StaggeredGrid.f_ (Computation.discretization_ c).
Definition gOf (c : Computation.t) : FieldVariable :=
  StaggeredGrid.g_ (Computation.discretization_ c).
Definition rhsOf (c : Computation.t) : FieldVariable :=
  StaggeredGrid.rhs_ (Computation.discretization_ c).
Definition cellsOf (c : Computation.t) : Z * Z :=
  StaggeredGrid.nCells_ (Computation.discretization_ c).

(** The cells on the four edges of the range of [u] (and [f]), and of [v]
    (and [g]). *)
Definition uEdge (nx ny i j : Z) : Prop :=
  uRange nx ny i j /\ (i = -1 \/ i = nx - 1 \/ j = -1 \/ j = ny).
Definition vEdge (nx ny i j : Z) : Prop :=
  vRange nx ny i j /\ (i = -1 \/ i = nx \/ j = -1 \/ j = ny - 1).

(** [m] is the largest absolute value [val] takes on the cells of [R], as the
    scans of [computeTimeStepWidth] find it starting from zero: no scanned
    value is above [m], and [m] is zero or one of the scanned values. *)
Definition isMaxAbs (R : Z -> Z -> Prop) (val : Z -> Z -> float) (m : float) : Prop :=
  (forall i j, R i j -> (m <? abs (val i j))%float = false) /\
  (m = 0%float \/ exists i j, R i j /\ m = abs (val i j)).

(** [r] is the minimum [std::min] selects among three numbers: one of them,
    with none of them below it. *)
Definition isMinOf3 (a b c r : float) : Prop :=
  (r = a \/ r = b \/ r = c) /\
  (a <? r)%float = false /\ (b <? r)%float = false /\ (c <? r)%float = false.

(** The state of the computation with the step width replaced. *)
Definition with_dt (c : Computation.t) (val : float) : Computation.t :=
  Computation.mk (Computation.settings_ c) (Computation.discretization_ c)
    (Computation.meshWidth_ c) val.

(** *** Example states *)

(** A cavity of 2 by 2 cells of width 0.5 at rest, with no-slip walls. *)
Definition quiescentSettings : Settings.t :=
  {| Settings.nCells := (2, 2);
     Settings.physicalSize := (1, 1)%float;
     Settings.re := 1000%float;
     Settings.endTime := 0.9%float;
     Settings.tau := 0.5%float;
     Settings.maximumDt := 0.8%float;
     Settings.g := (0, 0)%float;
     Settings.dirichletBcBottom := (0, 0)%float;
     Settings.dirichletBcTop := (0, 0)%float;
     Settings.dirichletBcLeft := (0, 0)%float;
     Settings.dirichletBcRight := (0, 0)%float |}.

Definition quiescent : Computation.t :=
  {| Computation.settings_ := quiescentSettings;
     Computation.discretization_ := StaggeredGrid.new (2, 2) (0.5, 0.5)%float;
     Computation.meshWidth_ := (0.5, 0.5)%float;
     Computation.dt_ := 0%float |}.

(** A cavity of 3 by 2 cells with a different velocity on each wall. *)
Definition fourWallsSettings : Settings.t :=
  {| Settings.nCells := (3, 2);
     Settings.physicalSize := (3, 1)%float;
     Settings.re := 100%float;
     Settings.endTime := 1%float;
     Settings.tau := 0.5%float;
     Settings.maximumDt := 0.25%float;
     Settings.g := (0, -10)%float;
     Settings.dirichletBcBottom := (1, 2)%float;
     Settings.dirichletBcTop := (3, 4)%float;
     Settings.dirichletBcLeft := (5, 6)%float;
     Settings.dirichletBcRight := (7, 8)%float |}.

Definition fourWalls : Computation.t :=
  {| Computation.settings_ := fourWallsSettings;
     Computation.discretization_ := StaggeredGrid.new (3, 2) (1, 0.5)%float;
     Computation.meshWidth_ := (1, 0.5)%float;
     Computation.dt_ := 0.125%float |}.

(** *** Vocabulary of the further properties *)

Definition with_p (c : Computation.t) (fv : FieldVariable) : Computation.t :=
  let d := Computation.discretization_ c in
  Computation.mk (Computation.settings_ c)
    (StaggeredGrid.mk (StaggeredGrid.u_ d) (StaggeredGrid.v_ d) fv
       (StaggeredGrid.f_ d) (StaggeredGrid.g_ d) (StaggeredGrid.rhs_ d)
       (StaggeredGrid.meshWidth_ d) (StaggeredGrid.nCells_ d))
    (Computation.meshWidth_ c) (Computation.dt_ c).

Definition with_rhs (c : Computation.t) (fv : FieldVariable) : Computation.t :=
  let d := Computation.discretization_ c in
  Computation.mk (Computation.settings_ c)
    (StaggeredGrid.mk (StaggeredGrid.u_ d) (StaggeredGrid.v_ d) (StaggeredGrid.p_ d)
       (StaggeredGrid.f_ d) (StaggeredGrid.g_ d) fv
       (StaggeredGrid.meshWidth_ d) (StaggeredGrid.nCells_ d))
    (Computation.meshWidth_ c) (Computation.dt_ c).

(** The state of the computation with the whole grid replaced. *)
Definition with_grid (c : Computation.t) (sg : StaggeredGrid.t) : Computation.t :=
  Computation.mk (Computation.settings_ c) sg
    (Computation.meshWidth_ c) (Computation.dt_ c).

(** Everything but the contents of the six fields: settings, mesh widths,
    step width, cell counts. *)
Definition sameFrame (c c' : Computation.t) : Prop :=
  Computation.settings_ c' = Computation.settings_ c /\
  Computation.meshWidth_ c' = Computation.meshWidth_ c /\
  Computation.dt_ c' = Computation.dt_ c /\
  cellsOf c' = cellsOf c /\
  StaggeredGrid.meshWidth_ (Computation.discretization_ c')
  = StaggeredGrid.meshWidth_ (Computation.discretization_ c).

(** An assignment through [set] at an in-range index returns, a read through
    [get] at the same index then returns the value assigned, and a read at
    any other in-range index returns what it returned before. *)
Definition writeReadsBack (get : Z -> Z -> Computation.M float)
    (set : Z -> Z -> float -> Computation.M unit)
    (inRange : Z -> Z -> Prop) (c : Computation.t) : Prop :=
  forall i j val, inRange i j ->
    exists c',
      set i j val c = Returns (tt, c') /\
      get i j c' = Returns (val, c') /\
      sameFrame c c' /\
      (forall i' j', inRange i' j' -> i' <> i \/ j' <> j ->
         exists old, get i' j' c = Returns (old, c) /\ get i' j' c' = Returns (old, c')).

(** The interior cells of the pressure range: the cells of the domain. *)
Definition pInterior (nx ny i j : Z) : Prop := 0 <= i < nx /\ 0 <= j < ny.
(** The interior cells of the ranges of [u] and of [v]. *)
Definition uInterior (nx ny i j : Z) : Prop := 0 <= i < nx - 1 /\ 0 <= j < ny.
Definition vInterior (nx ny i j : Z) : Prop := 0 <= i < nx /\ 0 <= j < ny - 1.

(** The pressure-gradient operators read the pressure and the mesh only. *)
Definition readsPressure (op : StaggeredGrid.t -> Z -> Z -> float) : Prop :=
  forall sg sg' i j,
    StaggeredGrid.p_ sg = StaggeredGrid.p_ sg' ->
    StaggeredGrid.meshWidth_ sg = StaggeredGrid.meshWidth_ sg' ->
    StaggeredGrid.nCells_ sg = StaggeredGrid.nCells_ sg' ->
    op sg i j = op sg' i j.

(** A pressure solver that returns and keeps the cell counts of the grid. *)
Definition solverReturns (solve : StaggeredGrid.t -> outcome StaggeredGrid.t) : Prop :=
  forall sg, exists sg',
    solve sg = Returns sg' /\ StaggeredGrid.nCells_ sg' = StaggeredGrid.nCells_ sg.

(** The grid a test case of [runTest] hands to the solver: the interior of
    [p] holds [pValue], the interior of [rhs] holds [rhsValue], everything
    else is as in [d]. *)
Definition testCase (rhsValue pValue : float) (nx ny : Z)
    (d d' : StaggeredGrid.t) : Prop :=
  StaggeredGrid.nCells_ d' = StaggeredGrid.nCells_ d /\
  StaggeredGrid.meshWidth_ d' = StaggeredGrid.meshWidth_ d /\
  StaggeredGrid.u_ d' = StaggeredGrid.u_ d /\
  StaggeredGrid.v_ d' = StaggeredGrid.v_ d /\
  StaggeredGrid.f_ d' = StaggeredGrid.f_ d /\
  StaggeredGrid.g_ d' = StaggeredGrid.g_ d /\
  (forall i j, pInterior nx ny i j ->
     cell (StaggeredGrid.p_ d') i j = pValue /\
     cell (StaggeredGrid.rhs_ d') i j = rhsValue) /\
  (forall i j, ~ pInterior nx ny i j ->
     cell (StaggeredGrid.p_ d') i j = cell (StaggeredGrid.p_ d) i j /\
     cell (StaggeredGrid.rhs_ d') i j = cell (StaggeredGrid.rhs_ d) i j).

(** The accessor [acc] designates storage cells of [fv] one to one: whenever
    it returns, the cell is [(i+1, j+1)] and lies inside the extents, and
    every cell inside the extents is designated by the logical index one step
    down and to the left. *)
Definition ontoExtents (acc : Z -> Z -> outcome (Z * Z)) (fv : FieldVariable) : Prop :=
  (forall i j x y, acc i j = Returns (x, y) ->
     (x = i + 1 /\ y = j + 1) /\ inExtents fv x y) /\
  (forall x y, inExtents fv x y -> acc (x - 1) (y - 1) = Returns (x, y)).

(** A pressure solver that, when it returns, keeps the cell counts. *)
Definition solverKeepsCells (solve : StaggeredGrid.t -> outcome StaggeredGrid.t) : Prop :=
  forall sg sg', solve sg = Returns sg' ->
    StaggeredGrid.nCells_ sg' = StaggeredGrid.nCells_ sg.

(** A solver that gives up at once: it returns the grid as it is. *)
Definition noSweep (sg : StaggeredGrid.t) : outcome StaggeredGrid.t := Returns sg.

(** Settings that select the donor-cell operators and the SOR solver, and
    settings with no cell in the first direction. *)
Definition cavitySelection : Settings.selection :=
  {| Settings.useDonorCell := true;
     Settings.alpha := 0.5%float;
     Settings.pressureSolver := "SOR";
     Settings.epsilon := 0.00001%float;
     Settings.maximumNumberOfIterations := 10000;
     Settings.omega := 1.6%float |}.

Definition noCellsSettings : Settings.t :=
  {| Settings.nCells := (0, 4);
     Settings.physicalSize := (2, 2)%float;
     Settings.re := 1000%float;
     Settings.endTime := 1%float;
     Settings.tau := 0.5%float;
     Settings.maximumDt := 0.1%float;
     Settings.g := (0, 0)%float;
     Settings.dirichletBcBottom := (0, 0)%float;
     Settings.dirichletBcTop := (1, 0)%float;
     Settings.dirichletBcLeft := (0, 0)%float;
     Settings.dirichletBcRight := (0, 0)%float |}.

(** The state still has the cell counts, the settings and the mesh widths
    the loop started with. *)
Definition inFrame (nx ny : Z) (s : Settings.t) (meshWidth : float * float)
    (c : Computation.t) : Prop :=
  cellsOf c = (nx, ny) /\
  Computation.settings_ c = s /\
  Computation.meshWidth_ c = meshWidth.

(** * Properties *)

(** ** Grid storage *)

Lemma checked_in (axisI axisJ name : string) (iBegin iEnd jBegin jEnd i j : Z) :
  iBegin <= i < iEnd -> jBegin <= j < jEnd ->
  StaggeredGrid.checked axisI axisJ name iBegin iEnd jBegin jEnd i j
  = Returns (i + 1, j + 1).
Proof.
  intros Hi Hj. unfold StaggeredGrid.checked.
  replace (i >=? iBegin) with true by (symmetry; apply Z.geb_le; lia).
  replace (i <? iEnd) with true by (symmetry; apply Z.ltb_lt; lia).
  replace (j >=? jBegin) with true by (symmetry; apply Z.geb_le; lia).
  replace (j <? jEnd) with true by (symmetry; apply Z.ltb_lt; lia).
  reflexivity.
Qed.

Lemma checked_out (axisI axisJ name : string) (iBegin iEnd jBegin jEnd i j : Z) :
  ~ (iBegin <= i < iEnd /\ jBegin <= j < jEnd) ->
  failsOutOfRange
    (StaggeredGrid.checked axisI axisJ name iBegin iEnd jBegin jEnd i j)
    name iBegin iEnd jBegin jEnd i j.
Proof.
  intros Hout. unfold StaggeredGrid.checked, failsOutOfRange.
  destruct (Z.geb_spec i iBegin) as [Hi1 | Hi1];
    destruct (Z.ltb_spec i iEnd) as [Hi2 | Hi2]; cbn [andb negb];
    try (eexists; split; [reflexivity | split; [reflexivity | left; cbn; repeat split; lia]]).
  destruct (Z.geb_spec j jBegin) as [Hj1 | Hj1];
    destruct (Z.ltb_spec j jEnd) as [Hj2 | Hj2]; cbn [andb negb];
    try (eexists; split; [reflexivity | split; [reflexivity | right; cbn; repeat split; lia]]).
  exfalso. apply Hout. lia.
Qed.

Lemma checked_boundsChecked (axisI axisJ name : string) (iBegin iEnd jBegin jEnd : Z) :
  boundsChecked (StaggeredGrid.checked axisI axisJ name iBegin iEnd jBegin jEnd)
    name iBegin iEnd jBegin jEnd.
Proof.
  intros i j. split.
  - intros [Hi Hj]. now apply checked_in.
  - apply checked_out.
Qed.

Lemma read_boundsChecked (axisI axisJ name : string) (fv : FieldVariable)
    (iBegin iEnd jBegin jEnd : Z) :
  boundsCheckedRead
    (fun i j => StaggeredGrid.read fv
       (StaggeredGrid.checked axisI axisJ name iBegin iEnd jBegin jEnd i j))
    fv name iBegin iEnd jBegin jEnd.
Proof.
  intros i j. split.
  - intros [Hi Hj]. now rewrite checked_in.
  - intros Hout. destruct (checked_out axisI axisJ name _ _ _ _ _ _ Hout)
      as (e & He & Hrest).
    exists e. rewrite He. split; [reflexivity | exact Hrest].
Qed.

(** C9.  Every accessor of the grid ([u], [v], [p] in both overloads, [rhs],
    [f], [g]) is bounds checked against the range of its field: an index pair
    outside [[IBegin, IEnd) x [JBegin, JEnd)] terminates the process with a
    message carrying the field name, the offending index and the valid range,
    and returns no value; an index pair inside the range never takes the
    error branch.  The failure is fatal: through [discretization_], a failed
    read or assignment ends the computation whatever was to follow. *)
Theorem accessors_bounds_checked (sg : StaggeredGrid.t) :
  let uIB := StaggeredGrid.uIBegin sg in let uIE := StaggeredGrid.uIEnd sg in
  let uJB := StaggeredGrid.uJBegin sg in let uJE := StaggeredGrid.uJEnd sg in
  let vIB := StaggeredGrid.vIBegin sg in let vIE := StaggeredGrid.vIEnd sg in
  let vJB := StaggeredGrid.vJBegin sg in let vJE := StaggeredGrid.vJEnd sg in
  let pIB := StaggeredGrid.pIBegin sg in let pIE := StaggeredGrid.pIEnd sg in
  let pJB := StaggeredGrid.pJBegin sg in let pJE := StaggeredGrid.pJEnd sg in
  boundsChecked (StaggeredGrid.u sg) "u" uIB uIE uJB uJE /\
  boundsChecked (StaggeredGrid.v sg) "v" vIB vIE vJB vJE /\
  boundsChecked (StaggeredGrid.p sg) "p" pIB pIE pJB pJE /\
  boundsChecked (StaggeredGrid.rhs sg) "rhs" pIB pIE pJB pJE /\
  boundsChecked (StaggeredGrid.f sg) "f" uIB uIE uJB uJE /\
  boundsChecked (StaggeredGrid.g sg) "g" vIB vIE vJB vJE /\
  boundsCheckedRead (StaggeredGrid.u_const sg) (StaggeredGrid.u_ sg) "u" uIB uIE uJB uJE /\
  boundsCheckedRead (StaggeredGrid.v_const sg) (StaggeredGrid.v_ sg) "v" vIB vIE vJB vJE /\
  boundsCheckedRead (StaggeredGrid.p_const sg) (StaggeredGrid.p_ sg) "p" pIB pIE pJB pJE /\
  (forall (c : Computation.t) acc field update i j val e
          (B : Type) (k : float -> Computation.M B) (k' : unit -> Computation.M B),
     acc (Computation.discretization_ c) i j = Terminated e ->
     Computation.bind (Computation.load acc field i j) k c = Terminated e /\
     Computation.bind (Computation.store acc update i j val) k' c = Terminated e).
Proof.
  cbv zeta.
  repeat apply conj;
    try first [ apply checked_boundsChecked
              | apply (read_boundsChecked "i" "j") ].
  intros c acc field update i j val e B k k' Hacc.
  unfold Computation.bind, Computation.load, Computation.store.
  rewrite Hacc. split; reflexivity.
Qed.

(** C1, as stated, fails: on a grid of 3 by 3 cells the range of [u] in the
    first direction ends at [uIEnd = 3], and the range of [v] in the second
    direction at [vJEnd = 3]: neither cell-count+1 nor cell-count+2. *)
Lemma range_end_counterexample :
  let sg := StaggeredGrid.new (3, 3) (1, 1)%float in
  ~ ((StaggeredGrid.uIEnd sg = 3 + 1 \/ StaggeredGrid.uIEnd sg = 3 + 2) /\
     (StaggeredGrid.vJEnd sg = 3 + 1 \/ StaggeredGrid.vJEnd sg = 3 + 2)).
Proof.
  cbv zeta. unfold StaggeredGrid.uIEnd, StaggeredGrid.vJEnd. cbn.
  intros [[H | H] _]; discriminate H.
Qed.

(** C1, amended.  On the grid built from the cell counts [(nx, ny)] every
    logical index range begins at -1; its exclusive end is the cell count or
    the cell count plus one, depending on the staggering, so that the range
    holds cell-count+1 or cell-count+2 indices, which is the storage extent of
    the field; and every accessor maps an in-range logical index [(i,j)] to
    the storage index [(i+1, j+1)], which lies inside the extents. *)
Theorem index_ranges_and_shift (nx ny : Z) (meshWidth : float * float) :
  let sg := StaggeredGrid.new (nx, ny) meshWidth in
  (StaggeredGrid.uIBegin sg = -1 /\ StaggeredGrid.uJBegin sg = -1 /\
   StaggeredGrid.vIBegin sg = -1 /\ StaggeredGrid.vJBegin sg = -1 /\
   StaggeredGrid.pIBegin sg = -1 /\ StaggeredGrid.pJBegin sg = -1) /\
  (StaggeredGrid.uIEnd sg = nx /\ StaggeredGrid.uJEnd sg = ny + 1 /\
   StaggeredGrid.vIEnd sg = nx + 1 /\ StaggeredGrid.vJEnd sg = ny /\
   StaggeredGrid.pIEnd sg = nx + 1 /\ StaggeredGrid.pJEnd sg = ny + 1) /\
  (size_ (StaggeredGrid.u_ sg) = (nx + 1, ny + 2) /\
   size_ (StaggeredGrid.f_ sg) = (nx + 1, ny + 2) /\
   size_ (StaggeredGrid.v_ sg) = (nx + 2, ny + 1) /\
   size_ (StaggeredGrid.g_ sg) = (nx + 2, ny + 1) /\
   size_ (StaggeredGrid.p_ sg) = (nx + 2, ny + 2) /\
   size_ (StaggeredGrid.rhs_ sg) = (nx + 2, ny + 2)) /\
  (forall i j, StaggeredGrid.inU sg i j ->
     StaggeredGrid.u sg i j = Returns (i + 1, j + 1) /\
     StaggeredGrid.u_const sg i j = Returns (at_ (StaggeredGrid.u_ sg) (i + 1) (j + 1)) /\
     StaggeredGrid.f sg i j = Returns (i + 1, j + 1) /\
     inExtents (StaggeredGrid.u_ sg) (i + 1) (j + 1) /\
     inExtents (StaggeredGrid.f_ sg) (i + 1) (j + 1)) /\
  (forall i j, StaggeredGrid.inV sg i j ->
     StaggeredGrid.v sg i j = Returns (i + 1, j + 1) /\
     StaggeredGrid.v_const sg i j = Returns (at_ (StaggeredGrid.v_ sg) (i + 1) (j + 1)) /\
     StaggeredGrid.g sg i j = Returns (i + 1, j + 1) /\
     inExtents (StaggeredGrid.v_ sg) (i + 1) (j + 1) /\
     inExtents (StaggeredGrid.g_ sg) (i + 1) (j + 1)) /\
  (forall i j, StaggeredGrid.inP sg i j ->
     StaggeredGrid.p sg i j = Returns (i + 1, j + 1) /\
     StaggeredGrid.p_const sg i j = Returns (at_ (StaggeredGrid.p_ sg) (i + 1) (j + 1)) /\
     StaggeredGrid.rhs sg i j = Returns (i + 1, j + 1) /\
     inExtents (StaggeredGrid.p_ sg) (i + 1) (j + 1) /\
     inExtents (StaggeredGrid.rhs_ sg) (i + 1) (j + 1)).
Proof.
  cbv zeta.
  split; [repeat split | ].
  split; [repeat split | ].
  split; [repeat split | ].
  split; [ | split ]; intros i j [Hi Hj];
    unfold StaggeredGrid.u, StaggeredGrid.u_const, StaggeredGrid.f,
      StaggeredGrid.v, StaggeredGrid.v_const, StaggeredGrid.g,
      StaggeredGrid.p, StaggeredGrid.p_const, StaggeredGrid.rhs;
    rewrite !checked_in by assumption;
    unfold StaggeredGrid.uIBegin, StaggeredGrid.uIEnd, StaggeredGrid.uJBegin,
      StaggeredGrid.uJEnd, StaggeredGrid.vIBegin, StaggeredGrid.vIEnd,
      StaggeredGrid.vJBegin, StaggeredGrid.vJEnd, StaggeredGrid.pIBegin,
      StaggeredGrid.pIEnd, StaggeredGrid.pJBegin, StaggeredGrid.pJEnd in Hi, Hj;
    cbn in Hi, Hj;
    (repeat split; try reflexivity; cbn; lia).
Qed.

(** ** Loops and accesses of the orchestrator *)

Section Loops.
Import Computation.
Context {A : Type}.
Variable I : Z -> A -> Computation.t -> Prop.
Variable body : Z -> A -> M A.

Lemma iterate_inv (n : nat) :
  forall (i : Z) (a : A) (c : Computation.t),
    I i a c ->
    (forall k a1 c1, i <= k < i + Z.of_nat n -> I k a1 c1 ->
       exists a2 c2, body k a1 c1 = Returns (a2, c2) /\ I (k + 1) a2 c2) ->
    exists a' c', iterate n i body a c = Returns (a', c') /\ I (i + Z.of_nat n) a' c'.
Proof.
  induction n as [ | n IH]; intros i a c Hinit Hstep.
  - exists a, c. cbn. rewrite Z.add_0_r. split; [reflexivity | assumption].
  - destruct (Hstep i a c) as (a2 & c2 & Hbody & Hinv); [lia | assumption | ].
    destruct (IH (i + 1) a2 c2 Hinv) as (a' & c' & Hrun & Hfinal).
    + intros k a1 c1 Hk. apply Hstep. lia.
    + exists a', c'. split.
      * cbn [iterate]. unfold bind at 1. rewrite Hbody. exact Hrun.
      * replace (i + Z.of_nat (S n)) with (i + 1 + Z.of_nat n) by lia. exact Hfinal.
Qed.

Lemma for_inv (b e : Z) (a : A) (c : Computation.t) :
  b <= e ->
  I b a c ->
  (forall k a1 c1, b <= k < e -> I k a1 c1 ->
     exists a2 c2, body k a1 c1 = Returns (a2, c2) /\ I (k + 1) a2 c2) ->
  exists a' c', for_ b e body a c = Returns (a', c') /\ I e a' c'.
Proof.
  intros Hbe Hinit Hstep. unfold for_.
  destruct (iterate_inv (Z.to_nat (e - b)) b a c Hinit) as (a' & c' & Hrun & Hfinal).
  - intros k a1 c1 Hk. apply Hstep. lia.
  - exists a', c'. split; [exact Hrun | ].
    replace e with (b + Z.of_nat (Z.to_nat (e - b))) at 1 by lia. exact Hfinal.
Qed.

Lemma for_empty (b e : Z) (a : A) (c : Computation.t) :
  e <= b -> for_ b e body a c = Returns (a, c).
Proof.
  intros Heb. unfold for_. replace (Z.to_nat (e - b)) with O by lia. reflexivity.
Qed.

End Loops.

Lemma for_each_inv (I : Z -> Computation.t -> Prop) (body : Z -> Computation.M unit)
    (b e : Z) (c : Computation.t) :
  b <= e ->
  I b c ->
  (forall k c1, b <= k < e -> I k c1 ->
     exists c2, body k c1 = Returns (tt, c2) /\ I (k + 1) c2) ->
  exists c', Computation.for_each b e body c = Returns (tt, c') /\ I e c'.
Proof.
  intros Hbe Hinit Hstep. unfold Computation.for_each.
  destruct (for_inv (fun k _ c1 => I k c1) (fun i _ => body i) b e tt c Hbe Hinit)
    as (a' & c' & Hrun & Hfinal).
  - intros k a1 c1 Hk Hinv. destruct (Hstep k c1 Hk Hinv) as (c2 & Hb & Hi).
    exists tt, c2. split; assumption.
  - destruct a'. exists c'. split; assumption.
Qed.

Lemma for_inv_max {A : Type} (I : Z -> A -> Computation.t -> Prop)
    (body : Z -> A -> Computation.M A) (b e : Z) (a : A) (c : Computation.t) :
  I b a c ->
  (forall k a1 c1, b <= k < e -> I k a1 c1 ->
     exists a2 c2, body k a1 c1 = Returns (a2, c2) /\ I (k + 1) a2 c2) ->
  exists a' c', Computation.for_ b e body a c = Returns (a', c') /\ I (Z.max b e) a' c'.
Proof.
  intros Hinit Hstep. destruct (Z.le_gt_cases b e) as [Hbe | Hbe].
  - rewrite Z.max_r by assumption. now apply for_inv.
  - exists a, c. rewrite Z.max_l by lia. split; [ | assumption ].
    apply for_empty. lia.
Qed.

(** The same for a loop that may be empty. *)
Lemma for_each_inv_max (I : Z -> Computation.t -> Prop) (body : Z -> Computation.M unit)
    (b e : Z) (c : Computation.t) :
  I b c ->
  (forall k c1, b <= k < e -> I k c1 ->
     exists c2, body k c1 = Returns (tt, c2) /\ I (k + 1) c2) ->
  exists c', Computation.for_each b e body c = Returns (tt, c') /\ I (Z.max b e) c'.
Proof.
  intros Hinit Hstep. destruct (Z.le_gt_cases b e) as [Hbe | Hbe].
  - rewrite Z.max_r by assumption. now apply for_each_inv.
  - exists c. rewrite Z.max_l by lia. split; [ | assumption ].
    unfold Computation.for_each. apply for_empty. lia.
Qed.

(** Reading a cell back after an assignment. *)
Lemma cell_assign (fv : FieldVariable) (i j : Z) (val : float) (i' j' : Z) :
  cell (assign fv (i + 1) (j + 1) val) i' j'
  = if (i' =? i) && (j' =? j) then val else cell fv i' j'.
Proof.
  unfold cell, at_, assign. cbn.
  destruct (Z.eqb_spec (i' + 1) (i + 1)), (Z.eqb_spec i' i); try lia;
    destruct (Z.eqb_spec (j' + 1) (j + 1)), (Z.eqb_spec j' j); try lia; reflexivity.
Qed.

Lemma cell_assign_same (fv : FieldVariable) (i j : Z) (val : float) :
  cell (assign fv (i + 1) (j + 1) val) i j = val.
Proof. rewrite cell_assign, !Z.eqb_refl. reflexivity. Qed.

Lemma cell_assign_other (fv : FieldVariable) (i j : Z) (val : float) (i' j' : Z) :
  i' <> i \/ j' <> j ->
  cell (assign fv (i + 1) (j + 1) val) i' j' = cell fv i' j'.
Proof.
  intros H. rewrite cell_assign.
  destruct (Z.eqb_spec i' i), (Z.eqb_spec j' j); cbn; try reflexivity. lia.
Qed.

(** In-range accesses through [discretization_]. *)
Section Accesses.
Import Computation.
Variables (c : Computation.t) (nx ny : Z).
Hypothesis Hcells : cellsOf c = (nx, ny).

Lemma u_in (i j : Z) : uRange nx ny i j -> u i j c = Returns (cell (uOf c) i j, c).
Proof.
  intros [Hi Hj]. unfold u, load, StaggeredGrid.u.
  rewrite checked_in; [reflexivity | | ];
    unfold StaggeredGrid.uIBegin, StaggeredGrid.uIEnd, StaggeredGrid.uJBegin,
      StaggeredGrid.uJEnd; unfold cellsOf in Hcells; rewrite Hcells; cbn; lia.
Qed.

Lemma v_in (i j : Z) : vRange nx ny i j -> v i j c = Returns (cell (vOf c) i j, c).
Proof.
  intros [Hi Hj]. unfold v, load, StaggeredGrid.v.
  rewrite checked_in; [reflexivity | | ];
    unfold StaggeredGrid.vIBegin, StaggeredGrid.vIEnd, StaggeredGrid.vJBegin,
      StaggeredGrid.vJEnd; unfold cellsOf in Hcells; rewrite Hcells; cbn; lia.
Qed.

Lemma f_in (i j : Z) : uRange nx ny i j -> f i j c = Returns (cell (fOf c) i j, c).
Proof.
  intros [Hi Hj]. unfold f, load, StaggeredGrid.f.
  rewrite checked_in; [reflexivity | | ];
    unfold StaggeredGrid.uIBegin, StaggeredGrid.uIEnd, StaggeredGrid.uJBegin,
      StaggeredGrid.uJEnd; unfold cellsOf in Hcells; rewrite Hcells; cbn; lia.
Qed.

Lemma g_in (i j : Z) : vRange nx ny i j -> g i j c = Returns (cell (gOf c) i j, c).
Proof.
  intros [Hi Hj]. unfold g, load, StaggeredGrid.g.
  rewrite checked_in; [reflexivity | | ];
    unfold StaggeredGrid.vIBegin, StaggeredGrid.vIEnd, StaggeredGrid.vJBegin,
      StaggeredGrid.vJEnd; unfold cellsOf in Hcells; rewrite Hcells; cbn; lia.
Qed.

Lemma set_u_in (i j : Z) (val : float) :
  uRange nx ny i j ->
  set_u i j val c = Returns (tt, with_u c (assign (uOf c) (i + 1) (j + 1) val)).
Proof.
  intros [Hi Hj]. unfold set_u, store, StaggeredGrid.u.
  rewrite checked_in; [reflexivity | | ];
    unfold StaggeredGrid.uIBegin, StaggeredGrid.uIEnd, StaggeredGrid.uJBegin,
      StaggeredGrid.uJEnd; unfold cellsOf in Hcells; rewrite Hcells; cbn; lia.
Qed.

Lemma set_v_in (i j : Z) (val : float) :
  vRange nx ny i j ->
  set_v i j val c = Returns (tt, with_v c (assign (vOf c) (i + 1) (j + 1) val)).
Proof.
  intros [Hi Hj]. unfold set_v, store, StaggeredGrid.v.
  rewrite checked_in; [reflexivity | | ];
    unfold StaggeredGrid.vIBegin, StaggeredGrid.vIEnd, StaggeredGrid.vJBegin,
      StaggeredGrid.vJEnd; unfold cellsOf in Hcells; rewrite Hcells; cbn; lia.
Qed.

Lemma set_f_in (i j : Z) (val : float) :
  uRange nx ny i j ->
  set_f i j val c = Returns (tt, with_f c (assign (fOf c) (i + 1) (j + 1) val)).
Proof.
  intros [Hi Hj]. unfold set_f, store, StaggeredGrid.f.
  rewrite checked_in; [reflexivity | | ];
    unfold StaggeredGrid.uIBegin, StaggeredGrid.uIEnd, StaggeredGrid.uJBegin,
      StaggeredGrid.uJEnd; unfold cellsOf in Hcells; rewrite Hcells; cbn; lia.
Qed.

Lemma set_g_in (i j : Z) (val : float) :
  vRange nx ny i j ->
  set_g i j val c = Returns (tt, with_g c (assign (gOf c) (i + 1) (j + 1) val)).
Proof.
  intros [Hi Hj]. unfold set_g, store, StaggeredGrid.g.
  rewrite checked_in; [reflexivity | | ];
    unfold StaggeredGrid.vIBegin, StaggeredGrid.vIEnd, StaggeredGrid.vJBegin,
      StaggeredGrid.vJEnd; unfold cellsOf in Hcells; rewrite Hcells; cbn; lia.
Qed.

End Accesses.

(** ** [applyBoundaryValues] *)

Lemma bind_run {A B : Type} (m : Computation.M A) (k : A -> Computation.M B)
    (c c' : Computation.t) (a : A) :
  m c = Returns (a, c') -> Computation.bind m k c = k a c'.
Proof. intros H. unfold Computation.bind. rewrite H. reflexivity. Qed.

Lemma bind_assoc {A B C : Type} (m : Computation.M A) (n : A -> Computation.M B)
    (k : B -> Computation.M C) (c : Computation.t) :
  Computation.bind (Computation.bind m n) k c
  = Computation.bind m (fun a => Computation.bind (n a) k) c.
Proof.
  unfold Computation.bind. destruct (m c) as [[a c'] | e]; reflexivity.
Qed.

Lemma bind_settings {B : Type} (k : Settings.t -> Computation.M B) (c : Computation.t) :
  Computation.bind Computation.settings k c = k (Computation.settings_ c) c.
Proof. reflexivity. Qed.

Lemma bind_discretization {B : Type} (k : StaggeredGrid.t -> Computation.M B)
    (c : Computation.t) :
  Computation.bind Computation.discretization k c = k (Computation.discretization_ c) c.
Proof. reflexivity. Qed.

Lemma bind_dt {B : Type} (k : float -> Computation.M B) (c : Computation.t) :
  Computation.bind Computation.dt k c = k (Computation.dt_ c) c.
Proof. reflexivity. Qed.

Lemma bind_meshWidth {B : Type} (k : float * float -> Computation.M B)
    (c : Computation.t) :
  Computation.bind Computation.meshWidth k c = k (Computation.meshWidth_ c) c.
Proof. reflexivity. Qed.

(** Runs one access of a loop body: [L] is the access lemma, [Hc] the cell
    counts of the current state. *)
Ltac access L Hc :=
  first [ erewrite bind_run;
            [ | eapply L; [exact Hc | unfold uRange, vRange; lia] ]
        | erewrite L; [ | exact Hc | unfold uRange, vRange; lia ] ];
  cbv beta.

(** Decides what a cell holds after a few assignments. *)
Ltac cells :=
  rewrite ?cell_assign;
  repeat match goal with
         | |- context [?a =? ?b] => destruct (Z.eqb_spec a b); cbn [andb]
         end;
  try reflexivity; try lia.

Section BoundaryLoops.
Import Computation.
Local Open Scope comp_scope.
Variables (c : Computation.t) (nx ny : Z).
Hypothesis Hcells : cellsOf c = (nx, ny).
Hypothesis Hnx : 0 <= nx.
Hypothesis Hny : 0 <= ny.

(** The sides of [u], lines 186-193. *)
Lemma u_sides_loop (left right : float) :
  exists fu,
    for_each (-1) (ny + 1) (fun j =>
      set_u (-1) j left ;; set_u (nx - 1) j right) c
    = Returns (tt, with_u c fu) /\
    (forall i j, ~ (-1 <= j < ny + 1 /\ (i = -1 \/ i = nx - 1)) ->
       cell fu i j = cell (uOf c) i j) /\
    (forall j, -1 <= j < ny + 1 ->
       cell fu (nx - 1) j = right /\ (1 <= nx -> cell fu (-1) j = left)).
Proof.
  destruct (for_each_inv
    (fun k c1 => exists fu, c1 = with_u c fu /\
       (forall i j, ~ (-1 <= j < k /\ (i = -1 \/ i = nx - 1)) ->
          cell fu i j = cell (uOf c) i j) /\
       (forall j, -1 <= j < k ->
          cell fu (nx - 1) j = right /\ (1 <= nx -> cell fu (-1) j = left)))
    (fun j => set_u (-1) j left ;; set_u (nx - 1) j right) (-1) (ny + 1) c)
    as (c' & Hrun & fu & -> & Hframe & Hval).
  - lia.
  - exists (uOf c). split; [now destruct c as [s [] mw d] | ].
    split; [reflexivity | intros; lia].
  - intros k c1 Hk (fu & -> & Hframe & Hval).
    access set_u_in Hcells.
    access set_u_in Hcells.
    eexists. split; [reflexivity | ].
    eexists. split; [reflexivity | ]. cbn [uOf with_u discretization_ StaggeredGrid.u_].
    split.
    + intros i j Hij. cells; apply Hframe; lia.
    + intros j Hj. split; [ | intros Hnx1 ]; cells; apply Hval; lia.
  - exists fu. auto.
Qed.

(** Bottom and top of [u], lines 165-172. *)
Lemma u_bottom_top_loop (bottom top : float) :
  exists fu,
    for_each (-1) nx (fun i =>
      r <- u i (-1 + 1) ;;
      set_u i (-1) (2 * bottom - r)%float ;;
      r <- u i (ny + 1 - 2) ;;
      set_u i (ny + 1 - 1) (2 * top - r)%float) c
    = Returns (tt, with_u c fu) /\
    (forall i j, ~ (-1 <= i < nx /\ (j = -1 \/ j = ny)) ->
       cell fu i j = cell (uOf c) i j) /\
    (1 <= ny -> forall i, -1 <= i < nx ->
       cell fu i (-1) = (2 * bottom - cell (uOf c) i 0)%float /\
       cell fu i ny = (2 * top - cell (uOf c) i (ny - 1))%float).
Proof.
  destruct (for_each_inv
    (fun k c1 => exists fu, c1 = with_u c fu /\
       (forall i j, ~ (-1 <= i < k /\ (j = -1 \/ j = ny)) ->
          cell fu i j = cell (uOf c) i j) /\
       (1 <= ny -> forall i, -1 <= i < k ->
          cell fu i (-1) = (2 * bottom - cell (uOf c) i 0)%float /\
          cell fu i ny = (2 * top - cell (uOf c) i (ny - 1))%float))
    (fun i =>
      r <- u i (-1 + 1) ;;
      set_u i (-1) (2 * bottom - r)%float ;;
      r <- u i (ny + 1 - 2) ;;
      set_u i (ny + 1 - 1) (2 * top - r)%float) (-1) nx c)
    as (c' & Hrun & fu & -> & Hframe & Hval).
  - lia.
  - exists (uOf c). split; [now destruct c as [s [] mw d] | ].
    split; [reflexivity | intros; lia].
  - intros k c1 Hk (fu & -> & Hframe & Hval).
    access u_in Hcells. access set_u_in Hcells.
    access u_in Hcells. access set_u_in Hcells.
    eexists. split; [reflexivity | ].
    eexists. split; [reflexivity | ]. cbn [uOf with_u discretization_ StaggeredGrid.u_].
    split.
    + intros i j Hij. cells; apply Hframe; lia.
    + intros Hny1 i Hi.
      assert (Hk0 : cell fu k (-1 + 1) = cell (uOf c) k 0)
        by (replace (-1 + 1) with 0 by lia; apply Hframe; lia).
      assert (Hk1 : cell fu k (ny + 1 - 2) = cell (uOf c) k (ny - 1))
        by (replace (ny + 1 - 2) with (ny - 1) by lia; apply Hframe; lia).
      split; cells; subst; rewrite ?Hk0, ?Hk1; try reflexivity; apply Hval; lia.
  - exists fu. auto.
Qed.

(** Bottom and top of [v], lines 175-182. *)
Lemma v_bottom_top_loop (bottom top : float) :
  exists fv,
    for_each (-1) (nx + 1) (fun i =>
      set_v i (-1) bottom ;; set_v i (ny - 1) top) c
    = Returns (tt, with_v c fv) /\
    (forall i j, ~ (-1 <= i < nx + 1 /\ (j = -1 \/ j = ny - 1)) ->
       cell fv i j = cell (vOf c) i j) /\
    (forall i, -1 <= i < nx + 1 ->
       cell fv i (ny - 1) = top /\ (1 <= ny -> cell fv i (-1) = bottom)).
Proof.
  destruct (for_each_inv
    (fun k c1 => exists fv, c1 = with_v c fv /\
       (forall i j, ~ (-1 <= i < k /\ (j = -1 \/ j = ny - 1)) ->
          cell fv i j = cell (vOf c) i j) /\
       (forall i, -1 <= i < k ->
          cell fv i (ny - 1) = top /\ (1 <= ny -> cell fv i (-1) = bottom)))
    (fun i => set_v i (-1) bottom ;; set_v i (ny - 1) top) (-1) (nx + 1) c)
    as (c' & Hrun & fv & -> & Hframe & Hval).
  - lia.
  - exists (vOf c). split; [now destruct c as [s [] mw d] | ].
    split; [reflexivity | intros; lia].
  - intros k c1 Hk (fv & -> & Hframe & Hval).
    access set_v_in Hcells.
    access set_v_in Hcells.
    eexists. split; [reflexivity | ].
    eexists. split; [reflexivity | ]. cbn [vOf with_v discretization_ StaggeredGrid.v_].
    split.
    + intros i j Hij. cells; apply Hframe; lia.
    + intros i Hi. split; [ | intros Hny1 ]; cells; apply Hval; lia.
  - exists fv. auto.
Qed.

(** The sides of [v], lines 195-202. *)
Lemma v_sides_loop (left right : float) :
  exists fv,
    for_each (-1) ny (fun j =>
      r <- v (-1 + 1) j ;;
      set_v (-1) j (2 * left - r)%float ;;
      r <- v (nx + 1 - 2) j ;;
      set_v (nx + 1 - 1) j (2 * right - r)%float) c
    = Returns (tt, with_v c fv) /\
    (forall i j, ~ (-1 <= j < ny /\ (i = -1 \/ i = nx)) ->
       cell fv i j = cell (vOf c) i j) /\
    (1 <= nx -> forall j, -1 <= j < ny ->
       cell fv (-1) j = (2 * left - cell (vOf c) 0 j)%float /\
       cell fv nx j = (2 * right - cell (vOf c) (nx - 1) j)%float).
Proof.
  destruct (for_each_inv
    (fun k c1 => exists fv, c1 = with_v c fv /\
       (forall i j, ~ (-1 <= j < k /\ (i = -1 \/ i = nx)) ->
          cell fv i j = cell (vOf c) i j) /\
       (1 <= nx -> forall j, -1 <= j < k ->
          cell fv (-1) j = (2 * left - cell (vOf c) 0 j)%float /\
          cell fv nx j = (2 * right - cell (vOf c) (nx - 1) j)%float))
    (fun j =>
      r <- v (-1 + 1) j ;;
      set_v (-1) j (2 * left - r)%float ;;
      r <- v (nx + 1 - 2) j ;;
      set_v (nx + 1 - 1) j (2 * right - r)%float) (-1) ny c)
    as (c' & Hrun & fv & -> & Hframe & Hval).
  - lia.
  - exists (vOf c). split; [now destruct c as [s [] mw d] | ].
    split; [reflexivity | intros; lia].
  - intros k c1 Hk (fv & -> & Hframe & Hval).
    access v_in Hcells. access set_v_in Hcells.
    access v_in Hcells. access set_v_in Hcells.
    eexists. split; [reflexivity | ].
    eexists. split; [reflexivity | ]. cbn [vOf with_v discretization_ StaggeredGrid.v_].
    split.
    + intros i j Hij. cells; apply Hframe; lia.
    + intros Hnx1 j Hj.
      assert (Hk0 : cell fv (-1 + 1) k = cell (vOf c) 0 k)
        by (replace (-1 + 1) with 0 by lia; apply Hframe; lia).
      assert (Hk1 : cell fv (nx + 1 - 2) k = cell (vOf c) (nx - 1) k)
        by (replace (nx + 1 - 2) with (nx - 1) by lia; apply Hframe; lia).
      split; cells; subst; rewrite ?Hk0, ?Hk1; try reflexivity; apply Hval; lia.
  - exists fv. auto.
Qed.

(** Bottom and top of [f], lines 207-214. *)
Lemma f_bottom_top_loop :
  exists fx,
    for_each (-1) (nx) (fun k =>
      r <- u k (-1) ;;
      set_f k (-1) r ;;
      r <- u k (ny + 1 - 1) ;;
      set_f k (ny + 1 - 1) r) c
    = Returns (tt, with_f c fx) /\
    (forall i j, ~ (-1 <= i < nx /\ (j = -1 \/ j = ny)) ->
       cell fx i j = cell (fOf c) i j) /\
    (forall k, -1 <= k < nx ->
       cell fx k (-1) = cell (uOf c) k (-1) /\
       cell fx k ny = cell (uOf c) k ny).
Proof.
  destruct (for_each_inv
    (fun n c1 => exists fx, c1 = with_f c fx /\
       (forall i j, ~ (-1 <= i < n /\ (j = -1 \/ j = ny)) ->
          cell fx i j = cell (fOf c) i j) /\
       (forall k, -1 <= k < n ->
          cell fx k (-1) = cell (uOf c) k (-1) /\
       cell fx k ny = cell (uOf c) k ny))
    (fun k =>
      r <- u k (-1) ;;
      set_f k (-1) r ;;
      r <- u k (ny + 1 - 1) ;;
      set_f k (ny + 1 - 1) r) (-1) (nx) c)
    as (c' & Hrun & fx & -> & Hframe & Hval).
  - lia.
  - exists (fOf c). split; [now destruct c as [s [] mw d] | ].
    split; [reflexivity | intros; lia].
  - intros n c1 Hn (fx & -> & Hframe & Hval).
    access u_in Hcells. access set_f_in Hcells.
    access u_in Hcells. access set_f_in Hcells.
    eexists. split; [reflexivity | ].
    eexists. split; [reflexivity | ].
    cbn [uOf vOf fOf gOf with_f with_g discretization_
         StaggeredGrid.u_ StaggeredGrid.v_ StaggeredGrid.f_ StaggeredGrid.g_].
    split.
    + intros i j Hij. cells; apply Hframe; lia.
    + intros k Hk. split; cells; subst; try reflexivity;
        try (f_equal; lia); apply Hval; lia.
  - exists fx. auto.
Qed.

(** Bottom and top of [g], lines 216-223. *)
Lemma g_bottom_top_loop :
  exists fx,
    for_each (-1) (nx + 1) (fun k =>
      r <- v k (-1) ;;
      set_g k (-1) r ;;
      r <- v k (ny - 1) ;;
      set_g k (ny - 1) r) c
    = Returns (tt, with_g c fx) /\
    (forall i j, ~ (-1 <= i < nx + 1 /\ (j = -1 \/ j = ny - 1)) ->
       cell fx i j = cell (gOf c) i j) /\
    (forall k, -1 <= k < nx + 1 ->
       cell fx k (-1) = cell (vOf c) k (-1) /\
       cell fx k (ny - 1) = cell (vOf c) k (ny - 1)).
Proof.
  destruct (for_each_inv
    (fun n c1 => exists fx, c1 = with_g c fx /\
       (forall i j, ~ (-1 <= i < n /\ (j = -1 \/ j = ny - 1)) ->
          cell fx i j = cell (gOf c) i j) /\
       (forall k, -1 <= k < n ->
          cell fx k (-1) = cell (vOf c) k (-1) /\
       cell fx k (ny - 1) = cell (vOf c) k (ny - 1)))
    (fun k =>
      r <- v k (-1) ;;
      set_g k (-1) r ;;
      r <- v k (ny - 1) ;;
      set_g k (ny - 1) r) (-1) (nx + 1) c)
    as (c' & Hrun & fx & -> & Hframe & Hval).
  - lia.
  - exists (gOf c). split; [now destruct c as [s [] mw d] | ].
    split; [reflexivity | intros; lia].
  - intros n c1 Hn (fx & -> & Hframe & Hval).
    access v_in Hcells. access set_g_in Hcells.
    access v_in Hcells. access set_g_in Hcells.
    eexists. split; [reflexivity | ].
    eexists. split; [reflexivity | ].
    cbn [uOf vOf fOf gOf with_f with_g discretization_
         StaggeredGrid.u_ StaggeredGrid.v_ StaggeredGrid.f_ StaggeredGrid.g_].
    split.
    + intros i j Hij. cells; apply Hframe; lia.
    + intros k Hk. split; cells; subst; try reflexivity;
        try (f_equal; lia); apply Hval; lia.
  - exists fx. auto.
Qed.

(** The sides of [f], lines 228-235. *)
Lemma f_sides_loop :
  exists fx,
    for_each (-1) (ny + 1) (fun k =>
      r <- u (-1) k ;;
      set_f (-1) k r ;;
      r <- u (nx - 1) k ;;
      set_f (nx - 1) k r) c
    = Returns (tt, with_f c fx) /\
    (forall i j, ~ (-1 <= j < ny + 1 /\ (i = -1 \/ i = nx - 1)) ->
       cell fx i j = cell (fOf c) i j) /\
    (forall k, -1 <= k < ny + 1 ->
       cell fx (-1) k = cell (uOf c) (-1) k /\
       cell fx (nx - 1) k = cell (uOf c) (nx - 1) k).
Proof.
  destruct (for_each_inv
    (fun n c1 => exists fx, c1 = with_f c fx /\
       (forall i j, ~ (-1 <= j < n /\ (i = -1 \/ i = nx - 1)) ->
          cell fx i j = cell (fOf c) i j) /\
       (forall k, -1 <= k < n ->
          cell fx (-1) k = cell (uOf c) (-1) k /\
       cell fx (nx - 1) k = cell (uOf c) (nx - 1) k))
    (fun k =>
      r <- u (-1) k ;;
      set_f (-1) k r ;;
      r <- u (nx - 1) k ;;
      set_f (nx - 1) k r) (-1) (ny + 1) c)
    as (c' & Hrun & fx & -> & Hframe & Hval).
  - lia.
  - exists (fOf c). split; [now destruct c as [s [] mw d] | ].
    split; [reflexivity | intros; lia].
  - intros n c1 Hn (fx & -> & Hframe & Hval).
    access u_in Hcells. access set_f_in Hcells.
    access u_in Hcells. access set_f_in Hcells.
    eexists. split; [reflexivity | ].
    eexists. split; [reflexivity | ].
    cbn [uOf vOf fOf gOf with_f with_g discretization_
         StaggeredGrid.u_ StaggeredGrid.v_ StaggeredGrid.f_ StaggeredGrid.g_].
    split.
    + intros i j Hij. cells; apply Hframe; lia.
    + intros k Hk. split; cells; subst; try reflexivity;
        try (f_equal; lia); apply Hval; lia.
  - exists fx. auto.
Qed.

(** The sides of [g], lines 237-244. *)
Lemma g_sides_loop :
  exists fx,
    for_each (-1) (ny) (fun k =>
      r <- v (-1) k ;;
      set_g (-1) k r ;;
      r <- v (nx + 1 - 1) k ;;
      set_g (nx + 1 - 1) k r) c
    = Returns (tt, with_g c fx) /\
    (forall i j, ~ (-1 <= j < ny /\ (i = -1 \/ i = nx)) ->
       cell fx i j = cell (gOf c) i j) /\
    (forall k, -1 <= k < ny ->
       cell fx (-1) k = cell (vOf c) (-1) k /\
       cell fx nx k = cell (vOf c) nx k).
Proof.
  destruct (for_each_inv
    (fun n c1 => exists fx, c1 = with_g c fx /\
       (forall i j, ~ (-1 <= j < n /\ (i = -1 \/ i = nx)) ->
          cell fx i j = cell (gOf c) i j) /\
       (forall k, -1 <= k < n ->
          cell fx (-1) k = cell (vOf c) (-1) k /\
       cell fx nx k = cell (vOf c) nx k))
    (fun k =>
      r <- v (-1) k ;;
      set_g (-1) k r ;;
      r <- v (nx + 1 - 1) k ;;
      set_g (nx + 1 - 1) k r) (-1) (ny) c)
    as (c' & Hrun & fx & -> & Hframe & Hval).
  - lia.
  - exists (gOf c). split; [now destruct c as [s [] mw d] | ].
    split; [reflexivity | intros; lia].
  - intros n c1 Hn (fx & -> & Hframe & Hval).
    access v_in Hcells. access set_g_in Hcells.
    access v_in Hcells. access set_g_in Hcells.
    eexists. split; [reflexivity | ].
    eexists. split; [reflexivity | ].
    cbn [uOf vOf fOf gOf with_f with_g discretization_
         StaggeredGrid.u_ StaggeredGrid.v_ StaggeredGrid.f_ StaggeredGrid.g_].
    split.
    + intros i j Hij. cells; apply Hframe; lia.
    + intros k Hk. split; cells; subst; try reflexivity;
        try (f_equal; lia); apply Hval; lia.
  - exists fx. auto.
Qed.

End BoundaryLoops.

(** What [applyBoundaryValues] leaves in the four fields it assigns. *)
Lemma applyBoundaryValues_spec (c : Computation.t) (nx ny : Z) :
  cellsOf c = (nx, ny) -> 0 <= nx -> 0 <= ny ->
  let s := Computation.settings_ c in
  exists fu fv ff fg,
    Computation.applyBoundaryValues c
    = Returns (tt, with_g (with_f (with_v (with_u c fu) fv) ff) fg) /\
    (* u *)
    (forall i j, ~ uEdge nx ny i j -> cell fu i j = cell (uOf c) i j) /\
    (forall j, -1 <= j < ny + 1 ->
       cell fu (nx - 1) j = fst (Settings.dirichletBcRight s) /\
       (1 <= nx -> cell fu (-1) j = fst (Settings.dirichletBcLeft s))) /\
    (1 <= ny -> forall i, 0 <= i < nx - 1 ->
       cell fu i (-1) = (2 * fst (Settings.dirichletBcBottom s) - cell (uOf c) i 0)%float /\
       cell fu i ny = (2 * fst (Settings.dirichletBcTop s) - cell (uOf c) i (ny - 1))%float) /\
    (* v *)
    (forall i j, ~ vEdge nx ny i j -> cell fv i j = cell (vOf c) i j) /\
    (forall i, 0 <= i < nx ->
       cell fv i (ny - 1) = snd (Settings.dirichletBcTop s) /\
       (1 <= ny -> cell fv i (-1) = snd (Settings.dirichletBcBottom s))) /\
    (1 <= nx ->
       cell fv (-1) (ny - 1)
       = (2 * snd (Settings.dirichletBcLeft s) - snd (Settings.dirichletBcTop s))%float /\
       cell fv nx (ny - 1)
       = (2 * snd (Settings.dirichletBcRight s) - snd (Settings.dirichletBcTop s))%float) /\
    (1 <= nx -> 1 <= ny ->
       cell fv (-1) (-1)
       = (2 * snd (Settings.dirichletBcLeft s) - snd (Settings.dirichletBcBottom s))%float /\
       cell fv nx (-1)
       = (2 * snd (Settings.dirichletBcRight s) - snd (Settings.dirichletBcBottom s))%float) /\
    (1 <= nx -> forall j, 0 <= j < ny - 1 ->
       cell fv (-1) j = (2 * snd (Settings.dirichletBcLeft s) - cell (vOf c) 0 j)%float /\
       cell fv nx j = (2 * snd (Settings.dirichletBcRight s) - cell (vOf c) (nx - 1) j)%float) /\
    (* f and g *)
    (forall i j, ~ uEdge nx ny i j -> cell ff i j = cell (fOf c) i j) /\
    (forall i j, uEdge nx ny i j -> cell ff i j = cell fu i j) /\
    (forall i j, ~ vEdge nx ny i j -> cell fg i j = cell (gOf c) i j) /\
    (forall i j, vEdge nx ny i j -> cell fg i j = cell fv i j).
Proof.
  intros Hcells Hnx Hny s.
  unfold Computation.applyBoundaryValues.
  rewrite bind_settings. cbv beta. rewrite bind_discretization. cbv beta zeta.
  unfold StaggeredGrid.uIBegin, StaggeredGrid.uIEnd, StaggeredGrid.uJBegin,
    StaggeredGrid.uJEnd, StaggeredGrid.vIBegin, StaggeredGrid.vIEnd,
    StaggeredGrid.vJBegin, StaggeredGrid.vJEnd.
  change (StaggeredGrid.nCells_ (Computation.discretization_ c)) with (cellsOf c).
  rewrite Hcells. cbn [fst snd]. fold s.
  destruct (u_bottom_top_loop c nx ny Hcells Hnx Hny
              (fst (Settings.dirichletBcBottom s)) (fst (Settings.dirichletBcTop s)))
    as (u1 & Hrun1 & Hu1f & Hu1v).
  rewrite (bind_run _ _ _ _ _ Hrun1). clear Hrun1.
  destruct (v_bottom_top_loop (with_u c u1) nx ny Hcells Hnx Hny
              (snd (Settings.dirichletBcBottom s)) (snd (Settings.dirichletBcTop s)))
    as (v1 & Hrun2 & Hv1f & Hv1v).
  rewrite (bind_run _ _ _ _ _ Hrun2). clear Hrun2.
  destruct (u_sides_loop (with_v (with_u c u1) v1) nx ny Hcells Hnx Hny
              (fst (Settings.dirichletBcLeft s)) (fst (Settings.dirichletBcRight s)))
    as (u2 & Hrun3 & Hu2f & Hu2v).
  rewrite (bind_run _ _ _ _ _ Hrun3). clear Hrun3.
  destruct (v_sides_loop (with_u (with_v (with_u c u1) v1) u2) nx ny Hcells Hnx Hny
              (snd (Settings.dirichletBcLeft s)) (snd (Settings.dirichletBcRight s)))
    as (v2 & Hrun4 & Hv2f & Hv2v).
  rewrite (bind_run _ _ _ _ _ Hrun4). clear Hrun4.
  match goal with |- context [Computation.bind _ _ ?c4] => set (c4' := c4) end.
  destruct (f_bottom_top_loop c4' nx ny Hcells Hnx Hny) as (f1 & Hrun5 & Hf1f & Hf1v).
  rewrite (bind_run _ _ _ _ _ Hrun5). clear Hrun5.
  destruct (g_bottom_top_loop (with_f c4' f1) nx ny Hcells Hnx Hny)
    as (g1 & Hrun6 & Hg1f & Hg1v).
  rewrite (bind_run _ _ _ _ _ Hrun6). clear Hrun6.
  destruct (f_sides_loop (with_g (with_f c4' f1) g1) nx ny Hcells Hnx Hny)
    as (f2 & Hrun7 & Hf2f & Hf2v).
  rewrite (bind_run _ _ _ _ _ Hrun7). clear Hrun7.
  destruct (g_sides_loop (with_f (with_g (with_f c4' f1) g1) f2) nx ny Hcells Hnx Hny)
    as (g2 & Hrun8 & Hg2f & Hg2v).
  rewrite Hrun8. clear Hrun8.
  subst c4'.
  cbn [uOf vOf fOf gOf with_u with_v with_f with_g Computation.discretization_
       StaggeredGrid.u_ StaggeredGrid.v_ StaggeredGrid.f_ StaggeredGrid.g_] in *.
  exists u2, v2, f2, g2.
  split; [reflexivity | ].
  unfold uEdge, vEdge, uRange, vRange.
  repeat apply conj.
  - intros i j Hij. rewrite Hu2f by lia. apply Hu1f. lia.
  - exact Hu2v.
  - intros Hny1 i Hi. rewrite !Hu2f by lia. apply Hu1v; lia.
  - intros i j Hij. rewrite Hv2f by lia. apply Hv1f. lia.
  - intros i Hi. rewrite !Hv2f by lia. apply Hv1v. lia.
  - intros Hnx1. destruct (Hv2v Hnx1 (ny - 1)) as [Hl Hr].
    + (* the top row exists only when ny >= 1; for ny = 0 it is row -1 *) lia.
    + rewrite Hl, Hr.
      rewrite (proj1 (Hv1v 0 ltac:(lia))), (proj1 (Hv1v (nx - 1) ltac:(lia))).
      split; reflexivity.
  - intros Hnx1 Hny1. destruct (Hv2v Hnx1 (-1)) as [Hl Hr]; [lia | ].
    rewrite Hl, Hr.
    rewrite (proj2 (Hv1v 0 ltac:(lia)) Hny1), (proj2 (Hv1v (nx - 1) ltac:(lia)) Hny1).
    split; reflexivity.
  - intros Hnx1 j Hj. destruct (Hv2v Hnx1 j) as [Hl Hr]; [lia | ].
    rewrite Hl, Hr, !Hv1f by lia. split; reflexivity.
  - intros i j Hij. rewrite Hf2f by lia. apply Hf1f. lia.
  - intros i j [[Hi Hj] Hedge].
    destruct (Z.eq_dec i (-1)) as [-> | Hil]; [apply Hf2v; lia | ].
    destruct (Z.eq_dec i (nx - 1)) as [-> | Hir]; [apply Hf2v; lia | ].
    rewrite Hf2f by lia.
    destruct (Z.eq_dec j (-1)) as [-> | Hjb]; [apply Hf1v; lia | ].
    assert (j = ny) as -> by lia. apply Hf1v; lia.
  - intros i j Hij. rewrite Hg2f by lia. apply Hg1f. lia.
  - intros i j [[Hi Hj] Hedge].
    destruct (Z.eq_dec i (-1)) as [-> | Hil]; [apply Hg2v; lia | ].
    destruct (Z.eq_dec i nx) as [-> | Hir]; [apply Hg2v; lia | ].
    rewrite Hg2f by lia.
    destruct (Z.eq_dec j (-1)) as [-> | Hjb]; [apply Hg1v; lia | ].
    assert (j = ny - 1) as -> by lia. apply Hg1v; lia.
Qed.

(** C5.  On a grid with at least one cell in each direction, after
    [applyBoundaryValues] every corner cell of [u] and of [v] holds the value
    of the side (left/right) rule, whatever the bottom/top rule wrote there
    before: for [u] the Dirichlet value of that side, for [v] the mirrored
    value [2 * side - neighbour], whose neighbour is the bottom or top value
    just set. *)
Theorem corners_hold_side_values (c : Computation.t) (nx ny : Z) :
  cellsOf c = (nx, ny) -> 1 <= nx -> 1 <= ny ->
  let s := Computation.settings_ c in
  let left := Settings.dirichletBcLeft s in
  let right := Settings.dirichletBcRight s in
  let bottom := Settings.dirichletBcBottom s in
  let top := Settings.dirichletBcTop s in
  exists c',
    Computation.applyBoundaryValues c = Returns (tt, c') /\
    (cell (uOf c') (-1) (-1) = fst left /\
     cell (uOf c') (-1) ny = fst left /\
     cell (uOf c') (nx - 1) (-1) = fst right /\
     cell (uOf c') (nx - 1) ny = fst right) /\
    (cell (vOf c') (-1) (-1) = (2 * snd left - cell (vOf c') 0 (-1))%float /\
     cell (vOf c') (-1) (ny - 1) = (2 * snd left - cell (vOf c') 0 (ny - 1))%float /\
     cell (vOf c') nx (-1) = (2 * snd right - cell (vOf c') (nx - 1) (-1))%float /\
     cell (vOf c') nx (ny - 1) = (2 * snd right - cell (vOf c') (nx - 1) (ny - 1))%float) /\
    (cell (vOf c') (-1) (-1) = (2 * snd left - snd bottom)%float /\
     cell (vOf c') (-1) (ny - 1) = (2 * snd left - snd top)%float /\
     cell (vOf c') nx (-1) = (2 * snd right - snd bottom)%float /\
     cell (vOf c') nx (ny - 1) = (2 * snd right - snd top)%float).
Proof.
  intros Hcells Hnx Hny s left right bottom top.
  destruct (applyBoundaryValues_spec c nx ny Hcells ltac:(lia) ltac:(lia))
    as (fu & fv & ff & fg & Hrun & _ & Hus & _ & _ & Hvbt & Hvtop & Hvbottom & _).
  fold s in Hus, Hvbt, Hvtop, Hvbottom.
  eexists. split; [exact Hrun | ].
  cbn [uOf vOf with_u with_v with_f with_g Computation.discretization_
       StaggeredGrid.u_ StaggeredGrid.v_].
  destruct (Hus (-1)) as [Hr0 Hl0]; [lia | ].
  destruct (Hus ny) as [Hr1 Hl1]; [lia | ].
  destruct (Hvtop Hnx) as [Hlt Hrt].
  destruct (Hvbottom Hnx Hny) as [Hlb Hrb].
  destruct (Hvbt 0) as [Ht0 Hb0]; [lia | ].
  destruct (Hvbt (nx - 1)) as [Ht1 Hb1]; [lia | ].
  split; [auto | ].
  split; [ | auto].
  rewrite Ht0, Ht1, (Hb0 Hny), (Hb1 Hny). auto.
Qed.


(** C10.  [applyBoundaryValues] returns, leaves [p] and [rhs] as they were,
    and assigns only edge cells of [u], [v], [f] and [g]: every other cell of
    these four fields, in particular every strict interior cell, keeps its
    value.  The settings, the mesh widths, the step width and the cell counts
    are untouched as well. *)
Theorem applyBoundaryValues_frame (c : Computation.t) (nx ny : Z) :
  cellsOf c = (nx, ny) -> 0 <= nx -> 0 <= ny ->
  exists c',
    Computation.applyBoundaryValues c = Returns (tt, c') /\
    pOf c' = pOf c /\ rhsOf c' = rhsOf c /\
    (forall i j, ~ uEdge nx ny i j -> cell (uOf c') i j = cell (uOf c) i j) /\
    (forall i j, ~ vEdge nx ny i j -> cell (vOf c') i j = cell (vOf c) i j) /\
    (forall i j, ~ uEdge nx ny i j -> cell (fOf c') i j = cell (fOf c) i j) /\
    (forall i j, ~ vEdge nx ny i j -> cell (gOf c') i j = cell (gOf c) i j) /\
    cellsOf c' = cellsOf c /\
    Computation.settings_ c' = Computation.settings_ c /\
    Computation.meshWidth_ c' = Computation.meshWidth_ c /\
    Computation.dt_ c' = Computation.dt_ c.
Proof.
  intros Hcells Hnx Hny.
  destruct (applyBoundaryValues_spec c nx ny Hcells Hnx Hny)
    as (fu & fv & ff & fg & Hrun & H). decompose [and] H. clear H.
  eexists. split; [exact Hrun | ].
  cbn [uOf vOf fOf gOf with_u with_v with_f with_g Computation.discretization_
       StaggeredGrid.u_ StaggeredGrid.v_ StaggeredGrid.f_ StaggeredGrid.g_].
  repeat apply conj; try assumption; reflexivity.
Qed.

Lemma corners_hold_side_values_witness :
  (cellsOf fourWalls = (3, 2) /\ 1 <= 3 /\ 1 <= 2) /\
  exists c',
    Computation.applyBoundaryValues fourWalls = Returns (tt, c') /\
    (cell (uOf c') (-1) (-1) = 5%float /\ cell (uOf c') (-1) 2 = 5%float /\
     cell (uOf c') (3 - 1) (-1) = 7%float /\ cell (uOf c') (3 - 1) 2 = 7%float) /\
    (cell (vOf c') (-1) (-1) = (2 * 6 - 2)%float /\
     cell (vOf c') (-1) (2 - 1) = (2 * 6 - 4)%float /\
     cell (vOf c') 3 (-1) = (2 * 8 - 2)%float /\
     cell (vOf c') 3 (2 - 1) = (2 * 8 - 4)%float).
Proof.
  split; [split; [reflexivity | lia] | ].
  destruct (corners_hold_side_values fourWalls 3 2 eq_refl ltac:(lia) ltac:(lia))
    as (c' & Hrun & Hu & _ & Hv).
  exists c'. split; [exact Hrun | ]. split; [exact Hu | exact Hv].
Defined.


Lemma applyBoundaryValues_frame_witness :
  (cellsOf fourWalls = (3, 2) /\ 0 <= 3 /\ 0 <= 2) /\
  exists c',
    Computation.applyBoundaryValues fourWalls = Returns (tt, c') /\
    pOf c' = pOf fourWalls /\ rhsOf c' = rhsOf fourWalls /\
    (forall i j, ~ uEdge 3 2 i j -> cell (uOf c') i j = cell (uOf fourWalls) i j) /\
    (forall i j, ~ vEdge 3 2 i j -> cell (vOf c') i j = cell (vOf fourWalls) i j).
Proof.
  split; [split; [reflexivity | lia] | ].
  destruct (applyBoundaryValues_frame fourWalls 3 2 eq_refl ltac:(lia) ltac:(lia))
    as (c' & Hrun & Hp & Hrhs & Hu & Hv & _).
  exists c'. repeat (split; [assumption | ]). assumption.
Defined.

(** With a different velocity on each wall: the bottom-left corners hold the
    values of the left rule (5 for [u], [2 * 6 - 2] for [v]), their
    neighbours on the bottom edge the values of the bottom rule. *)
Example side_rule_overrides_bottom_rule :
  match Computation.applyBoundaryValues fourWalls with
  | Returns (_, c') =>
      cell (uOf c') (-1) (-1) = 5%float /\
      cell (uOf c') 0 (-1) = (2 * 1 - 0)%float /\
      cell (vOf c') (-1) (-1) = 10%float /\
      cell (vOf c') 0 (-1) = 2%float
  | Terminated _ => False
  end.
Proof. vm_compute. repeat split; reflexivity. Qed.

(** ** [computePreliminaryVelocities] *)

Section Preliminary.
Import Computation.
Local Open Scope comp_scope.
Variable scheme : Discretization.
Hypothesis Hscheme : wellBehaved scheme.
Variables (c : Computation.t) (nx ny : Z).
Hypothesis Hcells : cellsOf c = (nx, ny).

(** The operators see the same velocities whatever [f_] and [g_] hold. *)
Lemma preliminaryF_frame (ff fg : FieldVariable) (x : float) (i j : Z) :
  preliminaryF scheme (settings_ c) (dt_ c) (discretization_ (with_g (with_f c ff) fg)) x i j
  = preliminaryF scheme (settings_ c) (dt_ c) (discretization_ c) x i j.
Proof.
  destruct Hscheme as (H1 & H2 & H3 & H4 & _).
  unfold preliminaryF.
  rewrite (H1 _ (discretization_ c)), (H2 _ (discretization_ c)),
    (H3 _ (discretization_ c)), (H4 _ (discretization_ c)); reflexivity.
Qed.

Lemma preliminaryG_frame (ff fg : FieldVariable) (x : float) (i j : Z) :
  preliminaryG scheme (settings_ c) (dt_ c) (discretization_ (with_g (with_f c ff) fg)) x i j
  = preliminaryG scheme (settings_ c) (dt_ c) (discretization_ c) x i j.
Proof.
  destruct Hscheme as (_ & _ & _ & _ & H5 & H6 & H7 & H8).
  unfold preliminaryG.
  rewrite (H5 _ (discretization_ c)), (H6 _ (discretization_ c)),
    (H7 _ (discretization_ c)), (H8 _ (discretization_ c)); reflexivity.
Qed.

(** One row of the loop for [f], lines 252-258. *)
Lemma preliminaryF_row (j : Z) (ff : FieldVariable) :
  0 <= j < ny ->
  exists ff',
    for_each (-1 + 1) (nx - 1) (fun i =>
      d <- discretization ;;
      dt_ <- dt ;;
      uij <- u i j ;;
      set_f i j (preliminaryF scheme (settings_ c) dt_ d uij i j)) (with_f c ff)
    = Returns (tt, with_f c ff') /\
    (forall i' j', ~ (j' = j /\ 0 <= i' < nx - 1) -> cell ff' i' j' = cell ff i' j') /\
    (forall i, 0 <= i < nx - 1 ->
       cell ff' i j
       = preliminaryF scheme (settings_ c) (dt_ c) (discretization_ c) (cell (uOf c) i j) i j).
Proof.
  intros Hj.
  destruct (for_each_inv_max
    (fun k c1 => exists ff', c1 = with_f c ff' /\
       (forall i' j', ~ (j' = j /\ 0 <= i' < k) -> cell ff' i' j' = cell ff i' j') /\
       (forall i, 0 <= i < k ->
          cell ff' i j
          = preliminaryF scheme (settings_ c) (dt_ c) (discretization_ c) (cell (uOf c) i j) i j))
    (fun i =>
      d <- discretization ;;
      dt_ <- dt ;;
      uij <- u i j ;;
      set_f i j (preliminaryF scheme (settings_ c) dt_ d uij i j)) (-1 + 1) (nx - 1) (with_f c ff))
    as (c' & Hrun & ff' & -> & Hframe & Hval).
  - exists ff. split; [reflexivity | ]. split; [reflexivity | intros; lia].
  - intros k c1 Hk (ff' & -> & Hframe & Hval).
    rewrite bind_discretization. cbv beta. rewrite bind_dt. cbv beta.
    access u_in Hcells. access set_f_in Hcells.
    eexists. split; [reflexivity | ].
    eexists. split; [reflexivity | ].
    cbn [uOf fOf with_f discretization_ dt_ StaggeredGrid.u_ StaggeredGrid.f_].
    split.
    + intros i' j' Hij. cells; apply Hframe; lia.
    + intros i Hi. cells; subst.
      * apply (preliminaryF_frame ff' (gOf c)).
      * apply Hval. lia.
  - exists ff'. split; [exact Hrun | ]. split.
    + intros i' j' Hij. apply Hframe. lia.
    + intros i Hi. apply Hval. lia.
Qed.

(** The loop for [f], lines 250-259. *)
Lemma preliminaryF_loop :
  exists ff,
    for_each (-1 + 1) (ny + 1 - 1) (fun j =>
      for_each (-1 + 1) (nx - 1) (fun i =>
        d <- discretization ;;
        dt_ <- dt ;;
        uij <- u i j ;;
        set_f i j (preliminaryF scheme (settings_ c) dt_ d uij i j))) c
    = Returns (tt, with_f c ff) /\
    (forall i j, ~ (0 <= i < nx - 1 /\ 0 <= j < ny) -> cell ff i j = cell (fOf c) i j) /\
    (forall i j, 0 <= i < nx - 1 -> 0 <= j < ny ->
       cell ff i j
       = preliminaryF scheme (settings_ c) (dt_ c) (discretization_ c) (cell (uOf c) i j) i j).
Proof.
  destruct (for_each_inv_max
    (fun k c1 => exists ff, c1 = with_f c ff /\
       (forall i j, ~ (0 <= i < nx - 1 /\ 0 <= j < k) -> cell ff i j = cell (fOf c) i j) /\
       (forall i j, 0 <= i < nx - 1 -> 0 <= j < k ->
          cell ff i j
          = preliminaryF scheme (settings_ c) (dt_ c) (discretization_ c) (cell (uOf c) i j) i j))
    (fun j =>
      for_each (-1 + 1) (nx - 1) (fun i =>
        d <- discretization ;;
        dt_ <- dt ;;
        uij <- u i j ;;
        set_f i j (preliminaryF scheme (settings_ c) dt_ d uij i j))) (-1 + 1) (ny + 1 - 1) c)
    as (c' & Hrun & ff & -> & Hframe & Hval).
  - exists (fOf c). split; [now destruct c as [s0 [] mw d] | ].
    split; [reflexivity | intros; lia].
  - intros k c1 Hk (ff & -> & Hframe & Hval).
    destruct (preliminaryF_row k ff ltac:(lia)) as (ff' & Hrow & Hrf & Hrv).
    exists (with_f c ff'). split; [exact Hrow | ].
    exists ff'. split; [reflexivity | ]. split.
    + intros i j Hij. rewrite Hrf by lia. apply Hframe. lia.
    + intros i j Hi Hj. destruct (Z.eq_dec j k) as [-> | Hjk].
      * apply Hrv. lia.
      * rewrite Hrf by lia. apply Hval; lia.
  - exists ff. split; [exact Hrun | ]. split.
    + intros i j Hij. apply Hframe. lia.
    + intros i j Hi Hj. apply Hval; lia.
Qed.

(** One row of the loop for [g], lines 264-270, after [f] has been assigned. *)
Lemma preliminaryG_row (j : Z) (ff fg : FieldVariable) :
  0 <= j < ny - 1 ->
  exists fg',
    for_each (-1 + 1) (nx + 1 - 1) (fun i =>
      d <- discretization ;;
      dt_ <- dt ;;
      vij <- v i j ;;
      set_g i j (preliminaryG scheme (settings_ c) dt_ d vij i j)) (with_g (with_f c ff) fg)
    = Returns (tt, with_g (with_f c ff) fg') /\
    (forall i' j', ~ (j' = j /\ 0 <= i' < nx) -> cell fg' i' j' = cell fg i' j') /\
    (forall i, 0 <= i < nx ->
       cell fg' i j
       = preliminaryG scheme (settings_ c) (dt_ c) (discretization_ c) (cell (vOf c) i j) i j).
Proof.
  intros Hj.
  destruct (for_each_inv_max
    (fun k c1 => exists fg', c1 = with_g (with_f c ff) fg' /\
       (forall i' j', ~ (j' = j /\ 0 <= i' < k) -> cell fg' i' j' = cell fg i' j') /\
       (forall i, 0 <= i < k ->
          cell fg' i j
          = preliminaryG scheme (settings_ c) (dt_ c) (discretization_ c) (cell (vOf c) i j) i j))
    (fun i =>
      d <- discretization ;;
      dt_ <- dt ;;
      vij <- v i j ;;
      set_g i j (preliminaryG scheme (settings_ c) dt_ d vij i j))
    (-1 + 1) (nx + 1 - 1) (with_g (with_f c ff) fg))
    as (c' & Hrun & fg' & -> & Hframe & Hval).
  - exists fg. split; [reflexivity | ]. split; [reflexivity | intros; lia].
  - intros k c1 Hk (fg' & -> & Hframe & Hval).
    rewrite bind_discretization. cbv beta. rewrite bind_dt. cbv beta.
    access v_in Hcells. access set_g_in Hcells.
    eexists. split; [reflexivity | ].
    eexists. split; [reflexivity | ].
    cbn [vOf gOf with_f with_g discretization_ dt_ StaggeredGrid.v_ StaggeredGrid.g_].
    split.
    + intros i' j' Hij. cells; apply Hframe; lia.
    + intros i Hi. cells; subst.
      * apply (preliminaryG_frame ff fg').
      * apply Hval. lia.
  - exists fg'. split; [exact Hrun | ]. split.
    + intros i' j' Hij. apply Hframe. lia.
    + intros i Hi. apply Hval. lia.
Qed.

(** The loop for [g], lines 262-271. *)
Lemma preliminaryG_loop (ff : FieldVariable) :
  exists fg,
    for_each (-1 + 1) (ny - 1) (fun j =>
      for_each (-1 + 1) (nx + 1 - 1) (fun i =>
        d <- discretization ;;
        dt_ <- dt ;;
        vij <- v i j ;;
        set_g i j (preliminaryG scheme (settings_ c) dt_ d vij i j))) (with_f c ff)
    = Returns (tt, with_g (with_f c ff) fg) /\
    (forall i j, ~ (0 <= i < nx /\ 0 <= j < ny - 1) -> cell fg i j = cell (gOf c) i j) /\
    (forall i j, 0 <= i < nx -> 0 <= j < ny - 1 ->
       cell fg i j
       = preliminaryG scheme (settings_ c) (dt_ c) (discretization_ c) (cell (vOf c) i j) i j).
Proof.
  destruct (for_each_inv_max
    (fun k c1 => exists fg, c1 = with_g (with_f c ff) fg /\
       (forall i j, ~ (0 <= i < nx /\ 0 <= j < k) -> cell fg i j = cell (gOf c) i j) /\
       (forall i j, 0 <= i < nx -> 0 <= j < k ->
          cell fg i j
          = preliminaryG scheme (settings_ c) (dt_ c) (discretization_ c) (cell (vOf c) i j) i j))
    (fun j =>
      for_each (-1 + 1) (nx + 1 - 1) (fun i =>
        d <- discretization ;;
        dt_ <- dt ;;
        vij <- v i j ;;
        set_g i j (preliminaryG scheme (settings_ c) dt_ d vij i j)))
    (-1 + 1) (ny - 1) (with_f c ff))
    as (c' & Hrun & fg & -> & Hframe & Hval).
  - exists (gOf c). split; [now destruct c as [s0 [] mw d] | ].
    split; [reflexivity | intros; lia].
  - intros k c1 Hk (fg & -> & Hframe & Hval).
    destruct (preliminaryG_row k ff fg ltac:(lia)) as (fg' & Hrow & Hrf & Hrv).
    eexists. split; [exact Hrow | ].
    exists fg'. split; [reflexivity | ]. split.
    + intros i j Hij. rewrite Hrf by lia. apply Hframe. lia.
    + intros i j Hi Hj. destruct (Z.eq_dec j k) as [-> | Hjk].
      * apply Hrv. lia.
      * rewrite Hrf by lia. apply Hval; lia.
  - exists fg. split; [exact Hrun | ]. split.
    + intros i j Hij. apply Hframe. lia.
    + intros i j Hi Hj. apply Hval; lia.
Qed.

End Preliminary.

(** C7.  [computePreliminaryVelocities] returns and, for every interior cell
    of [u], stores [f(i,j) = u(i,j) + dt * ((1/re) * (D2uDx2 + D2uDy2) +
    (- Du2Dx - DuvDy) + g_x)], and for every interior cell of [v] the
    analogous value of [g(i,j)] with the body force [g_y]; the convective
    terms enter negated, the derivatives are those of the operator set in use,
    evaluated on the velocities before the call.  No other cell of [f] and [g]
    is assigned, and [u], [v], [p], [rhs] keep their values. *)
Theorem preliminary_velocities (scheme : Discretization) (c : Computation.t) (nx ny : Z) :
  wellBehaved scheme -> cellsOf c = (nx, ny) ->
  let s := Computation.settings_ c in
  let d := Computation.discretization_ c in
  let dt := Computation.dt_ c in
  let re := Settings.re s in
  exists c',
    Computation.computePreliminaryVelocities scheme c = Returns (tt, c') /\
    (forall i j, 0 <= i < nx - 1 -> 0 <= j < ny ->
       cell (fOf c') i j
       = (cell (uOf c) i j
          + dt * ((1 / re) * (computeD2uDx2 scheme d i j + computeD2uDy2 scheme d i j)
                  + (- computeDu2Dx scheme d i j - computeDuvDy scheme d i j)
                  + fst (Settings.g s)))%float) /\
    (forall i j, 0 <= i < nx -> 0 <= j < ny - 1 ->
       cell (gOf c') i j
       = (cell (vOf c) i j
          + dt * ((1 / re) * (computeD2vDx2 scheme d i j + computeD2vDy2 scheme d i j)
                  + (- computeDuvDx scheme d i j - computeDv2Dy scheme d i j)
                  + snd (Settings.g s)))%float) /\
    (forall i j, ~ (0 <= i < nx - 1 /\ 0 <= j < ny) ->
       cell (fOf c') i j = cell (fOf c) i j) /\
    (forall i j, ~ (0 <= i < nx /\ 0 <= j < ny - 1) ->
       cell (gOf c') i j = cell (gOf c) i j) /\
    uOf c' = uOf c /\ vOf c' = vOf c /\ pOf c' = pOf c /\ rhsOf c' = rhsOf c.
Proof.
  intros Hscheme Hcells s d dt re.
  unfold Computation.computePreliminaryVelocities.
  rewrite bind_settings. cbv beta. rewrite bind_discretization. cbv beta.
  unfold StaggeredGrid.uIBegin, StaggeredGrid.uIEnd, StaggeredGrid.uJBegin,
    StaggeredGrid.uJEnd, StaggeredGrid.vIBegin, StaggeredGrid.vIEnd,
    StaggeredGrid.vJBegin, StaggeredGrid.vJEnd.
  change (StaggeredGrid.nCells_ (Computation.discretization_ c)) with (cellsOf c).
  rewrite Hcells. cbn [fst snd].
  destruct (preliminaryF_loop scheme Hscheme c nx ny Hcells) as (ff & HrunF & HFf & HFv).
  rewrite (bind_run _ _ _ _ _ HrunF).
  destruct (preliminaryG_loop scheme Hscheme c nx ny Hcells ff) as (fg & HrunG & HGf & HGv).
  rewrite HrunG.
  eexists. split; [reflexivity | ].
  cbn [uOf vOf pOf rhsOf fOf gOf with_f with_g Computation.discretization_
       StaggeredGrid.u_ StaggeredGrid.v_ StaggeredGrid.p_ StaggeredGrid.rhs_
       StaggeredGrid.f_ StaggeredGrid.g_].
  repeat apply conj; try reflexivity; assumption.
Qed.

(** The central differences read [u], [v], [p] and the mesh widths only. *)
Lemma centralDifferences_wellBehaved : wellBehaved CentralDifferences.scheme.
Proof.
  repeat split; intros sg sg' i j Hu Hv Hp Hm Hn; cbn;
    unfold CentralDifferences.computeD2uDx2, CentralDifferences.computeD2uDy2,
      CentralDifferences.computeDu2Dx, CentralDifferences.computeDuvDy,
      CentralDifferences.computeD2vDx2, CentralDifferences.computeD2vDy2,
      CentralDifferences.computeDuvDx, CentralDifferences.computeDv2Dy,
      CentralDifferences.U, CentralDifferences.V, StaggeredGrid.dx, StaggeredGrid.dy;
    rewrite ?Hu, ?Hv, ?Hm; reflexivity.
Qed.

Lemma preliminary_velocities_witness :
  (wellBehaved CentralDifferences.scheme /\ cellsOf fourWalls = (3, 2)) /\
  exists c',
    Computation.computePreliminaryVelocities CentralDifferences.scheme fourWalls
    = Returns (tt, c') /\
    (forall i j, 0 <= i < 3 - 1 -> 0 <= j < 2 ->
       cell (fOf c') i j
       = (cell (uOf fourWalls) i j
          + 0.125 * ((1 / 100)
                     * (CentralDifferences.computeD2uDx2
                          (Computation.discretization_ fourWalls) i j
                        + CentralDifferences.computeD2uDy2
                            (Computation.discretization_ fourWalls) i j)
                     + (- CentralDifferences.computeDu2Dx
                            (Computation.discretization_ fourWalls) i j
                        - CentralDifferences.computeDuvDy
                            (Computation.discretization_ fourWalls) i j)
                     + 0))%float).
Proof.
  split; [split; [exact centralDifferences_wellBehaved | reflexivity] | ].
  destruct (preliminary_velocities CentralDifferences.scheme fourWalls 3 2
              centralDifferences_wellBehaved eq_refl) as (c' & Hrun & HF & _).
  exists c'. split; [exact Hrun | exact HF].
Defined.

(** ** Comparisons of binary64 numbers *)

Lemma SFcompare_Lt_trans (x y z : spec_float) :
  SFcompare x y = Some Lt -> SFcompare y z = Some Lt -> SFcompare x z = Some Lt.
Proof.
  destruct x as [[] | [] | | [] mx ex], y as [[] | [] | | [] my ey],
    z as [[] | [] | | [] mz ez]; cbn; try discriminate; try reflexivity;
    change (Pos.compare_cont Eq) with Pos.compare;
    destruct (Z.compare_spec ex ey), (Z.compare_spec ey ez), (Z.compare_spec ex ez);
    subst; try lia; try discriminate; try reflexivity;
    destruct (Pos.compare_spec mx my), (Pos.compare_spec my mz),
      (Pos.compare_spec mx mz);
    subst; cbn; try lia; try discriminate; try reflexivity.
Qed.

Lemma SFcompare_irrefl (x : spec_float) : SFcompare x x <> Some Lt.
Proof.
  destruct x as [[] | [] | | [] mx ex]; cbn; try discriminate;
    rewrite Z.compare_refl; change (Pos.compare_cont Eq) with Pos.compare;
    rewrite Pos.compare_refl; discriminate.
Qed.

Lemma ltb_true_iff (a b : float) :
  (a <? b)%float = true <-> SFcompare (Prim2SF a) (Prim2SF b) = Some Lt.
Proof.
  rewrite ltb_spec. unfold SFltb.
  destruct (SFcompare (Prim2SF a) (Prim2SF b)) as [[] | ]; split;
    intros H; try discriminate H; reflexivity.
Qed.

Lemma ltb_trans (a b c : float) :
  (a <? b)%float = true -> (b <? c)%float = true -> (a <? c)%float = true.
Proof. rewrite !ltb_true_iff. apply SFcompare_Lt_trans. Qed.

Lemma ltb_irrefl (a : float) : (a <? a)%float = false.
Proof.
  destruct (a <? a)%float eqn:H; [ | reflexivity].
  apply ltb_true_iff in H. now apply SFcompare_irrefl in H.
Qed.

(** Nothing is above [+infinity]. *)
Lemma infinity_not_below (a : float) : (infinity <? a)%float = false.
Proof.
  rewrite ltb_spec. change (Prim2SF infinity) with (S754_infinity false).
  destruct (Prim2SF a) as [[] | [] | | [] m e]; reflexivity.
Qed.

(** A positive number divided by zero is [+infinity]. *)
Lemma positive_div_zero (a : float) : (0 <? a)%float = true -> (a / 0)%float = infinity.
Proof.
  intros Ha. apply Prim2SF_inj. rewrite div_spec.
  rewrite ltb_spec in Ha. change (Prim2SF 0) with (S754_zero false) in *.
  change (Prim2SF infinity) with (S754_infinity false).
  destruct (Prim2SF a) as [[] | [] | | [] m e]; try discriminate Ha; reflexivity.
Qed.

(** Two positive numbers that compare equal with [==] are the same number. *)
Lemma positive_eqb_eq (a b : float) :
  (0 <? a)%float = true -> (a =? b)%float = true -> a = b.
Proof.
  intros Ha Hab. apply Prim2SF_inj.
  rewrite ltb_spec in Ha. rewrite eqb_spec in Hab.
  change (Prim2SF 0) with (S754_zero false) in Ha.
  unfold SFltb in Ha. unfold SFeqb in Hab.
  destruct (Prim2SF a) as [[] | [] | | [] ma ea], (Prim2SF b) as [[] | [] | | [] mb eb];
    cbn in Ha, Hab; try discriminate; try reflexivity.
  change (Pos.compare_cont Eq) with Pos.compare in Hab.
  destruct (Z.compare_spec ea eb); try discriminate.
  destruct (Pos.compare_spec ma mb); try discriminate.
  subst. reflexivity.
Qed.

(** [std::min] when one of the operands is [+infinity]. *)
Lemma std_min3_infinity_2 (a c : float) : std_min3 a infinity c = std_min a c.
Proof. unfold std_min3, std_min. rewrite infinity_not_below. reflexivity. Qed.

Lemma std_min3_infinity_3 (a b : float) : std_min3 a b infinity = std_min a b.
Proof.
  unfold std_min3, std_min. rewrite infinity_not_below. reflexivity.
Qed.

Lemma std_min_infinity (a : float) : std_min a infinity = a.
Proof. unfold std_min. rewrite infinity_not_below. reflexivity. Qed.

(** One step of a scan keeps every bound and bounds the scanned value. *)
Lemma scan_step_bound (m value w : float) :
  (m <? w)%float = false ->
  (Computation.scan_step m value <? w)%float = false.
Proof.
  intros Hm. unfold Computation.scan_step.
  destruct (m <? abs value)%float eqn:Hlt; [ | exact Hm].
  destruct (abs value <? w)%float eqn:Hw; [ | reflexivity].
  rewrite (ltb_trans _ _ _ Hlt Hw) in Hm. discriminate Hm.
Qed.

Lemma scan_step_self (m value : float) :
  (Computation.scan_step m value <? abs value)%float = false.
Proof.
  unfold Computation.scan_step.
  destruct (m <? abs value)%float eqn:Hlt; [apply ltb_irrefl | exact Hlt].
Qed.

Lemma scan_step_cases (m value : float) :
  Computation.scan_step m value = m \/ Computation.scan_step m value = abs value.
Proof.
  unfold Computation.scan_step. destruct (m <? abs value)%float; auto.
Qed.

(** ** [computeTimeStepWidth] *)

Section Scan.
Import Computation.
Local Open Scope comp_scope.
Variable rd : Z -> Z -> M float.
Variable val : Z -> Z -> float.
Variable c : Computation.t.
Variables iB iE jB jE : Z.
Hypothesis Hrd : forall i j, iB <= i < iE -> jB <= j < jE -> rd i j c = Returns (val i j, c).

Lemma scan_row (j : Z) (a : float) :
  jB <= j < jE ->
  exists a',
    for_ iB iE (fun i m => value <- rd i j ;; ret (scan_step m value)) a c
    = Returns (a', c) /\
    (forall w, (a <? w)%float = false -> (a' <? w)%float = false) /\
    (forall i, iB <= i < iE -> (a' <? abs (val i j))%float = false) /\
    (a' = a \/ exists i, iB <= i < iE /\ a' = abs (val i j)).
Proof.
  intros Hj.
  destruct (for_inv_max
    (fun k a1 c1 => c1 = c /\
       (forall w, (a <? w)%float = false -> (a1 <? w)%float = false) /\
       (forall i, iB <= i < k -> (a1 <? abs (val i j))%float = false) /\
       (a1 = a \/ exists i, iB <= i < k /\ a1 = abs (val i j)))
    (fun i m => value <- rd i j ;; ret (scan_step m value)) iB iE a c)
    as (a' & c' & Hrun & -> & Hmono & Hbound & Hwhere).
  - repeat split; auto. intros; lia.
  - intros k a1 c1 Hk (-> & Hmono & Hbound & Hwhere).
    exists (scan_step a1 (val k j)), c. split.
    + rewrite (bind_run _ _ _ _ _ (Hrd k j Hk Hj)). reflexivity.
    + split; [reflexivity | ]. split; [ | split].
      * intros w Hw. apply scan_step_bound. auto.
      * intros i Hi. destruct (Z.eq_dec i k) as [-> | Hik].
        -- apply scan_step_self.
        -- apply scan_step_bound. apply Hbound. lia.
      * destruct (scan_step_cases a1 (val k j)) as [-> | ->].
        -- destruct Hwhere as [-> | (i & Hi & ->)]; [now left | ].
           right. exists i. split; [lia | reflexivity].
        -- right. exists k. split; [lia | reflexivity].
  - exists a'. split; [exact Hrun | ]. split; [exact Hmono | ]. split.
    + intros i Hi. apply Hbound. lia.
    + destruct Hwhere as [-> | (i & Hi & ->)]; [now left | ].
      right. exists i. split; [lia | reflexivity].
Qed.

Lemma scan_rows (a : float) :
  exists a',
    for_ jB jE (fun j m =>
      for_ iB iE (fun i m => value <- rd i j ;; ret (scan_step m value)) m) a c
    = Returns (a', c) /\
    (forall w, (a <? w)%float = false -> (a' <? w)%float = false) /\
    (forall i j, iB <= i < iE -> jB <= j < jE -> (a' <? abs (val i j))%float = false) /\
    (a' = a \/ exists i j, (iB <= i < iE /\ jB <= j < jE) /\ a' = abs (val i j)).
Proof.
  destruct (for_inv_max
    (fun k a1 c1 => c1 = c /\
       (forall w, (a <? w)%float = false -> (a1 <? w)%float = false) /\
       (forall i j, iB <= i < iE -> jB <= j < k -> (a1 <? abs (val i j))%float = false) /\
       (a1 = a \/ exists i j, (iB <= i < iE /\ jB <= j < k) /\ a1 = abs (val i j)))
    (fun j m =>
      for_ iB iE (fun i m => value <- rd i j ;; ret (scan_step m value)) m) jB jE a c)
    as (a' & c' & Hrun & -> & Hmono & Hbound & Hwhere).
  - repeat split; auto. intros; lia.
  - intros k a1 c1 Hk (-> & Hmono & Hbound & Hwhere).
    destruct (scan_row k a1 Hk) as (a2 & Hrow & Hmono2 & Hbound2 & Hwhere2).
    exists a2, c. split; [exact Hrow | ].
    split; [reflexivity | ]. split; [ | split].
    + intros w Hw. auto.
    + intros i j Hi Hj. destruct (Z.eq_dec j k) as [-> | Hjk].
      * apply Hbound2. exact Hi.
      * apply Hmono2. apply Hbound; lia.
    + destruct Hwhere2 as [-> | (i & Hi & ->)].
      * destruct Hwhere as [-> | (i & j & Hij & ->)]; [now left | ].
        right. exists i, j. split; [lia | reflexivity].
      * right. exists i, k. split; [lia | reflexivity].
  - exists a'. split; [exact Hrun | ]. split; [exact Hmono | ]. split.
    + intros i j Hi Hj. apply Hbound; lia.
    + destruct Hwhere as [-> | (i & j & Hij & ->)]; [now left | ].
      right. exists i, j. split; [lia | reflexivity].
Qed.

End Scan.

Section TimeStepWidth.
Import Computation.
Variables (c : Computation.t) (nx ny : Z).
Hypothesis Hcells : cellsOf c = (nx, ny).

(** The scan of [u] visits the whole range of [u], ghost layers included. *)
Lemma u_max_spec :
  exists m, u_max c = Returns (m, c) /\ isMaxAbs (uRange nx ny) (cell (uOf c)) m.
Proof.
  unfold u_max. rewrite bind_discretization. cbv beta.
  unfold StaggeredGrid.uIBegin, StaggeredGrid.uIEnd, StaggeredGrid.uJBegin,
    StaggeredGrid.uJEnd.
  change (StaggeredGrid.nCells_ (discretization_ c)) with (cellsOf c).
  rewrite Hcells. cbn [fst snd].
  destruct (scan_rows u (cell (uOf c)) c (-1) nx (-1) (ny + 1)) with (a := 0%float)
    as (m & Hrun & _ & Hbound & Hwhere).
  - intros i j Hi Hj. apply (u_in c nx ny Hcells). split; assumption.
  - exists m. split; [exact Hrun | ]. split.
    + intros i j [Hi Hj]. apply Hbound; assumption.
    + destruct Hwhere as [-> | (i & j & Hij & ->)]; [now left | ].
      right. exists i, j. split; [exact Hij | reflexivity].
Qed.

Lemma v_max_spec :
  exists m, v_max c = Returns (m, c) /\ isMaxAbs (vRange nx ny) (cell (vOf c)) m.
Proof.
  unfold v_max. rewrite bind_discretization. cbv beta.
  unfold StaggeredGrid.vIBegin, StaggeredGrid.vIEnd, StaggeredGrid.vJBegin,
    StaggeredGrid.vJEnd.
  change (StaggeredGrid.nCells_ (discretization_ c)) with (cellsOf c).
  rewrite Hcells. cbn [fst snd].
  destruct (scan_rows v (cell (vOf c)) c (-1) (nx + 1) (-1) ny) with (a := 0%float)
    as (m & Hrun & _ & Hbound & Hwhere).
  - intros i j Hi Hj. apply (v_in c nx ny Hcells). split; assumption.
  - exists m. split; [exact Hrun | ]. split.
    + intros i j [Hi Hj]. apply Hbound; assumption.
    + destruct Hwhere as [-> | (i & j & Hij & ->)]; [now left | ].
      right. exists i, j. split; [exact Hij | reflexivity].
Qed.

End TimeStepWidth.

Lemma ltb_asym (a b : float) : (a <? b)%float = true -> (b <? a)%float = false.
Proof.
  intros Hab. destruct (b <? a)%float eqn:Hba; [ | reflexivity].
  pose proof (ltb_trans _ _ _ Hab Hba) as H. now rewrite ltb_irrefl in H.
Qed.

Lemma std_min3_isMinOf3 (a b c : float) : isMinOf3 a b c (std_min3 a b c).
Proof.
  unfold isMinOf3, std_min3.
  destruct (b <? a)%float eqn:Hba; destruct (c <? _)%float eqn:Hc;
    repeat split; auto using ltb_irrefl, ltb_asym.
  - apply ltb_asym. now apply ltb_trans with b.
  - destruct (b <? c)%float eqn:H; [ | reflexivity].
    pose proof (ltb_trans _ _ _ H Hc) as Hb. congruence.
Qed.

(** What [computeTimeStepWidth] does, in terms of the two maxima. *)
Lemma computeTimeStepWidth_spec (c : Computation.t) (nx ny : Z) :
  cellsOf c = (nx, ny) ->
  exists um vm,
    Computation.u_max c = Returns (um, c) /\
    Computation.v_max c = Returns (vm, c) /\
    isMaxAbs (uRange nx ny) (cell (uOf c)) um /\
    isMaxAbs (vRange nx ny) (cell (vOf c)) vm /\
    Computation.computeTimeStepWidth c
    = Returns (tt, with_dt c
        (std_min
           (std_min3
              (Computation.boundary_diffusion
                 (Settings.re (Computation.settings_ c)) (Computation.meshWidth_ c))
              (Computation.boundary_convection (fst (Computation.meshWidth_ c)) um)
              (Computation.boundary_convection (snd (Computation.meshWidth_ c)) vm)
            * Settings.tau (Computation.settings_ c))%float
           (Settings.maximumDt (Computation.settings_ c)))).
Proof.
  intros Hcells.
  destruct (u_max_spec c nx ny Hcells) as (um & Hu & Humax).
  destruct (v_max_spec c nx ny Hcells) as (vm & Hv & Hvmax).
  exists um, vm. repeat (split; [assumption | ]).
  unfold Computation.computeTimeStepWidth.
  rewrite bind_settings. cbv beta. rewrite bind_meshWidth. cbv beta zeta.
  rewrite (bind_run _ _ _ _ _ Hu), (bind_run _ _ _ _ _ Hv). reflexivity.
Qed.

Lemma std_min_capped (a b : float) : (b <? std_min a b)%float = false.
Proof.
  unfold std_min. destruct (b <? a)%float eqn:H; [apply ltb_irrefl | exact H].
Qed.

Lemma std_min_cases (a b : float) : std_min a b = a \/ std_min a b = b.
Proof. unfold std_min. destruct (b <? a)%float; auto. Qed.

Lemma std_min_not_above (a b : float) : (a <? std_min a b)%float = false.
Proof.
  unfold std_min. destruct (b <? a)%float eqn:H; [now apply ltb_asym | apply ltb_irrefl].
Qed.

(** C6.  [computeTimeStepWidth] always returns, and the step width it stores
    is the minimum of the diffusion bound, [dx / u_max] and [dy / v_max],
    multiplied by [tau] and then capped at [maximumDt]: [min_dt] is one of
    the three bounds, with none of them below it; [dt] is [min_dt * tau] or
    [maximumDt], and neither of the two is below it; [u_max], [v_max] are
    the largest absolute values of [u] and [v] over their full logical
    ranges, ghost layers included.  Nothing else of the state changes. *)
Theorem accepted_time_step (c : Computation.t) :
  let s := Computation.settings_ c in
  let dx := fst (Computation.meshWidth_ c) in
  let dy := snd (Computation.meshWidth_ c) in
  let nx := fst (cellsOf c) in
  let ny := snd (cellsOf c) in
  let diffusion := Computation.boundary_diffusion (Settings.re s) (Computation.meshWidth_ c) in
  exists u_max v_max min_dt dt,
    isMaxAbs (uRange nx ny) (cell (uOf c)) u_max /\
    isMaxAbs (vRange nx ny) (cell (vOf c)) v_max /\
    min_dt = std_min3 diffusion (dx / u_max)%float (dy / v_max)%float /\
    isMinOf3 diffusion (dx / u_max)%float (dy / v_max)%float min_dt /\
    dt = std_min (min_dt * Settings.tau s)%float (Settings.maximumDt s) /\
    (dt = (min_dt * Settings.tau s)%float \/ dt = Settings.maximumDt s) /\
    (min_dt * Settings.tau s <? dt)%float = false /\
    (Settings.maximumDt s <? dt)%float = false /\
    Computation.computeTimeStepWidth c = Returns (tt, with_dt c dt).
Proof.
  cbv zeta.
  destruct (computeTimeStepWidth_spec c (fst (cellsOf c)) (snd (cellsOf c)))
    as (um & vm & _ & _ & Hum & Hvm & Hrun); [apply surjective_pairing | ].
  exists um, vm. eexists. eexists.
  split; [exact Hum | ]. split; [exact Hvm | ].
  split; [reflexivity | ]. split; [apply std_min3_isMinOf3 | ].
  split; [reflexivity | ]. split; [apply std_min_cases | ].
  split; [apply std_min_not_above | ].
  split; [apply std_min_capped | exact Hrun].
Qed.

(** C2, as stated, fails: the code has no guard.  In the cavity at rest the
    scan of [u] ends with [u_max = 0], and the bound from convection is the
    quotient [0.5 / 0], which is [+infinity]: a division by zero, and a bound
    that is not finite. *)
Lemma zero_velocity_counterexample :
  Computation.u_max quiescent = Returns (0%float, quiescent) /\
  Computation.boundary_convection (fst (Computation.meshWidth_ quiescent)) 0
  = (0.5 / 0)%float /\
  Computation.boundary_convection (fst (Computation.meshWidth_ quiescent)) 0 = infinity /\
  is_finite
    (Computation.boundary_convection (fst (Computation.meshWidth_ quiescent)) 0) = false.
Proof. repeat split; vm_compute; reflexivity. Qed.

(** C2, amended.  When the largest absolute velocity of [u] (or of [v]) is
    exactly zero and the mesh width is positive, [computeTimeStepWidth]
    divides by it all the same; the IEEE quotient is [+infinity], which
    [std::min] never selects, so that term imposes no constraint: the step
    width is the one the remaining bounds give.  When both maxima are zero it
    is [std::min(diffusion * tau, maximumDt)], which is finite as soon as
    [diffusion * tau] and [maximumDt] are. *)
Theorem zero_velocity_imposes_no_constraint (c : Computation.t) :
  let s := Computation.settings_ c in
  let dx := fst (Computation.meshWidth_ c) in
  let dy := snd (Computation.meshWidth_ c) in
  let diffusion := Computation.boundary_diffusion (Settings.re s) (Computation.meshWidth_ c) in
  exists u_max v_max dt,
    Computation.u_max c = Returns (u_max, c) /\
    Computation.v_max c = Returns (v_max, c) /\
    Computation.computeTimeStepWidth c = Returns (tt, with_dt c dt) /\
    (u_max = 0%float -> (0 <? dx)%float = true ->
       Computation.boundary_convection dx u_max = infinity /\
       dt = std_min
              (std_min diffusion (Computation.boundary_convection dy v_max)
               * Settings.tau s)%float
              (Settings.maximumDt s)) /\
    (v_max = 0%float -> (0 <? dy)%float = true ->
       Computation.boundary_convection dy v_max = infinity /\
       dt = std_min
              (std_min diffusion (Computation.boundary_convection dx u_max)
               * Settings.tau s)%float
              (Settings.maximumDt s)) /\
    (u_max = 0%float -> v_max = 0%float ->
     (0 <? dx)%float = true -> (0 <? dy)%float = true ->
       dt = std_min (diffusion * Settings.tau s)%float (Settings.maximumDt s) /\
       (is_finite (diffusion * Settings.tau s)%float = true ->
        is_finite (Settings.maximumDt s) = true ->
        is_finite dt = true)).
Proof.
  cbv zeta.
  destruct (computeTimeStepWidth_spec c (fst (cellsOf c)) (snd (cellsOf c)))
    as (um & vm & Hu & Hv & _ & _ & Hrun); [apply surjective_pairing | ].
  exists um, vm. eexists.
  split; [exact Hu | ]. split; [exact Hv | ]. split; [exact Hrun | ].
  unfold Computation.boundary_convection.
  split; [ | split].
  - intros -> Hdx. rewrite (positive_div_zero _ Hdx).
    split; [reflexivity | ]. now rewrite std_min3_infinity_2.
  - intros -> Hdy. rewrite (positive_div_zero _ Hdy).
    split; [reflexivity | ]. now rewrite std_min3_infinity_3.
  - intros -> -> Hdx Hdy.
    rewrite (positive_div_zero _ Hdx), (positive_div_zero _ Hdy).
    rewrite std_min3_infinity_2, std_min_infinity.
    split; [reflexivity | ]. intros Ha Hm.
    destruct (std_min_cases
      (Computation.boundary_diffusion (Settings.re (Computation.settings_ c))
         (Computation.meshWidth_ c) * Settings.tau (Computation.settings_ c))%float
      (Settings.maximumDt (Computation.settings_ c))) as [-> | ->]; assumption.
Qed.

(** C3.  For positive mesh widths and any Reynolds number, the bound from
    diffusion is [re * dx * dx / 4] when [dx == dy], and the harmonic-mean
    formula [(re / 2) * (dx^2 * dy^2) * (1 / (dx^2 + dy^2))] when [dx != dy];
    the products and quotients are the binary64 ones, in the order the code
    evaluates them. *)
Theorem diffusion_bound (re dx dy : float)
    (Hdx : (0 <? dx)%float = true) (Hdy : (0 <? dy)%float = true) :
  ((dx =? dy)%float = true ->
     Computation.boundary_diffusion re (dx, dy) = (re * dx * dx / 4)%float) /\
  ((dx =? dy)%float = false ->
     Computation.boundary_diffusion re (dx, dy)
     = ((re / 2) * ((dx * dx) * (dy * dy)) * (1 / (dx * dx + dy * dy)))%float).
Proof.
  unfold Computation.boundary_diffusion. cbn [fst snd]. split; intros Heq; rewrite Heq.
  - rewrite <- (positive_eqb_eq dx dy Hdx Heq). reflexivity.
  - reflexivity.
Qed.

Lemma diffusion_bound_witness :
  ((0 <? 0.1)%float = true /\ (0 <? 0.2)%float = true) /\
  ((0.1 =? 0.2)%float = true ->
     Computation.boundary_diffusion 1000 (0.1, 0.2)%float
     = (1000 * 0.1 * 0.1 / 4)%float) /\
  ((0.1 =? 0.2)%float = false ->
     Computation.boundary_diffusion 1000 (0.1, 0.2)%float
     = ((1000 / 2) * ((0.1 * 0.1) * (0.2 * 0.2)) * (1 / (0.1 * 0.1 + 0.2 * 0.2)))%float).
Proof.
  split; [split; reflexivity | ].
  apply (diffusion_bound 1000 0.1 0.2); reflexivity.
Defined.

(** The two literal mesh-width pairs of the specification. *)
Example square_mesh_example :
  Computation.boundary_diffusion 1000 (0.1, 0.1)%float = (1000 * 0.1 * 0.1 / 4)%float.
Proof. reflexivity. Qed.

Example rectangular_mesh_example :
  Computation.boundary_diffusion 1000 (0.1, 0.2)%float = 4.0000000000000009%float.
Proof. reflexivity. Qed.

(** ** [runSimulation] *)

(** Lines 64-72: what the update of the time does. *)
Lemma advanceTime_spec (currentTime : float) (c : Computation.t) :
  let endTime := Settings.endTime (Computation.settings_ c) in
  Computation.advanceTime currentTime c
  = if (endTime <? currentTime + Computation.dt_ c)%float
    then Returns ((currentTime + (endTime - currentTime))%float,
                  with_dt c (endTime - currentTime)%float)
    else Returns ((currentTime + Computation.dt_ c)%float, c).
Proof.
  cbv zeta. unfold Computation.advanceTime.
  rewrite bind_settings. cbv beta. rewrite bind_dt. cbv beta.
  destruct (_ <? _)%float; reflexivity.
Qed.

(** The step width is adjusted at one place only: without the clamp, an
    iteration advances the time by the width [computeTimeStepWidth] stored. *)
Lemma advanceTime_unclamped (currentTime : float) (c : Computation.t) :
  (Settings.endTime (Computation.settings_ c) <? currentTime + Computation.dt_ c)%float
  = false ->
  Computation.advanceTime currentTime c
  = Returns ((currentTime + Computation.dt_ c)%float, c).
Proof. intros H. rewrite advanceTime_spec. cbv zeta. rewrite H. reflexivity. Qed.

(** C4: the code misses the end time.  With [endTime = 0.9], an iteration
    entered at [currentTime = 0.2] on the cavity at rest computes the step
    width 0.8; [0.2 + 0.8 > 0.9], so the clamp sets [dt_ = 0.9 - 0.2], which
    is 0.7; and [0.2 + 0.7] is 0.8999999999999999 in binary64: the new time
    is not [endTime], it is below it, and the guard of the loop holds again. *)
Theorem clamped_step_misses_end_time :
  let endTime := Settings.endTime (Computation.settings_ quiescent) in
  exists c1 c2 currentTime,
    Computation.bind Computation.applyBoundaryValues
      (fun _ => Computation.computeTimeStepWidth) quiescent = Returns (tt, c1) /\
    Computation.dt_ c1 = 0.8%float /\
    (endTime <? 0.2 + Computation.dt_ c1)%float = true /\
    Computation.beginTimeStep 0.2 quiescent = Returns (currentTime, c2) /\
    Computation.dt_ c2 = (endTime - 0.2)%float /\
    Computation.dt_ c2 = 0.7%float /\
    currentTime = (0.2 + Computation.dt_ c2)%float /\
    currentTime = 0.8999999999999999%float /\
    (currentTime =? endTime)%float = false /\
    (currentTime <? endTime)%float = true.
Proof.
  cbv zeta.
  destruct (Computation.bind Computation.applyBoundaryValues
              (fun _ => Computation.computeTimeStepWidth) quiescent)
    as [[[] c1] | e] eqn:Hc1; [ | vm_compute in Hc1; discriminate Hc1].
  assert (Hdt : Computation.dt_ c1 = 0.8%float).
  { change (Computation.dt_ c1)
      with (match Returns (tt, c1) with
            | Returns (_, c') => Computation.dt_ c'
            | Terminated _ => 0%float
            end).
    rewrite <- Hc1. vm_compute. reflexivity. }
  assert (Hs : Computation.settings_ c1 = quiescentSettings).
  { change (Computation.settings_ c1)
      with (match Returns (tt, c1) with
            | Returns (_, c') => Computation.settings_ c'
            | Terminated _ => quiescentSettings
            end).
    rewrite <- Hc1. vm_compute. reflexivity. }
  exists c1, (with_dt c1 (0.9 - 0.2)%float), (0.2 + (0.9 - 0.2))%float.
  split; [reflexivity | ]. split; [exact Hdt | ].
  split; [rewrite Hdt; reflexivity | ].
  split.
  - unfold Computation.beginTimeStep.
    rewrite <- (bind_assoc Computation.applyBoundaryValues
                  (fun _ => Computation.computeTimeStepWidth)
                  (fun _ => Computation.advanceTime 0.2)).
    rewrite (bind_run _ _ _ _ _ Hc1), advanceTime_spec. cbv zeta.
    rewrite Hs, Hdt. reflexivity.
  - repeat split; reflexivity.
Qed.

(** * Further properties *)

(** ** Accesses through [discretization_] *)

Section MoreAccesses.
Import Computation.
Variables (c : Computation.t) (nx ny : Z).
Hypothesis Hcells : cellsOf c = (nx, ny).

Lemma p_in (i j : Z) : pRange nx ny i j -> p i j c = Returns (cell (pOf c) i j, c).
Proof.
  intros [Hi Hj]. unfold p, load, StaggeredGrid.p.
  rewrite checked_in; [reflexivity | | ];
    unfold StaggeredGrid.pIBegin, StaggeredGrid.pIEnd, StaggeredGrid.pJBegin,
      StaggeredGrid.pJEnd; unfold cellsOf in Hcells; rewrite Hcells; cbn; lia.
Qed.

Lemma rhs_in (i j : Z) : pRange nx ny i j -> rhs i j c = Returns (cell (rhsOf c) i j, c).
Proof.
  intros [Hi Hj]. unfold rhs, load, StaggeredGrid.rhs.
  rewrite checked_in; [reflexivity | | ];
    unfold StaggeredGrid.pIBegin, StaggeredGrid.pIEnd, StaggeredGrid.pJBegin,
      StaggeredGrid.pJEnd; unfold cellsOf in Hcells; rewrite Hcells; cbn; lia.
Qed.

Lemma set_p_in (i j : Z) (val : float) :
  pRange nx ny i j ->
  set_p i j val c = Returns (tt, with_p c (assign (pOf c) (i + 1) (j + 1) val)).
Proof.
  intros [Hi Hj]. unfold set_p, store, StaggeredGrid.p.
  rewrite checked_in; [reflexivity | | ];
    unfold StaggeredGrid.pIBegin, StaggeredGrid.pIEnd, StaggeredGrid.pJBegin,
      StaggeredGrid.pJEnd; unfold cellsOf in Hcells; rewrite Hcells; cbn; lia.
Qed.

Lemma set_rhs_in (i j : Z) (val : float) :
  pRange nx ny i j ->
  set_rhs i j val c = Returns (tt, with_rhs c (assign (rhsOf c) (i + 1) (j + 1) val)).
Proof.
  intros [Hi Hj]. unfold set_rhs, store, StaggeredGrid.rhs.
  rewrite checked_in; [reflexivity | | ];
    unfold StaggeredGrid.pIBegin, StaggeredGrid.pIEnd, StaggeredGrid.pJBegin,
      StaggeredGrid.pJEnd; unfold cellsOf in Hcells; rewrite Hcells; cbn; lia.
Qed.

End MoreAccesses.

Ltac access_p L Hc :=
  first [ erewrite bind_run;
            [ | eapply L; [exact Hc | unfold uRange, vRange, pRange; lia] ]
        | erewrite L; [ | exact Hc | unfold uRange, vRange, pRange; lia ] ];
  cbv beta.

(** One field at a time: the pattern of the six round trips. *)
Lemma writeReadsBack_intro
    (get : Z -> Z -> Computation.M float) (set : Z -> Z -> float -> Computation.M unit)
    (inRange : Z -> Z -> Prop) (c : Computation.t)
    (fieldOf : Computation.t -> FieldVariable)
    (replace : Computation.t -> FieldVariable -> Computation.t) :
  (forall c1 i j, cellsOf c1 = cellsOf c -> inRange i j ->
     get i j c1 = Returns (cell (fieldOf c1) i j, c1)) ->
  (forall i j val, inRange i j ->
     set i j val c = Returns (tt, replace c (assign (fieldOf c) (i + 1) (j + 1) val))) ->
  (forall fv, cellsOf (replace c fv) = cellsOf c /\ fieldOf (replace c fv) = fv /\
              sameFrame c (replace c fv)) ->
  writeReadsBack get set inRange c.
Proof.
  intros Hget Hset Hrep i j val Hij.
  destruct (Hrep (assign (fieldOf c) (i + 1) (j + 1) val)) as (Hc' & Hf' & Hframe).
  eexists. split; [apply Hset; exact Hij | ].
  split; [ | split; [exact Hframe | ] ].
  - rewrite (Hget _ i j Hc' Hij), Hf', cell_assign_same. reflexivity.
  - intros i' j' Hij' Hne. exists (cell (fieldOf c) i' j'). split.
    + apply Hget; [reflexivity | exact Hij'].
    + rewrite (Hget _ i' j' Hc' Hij'), Hf', cell_assign_other by exact Hne. reflexivity.
Qed.

(** X1.  For each of the six fields, an assignment through the accessor at
    an in-range logical index returns; reading the same index back returns
    the value assigned; every other in-range index of the field still reads
    as before; and the settings, the mesh widths, the step width and the cell
    counts are untouched. *)
Theorem accessors_round_trip (c : Computation.t) :
  let nx := fst (cellsOf c) in
  let ny := snd (cellsOf c) in
  writeReadsBack Computation.u Computation.set_u (uRange nx ny) c /\
  writeReadsBack Computation.v Computation.set_v (vRange nx ny) c /\
  writeReadsBack Computation.p Computation.set_p (pRange nx ny) c /\
  writeReadsBack Computation.f Computation.set_f (uRange nx ny) c /\
  writeReadsBack Computation.g Computation.set_g (vRange nx ny) c /\
  writeReadsBack Computation.rhs Computation.set_rhs (pRange nx ny) c.
Proof.
  cbv zeta.
  assert (Hc : cellsOf c = (fst (cellsOf c), snd (cellsOf c))) by apply surjective_pairing.
  repeat apply conj.
  - apply (writeReadsBack_intro _ _ _ c uOf with_u).
    + intros c1 i j Hc1 Hij. apply (u_in c1 _ _ (eq_trans Hc1 Hc) i j Hij).
    + intros i j val Hij. apply (set_u_in c _ _ Hc i j val Hij).
    + intros fv. repeat split.
  - apply (writeReadsBack_intro _ _ _ c vOf with_v).
    + intros c1 i j Hc1 Hij. apply (v_in c1 _ _ (eq_trans Hc1 Hc) i j Hij).
    + intros i j val Hij. apply (set_v_in c _ _ Hc i j val Hij).
    + intros fv. repeat split.
  - apply (writeReadsBack_intro _ _ _ c pOf with_p).
    + intros c1 i j Hc1 Hij. apply (p_in c1 _ _ (eq_trans Hc1 Hc) i j Hij).
    + intros i j val Hij. apply (set_p_in c _ _ Hc i j val Hij).
    + intros fv. repeat split.
  - apply (writeReadsBack_intro _ _ _ c fOf with_f).
    + intros c1 i j Hc1 Hij. apply (f_in c1 _ _ (eq_trans Hc1 Hc) i j Hij).
    + intros i j val Hij. apply (set_f_in c _ _ Hc i j val Hij).
    + intros fv. repeat split.
  - apply (writeReadsBack_intro _ _ _ c gOf with_g).
    + intros c1 i j Hc1 Hij. apply (g_in c1 _ _ (eq_trans Hc1 Hc) i j Hij).
    + intros i j val Hij. apply (set_g_in c _ _ Hc i j val Hij).
    + intros fv. repeat split.
  - apply (writeReadsBack_intro _ _ _ c rhsOf with_rhs).
    + intros c1 i j Hc1 Hij. apply (rhs_in c1 _ _ (eq_trans Hc1 Hc) i j Hij).
    + intros i j val Hij. apply (set_rhs_in c _ _ Hc i j val Hij).
    + intros fv. repeat split.
Qed.

Lemma checked_returns (axisI axisJ name : string) (iBegin iEnd jBegin jEnd i j x y : Z) :
  StaggeredGrid.checked axisI axisJ name iBegin iEnd jBegin jEnd i j = Returns (x, y) ->
  (iBegin <= i < iEnd /\ jBegin <= j < jEnd) /\ x = i + 1 /\ y = j + 1.
Proof.
  unfold StaggeredGrid.checked.
  destruct (Z.geb_spec i iBegin), (Z.ltb_spec i iEnd); cbn [andb negb];
    try discriminate.
  destruct (Z.geb_spec j jBegin), (Z.ltb_spec j jEnd); cbn [andb negb];
    try discriminate.
  intros Hret. injection Hret as <- <-. repeat split; lia.
Qed.

Lemma checked_ontoExtents (axisI axisJ name : string) (fv : FieldVariable)
    (iEnd jEnd : Z) :
  size_ fv = (iEnd + 1, jEnd + 1) ->
  ontoExtents (StaggeredGrid.checked axisI axisJ name (-1) iEnd (-1) jEnd) fv.
Proof.
  intros Hsize. unfold ontoExtents, inExtents. rewrite Hsize. cbn [fst snd]. split.
  - intros i j x y H. apply checked_returns in H. lia.
  - intros x y Hxy. rewrite checked_in by lia. f_equal. f_equal; lia.
Qed.

(** X2.  On a freshly built grid the index shift wastes and aliases nothing:
    for each of the six fields the accessor designates, over its logical
    range, every storage cell inside the extents exactly once, and never a
    cell outside them. *)
Theorem accessors_cover_storage (nx ny : Z) (meshWidth : float * float) :
  let sg := StaggeredGrid.new (nx, ny) meshWidth in
  ontoExtents (StaggeredGrid.u sg) (StaggeredGrid.u_ sg) /\
  ontoExtents (StaggeredGrid.v sg) (StaggeredGrid.v_ sg) /\
  ontoExtents (StaggeredGrid.p sg) (StaggeredGrid.p_ sg) /\
  ontoExtents (StaggeredGrid.f sg) (StaggeredGrid.f_ sg) /\
  ontoExtents (StaggeredGrid.g sg) (StaggeredGrid.g_ sg) /\
  ontoExtents (StaggeredGrid.rhs sg) (StaggeredGrid.rhs_ sg).
Proof.
  cbv zeta.
  repeat apply conj; apply checked_ontoExtents;
    unfold StaggeredGrid.uIEnd, StaggeredGrid.uJEnd, StaggeredGrid.vIEnd,
      StaggeredGrid.vJEnd, StaggeredGrid.pIEnd, StaggeredGrid.pJEnd;
    cbn [StaggeredGrid.new
    StaggeredGrid.u_ StaggeredGrid.v_ StaggeredGrid.p_ StaggeredGrid.f_
    StaggeredGrid.g_ StaggeredGrid.rhs_ StaggeredGrid.nCells_ FieldVariable_new
    size_ fst snd]; apply f_equal2; lia.
Qed.

(** ** Loops that assign one field cell by cell *)

Section Fill.
Import Computation.
Variable replace : Computation.t -> FieldVariable -> Computation.t.
Variable body : Z -> Z -> M unit.
Variable val : Z -> Z -> float.
Variable c : Computation.t.
Variables iB iE jB jE : Z.
Hypothesis Hbody : forall fx i j, iB <= i < iE -> jB <= j < jE ->
  body i j (replace c fx)
  = Returns (tt, replace c (assign fx (i + 1) (j + 1) (val i j))).

Lemma fill_row (j : Z) (fx0 : FieldVariable) :
  jB <= j < jE ->
  exists fx,
    for_each iB iE (fun i => body i j) (replace c fx0) = Returns (tt, replace c fx) /\
    (forall i, iB <= i < iE -> cell fx i j = val i j) /\
    (forall i' j', ~ (j' = j /\ iB <= i' < iE) -> cell fx i' j' = cell fx0 i' j').
Proof.
  intros Hj.
  destruct (for_each_inv_max
    (fun k c1 => exists fx, c1 = replace c fx /\
       (forall i, iB <= i < k -> cell fx i j = val i j) /\
       (forall i' j', ~ (j' = j /\ iB <= i' < k) -> cell fx i' j' = cell fx0 i' j'))
    (fun i => body i j) iB iE (replace c fx0))
    as (c' & Hrun & fx & -> & Hval & Hframe).
  - exists fx0. split; [reflexivity | ]. split; [intros; lia | reflexivity].
  - intros k c1 Hk (fx & -> & Hval & Hframe).
    eexists. split; [apply Hbody; assumption | ].
    eexists. split; [reflexivity | ]. split.
    + intros i Hi. rewrite cell_assign.
      destruct (Z.eqb_spec i k) as [-> | Hik]; rewrite ?Z.eqb_refl; cbn [andb];
        [reflexivity | apply Hval; lia].
    + intros i' j' Hij. rewrite cell_assign_other by lia. apply Hframe. lia.
  - exists fx. split; [exact Hrun | ]. split.
    + intros i Hi. apply Hval. lia.
    + intros i' j' Hij. apply Hframe. lia.
Qed.

Lemma fill_rectangle (fx0 : FieldVariable) :
  exists fx,
    for_each jB jE (fun j => for_each iB iE (fun i => body i j)) (replace c fx0)
    = Returns (tt, replace c fx) /\
    (forall i j, iB <= i < iE -> jB <= j < jE -> cell fx i j = val i j) /\
    (forall i j, ~ (iB <= i < iE /\ jB <= j < jE) -> cell fx i j = cell fx0 i j).
Proof.
  destruct (for_each_inv_max
    (fun k c1 => exists fx, c1 = replace c fx /\
       (forall i j, iB <= i < iE -> jB <= j < k -> cell fx i j = val i j) /\
       (forall i j, ~ (iB <= i < iE /\ jB <= j < k) -> cell fx i j = cell fx0 i j))
    (fun j => for_each iB iE (fun i => body i j)) jB jE (replace c fx0))
    as (c' & Hrun & fx & -> & Hval & Hframe).
  - exists fx0. split; [reflexivity | ]. split; [intros; lia | reflexivity].
  - intros k c1 Hk (fx & -> & Hval & Hframe).
    destruct (fill_row k fx Hk) as (fx' & Hrow & Hrv & Hrf).
    eexists. split; [exact Hrow | ].
    exists fx'. split; [reflexivity | ]. split.
    + intros i j Hi Hj. destruct (Z.eq_dec j k) as [-> | Hjk].
      * apply Hrv. exact Hi.
      * rewrite Hrf by lia. apply Hval; lia.
    + intros i j Hij. rewrite Hrf by lia. apply Hframe. lia.
  - exists fx. split; [exact Hrun | ]. split.
    + intros i j Hi Hj. apply Hval; lia.
    + intros i j Hij. apply Hframe. lia.
Qed.

End Fill.

(** ** [computeRightHandSide] *)

(** X3.  [computeRightHandSide] returns on every grid, whatever the step
    width (a zero [dt_] gives infinite or undefined entries, not a failure).
    Every interior cell of [rhs] receives [(1 / dt) * ((f(i,j) - f(i-1,j)) /
    dx + (g(i,j) - g(i,j-1)) / dy)], with [dx], [dy] the mesh widths of the
    grid; the ghost cells of [rhs] and everything else are left as they were. *)
Theorem right_hand_side (c : Computation.t) :
  let nx := fst (cellsOf c) in
  let ny := snd (cellsOf c) in
  let d := Computation.discretization_ c in
  let dt := Computation.dt_ c in
  exists fr,
    Computation.computeRightHandSide c = Returns (tt, with_rhs c fr) /\
    (forall i j, pInterior nx ny i j ->
       cell fr i j
       = ((1 / dt)
          * ((cell (fOf c) i j - cell (fOf c) (i - 1) j) / StaggeredGrid.dx d
             + (cell (gOf c) i j - cell (gOf c) i (j - 1)) / StaggeredGrid.dy d))%float) /\
    (forall i j, ~ pInterior nx ny i j -> cell fr i j = cell (rhsOf c) i j).
Proof.
  cbv zeta.
  assert (Hc : cellsOf c = (fst (cellsOf c), snd (cellsOf c))) by apply surjective_pairing.
  set (nx := fst (cellsOf c)) in *. set (ny := snd (cellsOf c)) in *.
  unfold Computation.computeRightHandSide.
  rewrite bind_discretization. cbv beta.
  unfold StaggeredGrid.pIBegin, StaggeredGrid.pIEnd, StaggeredGrid.pJBegin,
    StaggeredGrid.pJEnd.
  change (StaggeredGrid.nCells_ (Computation.discretization_ c)) with (cellsOf c).
  rewrite Hc. cbn [fst snd].
  destruct (fill_rectangle with_rhs
    (fun i j =>
       Computation.bind Computation.dt (fun dt_ =>
       Computation.bind (Computation.f i j) (fun fij =>
       Computation.bind (Computation.f (i - 1) j) (fun fi1j =>
       Computation.bind (Computation.g i j) (fun gij =>
       Computation.bind (Computation.g i (j - 1)) (fun gij1 =>
       Computation.set_rhs i j
         ((1 / dt_)
          * ((fij - fi1j) / StaggeredGrid.dx (Computation.discretization_ c)
             + (gij - gij1) / StaggeredGrid.dy (Computation.discretization_ c)))%float))))))
    (fun i j =>
       ((1 / Computation.dt_ c)
        * ((cell (fOf c) i j - cell (fOf c) (i - 1) j)
             / StaggeredGrid.dx (Computation.discretization_ c)
           + (cell (gOf c) i j - cell (gOf c) i (j - 1))
               / StaggeredGrid.dy (Computation.discretization_ c)))%float)
    c (-1 + 1) (nx + 1 - 1) (-1 + 1) (ny + 1 - 1)) with (fx0 := rhsOf c)
    as (fr & Hrun & Hval & Hframe).
  - intros fx i j Hi Hj.
    assert (Hcx : cellsOf (with_rhs c fx) = (nx, ny)) by exact Hc.
    rewrite bind_dt. cbv beta.
    access f_in Hcx. access f_in Hcx. access g_in Hcx. access g_in Hcx.
    access_p set_rhs_in Hcx. reflexivity.
  - exists fr. split.
    + replace c with (with_rhs c (rhsOf c)) at 1 by (now destruct c as [s [] mw d]).
      exact Hrun.
    + unfold pInterior. split.
      * intros i j Hij. apply Hval; lia.
      * intros i j Hij. apply Hframe. lia.
Qed.

(** ** [computeVelocities] *)

(** X4.  For pressure-gradient operators that read only the pressure and the
    mesh, [computeVelocities] returns and sets every interior cell of [u] to
    [f(i,j) - dt * DpDx(i,j)] and every interior cell of [v] to
    [g(i,j) - dt * DpDy(i,j)], the gradients being those of the pressure
    before the call; the edge cells of [u] and [v] and all other fields keep
    their values. *)
Theorem corrected_velocities (scheme : Discretization) (c : Computation.t) :
  readsPressure (computeDpDx scheme) -> readsPressure (computeDpDy scheme) ->
  let nx := fst (cellsOf c) in
  let ny := snd (cellsOf c) in
  let d := Computation.discretization_ c in
  let dt := Computation.dt_ c in
  exists fu fv,
    Computation.computeVelocities scheme c = Returns (tt, with_v (with_u c fu) fv) /\
    (forall i j, uInterior nx ny i j ->
       cell fu i j = (cell (fOf c) i j - dt * computeDpDx scheme d i j)%float) /\
    (forall i j, ~ uInterior nx ny i j -> cell fu i j = cell (uOf c) i j) /\
    (forall i j, vInterior nx ny i j ->
       cell fv i j = (cell (gOf c) i j - dt * computeDpDy scheme d i j)%float) /\
    (forall i j, ~ vInterior nx ny i j -> cell fv i j = cell (vOf c) i j).
Proof.
  intros Hdx Hdy. cbv zeta.
  assert (Hc : cellsOf c = (fst (cellsOf c), snd (cellsOf c))) by apply surjective_pairing.
  set (nx := fst (cellsOf c)) in *. set (ny := snd (cellsOf c)) in *.
  unfold Computation.computeVelocities.
  rewrite bind_discretization. cbv beta.
  unfold StaggeredGrid.uIBegin, StaggeredGrid.uIEnd, StaggeredGrid.uJBegin,
    StaggeredGrid.uJEnd, StaggeredGrid.vIBegin, StaggeredGrid.vIEnd,
    StaggeredGrid.vJBegin, StaggeredGrid.vJEnd.
  change (StaggeredGrid.nCells_ (Computation.discretization_ c)) with (cellsOf c).
  rewrite Hc. cbn [fst snd].
  destruct (fill_rectangle with_u
    (fun i j =>
       Computation.bind Computation.discretization (fun d =>
       Computation.bind Computation.dt (fun dt_ =>
       Computation.bind (Computation.f i j) (fun fij =>
       Computation.set_u i j (fij - dt_ * computeDpDx scheme d i j)%float))))
    (fun i j =>
       (cell (fOf c) i j
        - Computation.dt_ c * computeDpDx scheme (Computation.discretization_ c) i j)%float)
    c (-1 + 1) (nx - 1) (-1 + 1) (ny + 1 - 1)) with (fx0 := uOf c)
    as (fu & HrunU & HvalU & HframeU).
  { intros fx i j Hi Hj.
    assert (Hcx : cellsOf (with_u c fx) = (nx, ny)) by exact Hc.
    rewrite bind_discretization. cbv beta. rewrite bind_dt. cbv beta.
    access f_in Hcx. access set_u_in Hcx.
    rewrite (Hdx _ (Computation.discretization_ c)); reflexivity. }
  replace (with_u c (uOf c)) with c in HrunU by (now destruct c as [s [] mw d]).
  rewrite (bind_run _ _ _ _ _ HrunU). clear HrunU.
  destruct (fill_rectangle with_v
    (fun i j =>
       Computation.bind Computation.discretization (fun d =>
       Computation.bind Computation.dt (fun dt_ =>
       Computation.bind (Computation.g i j) (fun gij =>
       Computation.set_v i j (gij - dt_ * computeDpDy scheme d i j)%float))))
    (fun i j =>
       (cell (gOf c) i j
        - Computation.dt_ c * computeDpDy scheme (Computation.discretization_ c) i j)%float)
    (with_u c fu) (-1 + 1) (nx + 1 - 1) (-1 + 1) (ny - 1)) with (fx0 := vOf c)
    as (fv & HrunV & HvalV & HframeV).
  { intros fx i j Hi Hj.
    assert (Hcx : cellsOf (with_v (with_u c fu) fx) = (nx, ny)) by exact Hc.
    rewrite bind_discretization. cbv beta. rewrite bind_dt. cbv beta.
    access g_in Hcx. access set_v_in Hcx.
    rewrite (Hdy _ (Computation.discretization_ c)); reflexivity. }
  exists fu, fv. split; [exact HrunV | ].
  unfold uInterior, vInterior. repeat apply conj.
  - intros i j Hij. apply HvalU; lia.
  - intros i j Hij. apply HframeU. lia.
  - intros i j Hij. apply HvalV; lia.
  - intros i j Hij. apply HframeV. lia.
Qed.

Lemma centralDifferences_readsPressure :
  readsPressure (computeDpDx CentralDifferences.scheme) /\
  readsPressure (computeDpDy CentralDifferences.scheme).
Proof.
  split; intros sg sg' i j Hp Hm Hn; cbn;
    unfold CentralDifferences.computeDpDx, CentralDifferences.computeDpDy,
      CentralDifferences.P, StaggeredGrid.dx, StaggeredGrid.dy;
    rewrite Hp, Hm; reflexivity.
Qed.

Lemma corrected_velocities_witness :
  (readsPressure (computeDpDx CentralDifferences.scheme) /\
   readsPressure (computeDpDy CentralDifferences.scheme)) /\
  exists fu fv,
    Computation.computeVelocities CentralDifferences.scheme fourWalls
    = Returns (tt, with_v (with_u fourWalls fu) fv) /\
    (forall i j, uInterior 3 2 i j ->
       cell fu i j
       = (cell (fOf fourWalls) i j
          - 0.125 * CentralDifferences.computeDpDx
                      (Computation.discretization_ fourWalls) i j)%float).
Proof.
  split; [exact centralDifferences_readsPressure | ].
  destruct (corrected_velocities CentralDifferences.scheme fourWalls
              (proj1 centralDifferences_readsPressure)
              (proj2 centralDifferences_readsPressure))
    as (fu & fv & Hrun & HU & _).
  exists fu, fv. split; [exact Hrun | exact HU].
Defined.

(** ** More on [applyBoundaryValues] *)

(** X5.  On a grid with at least one cell in each direction, after
    [applyBoundaryValues] the tangential velocities in the ghost layers
    mirror their interior neighbours about the wall value ([2 * wall -
    neighbour]): [u] below and above the domain away from the corners, [v]
    left and right of it away from the corners; the normal velocities on the
    walls hold the wall value itself: [u] on the whole left and right
    columns, [v] on the bottom and top rows between the side columns. *)
Theorem boundary_values_on_edges (c : Computation.t) (nx ny : Z) :
  cellsOf c = (nx, ny) -> 1 <= nx -> 1 <= ny ->
  let s := Computation.settings_ c in
  exists c',
    Computation.applyBoundaryValues c = Returns (tt, c') /\
    (forall i, 0 <= i < nx - 1 ->
       cell (uOf c') i (-1)
       = (2 * fst (Settings.dirichletBcBottom s) - cell (uOf c') i 0)%float /\
       cell (uOf c') i ny
       = (2 * fst (Settings.dirichletBcTop s) - cell (uOf c') i (ny - 1))%float) /\
    (forall j, -1 <= j < ny + 1 ->
       cell (uOf c') (-1) j = fst (Settings.dirichletBcLeft s) /\
       cell (uOf c') (nx - 1) j = fst (Settings.dirichletBcRight s)) /\
    (forall i, 0 <= i < nx ->
       cell (vOf c') i (-1) = snd (Settings.dirichletBcBottom s) /\
       cell (vOf c') i (ny - 1) = snd (Settings.dirichletBcTop s)) /\
    (forall j, 0 <= j < ny - 1 ->
       cell (vOf c') (-1) j
       = (2 * snd (Settings.dirichletBcLeft s) - cell (vOf c') 0 j)%float /\
       cell (vOf c') nx j
       = (2 * snd (Settings.dirichletBcRight s) - cell (vOf c') (nx - 1) j)%float).
Proof.
  intros Hcells Hnx Hny s.
  destruct (applyBoundaryValues_spec c nx ny Hcells ltac:(lia) ltac:(lia))
    as (fu & fv & ff & fg & Hrun & Huf & Hus & Hubt & Hvf & Hvbt & _ & _ & Hvs & _).
  fold s in Hus, Hubt, Hvbt, Hvs.
  eexists. split; [exact Hrun | ].
  cbn [uOf vOf with_u with_v with_f with_g Computation.discretization_
       StaggeredGrid.u_ StaggeredGrid.v_].
  unfold uEdge, vEdge, uRange, vRange in *.
  repeat apply conj.
  - intros i Hi. destruct (Hubt Hny i Hi) as [Hb Ht].
    rewrite Hb, Ht, !Huf by lia. split; reflexivity.
  - intros j Hj. destruct (Hus j Hj) as [Hr Hl]. split; auto.
  - intros i Hi. destruct (Hvbt i Hi) as [Ht Hb]. split; auto.
  - intros j Hj. destruct (Hvs Hnx j Hj) as [Hl Hr].
    rewrite Hl, Hr, !Hvf by lia. split; reflexivity.
Qed.

Lemma boundary_values_on_edges_witness :
  (cellsOf fourWalls = (3, 2) /\ 1 <= 3 /\ 1 <= 2) /\
  exists c',
    Computation.applyBoundaryValues fourWalls = Returns (tt, c') /\
    (forall i, 0 <= i < 3 - 1 ->
       cell (uOf c') i (-1) = (2 * 1 - cell (uOf c') i 0)%float /\
       cell (uOf c') i 2 = (2 * 3 - cell (uOf c') i (2 - 1))%float) /\
    (forall i, 0 <= i < 3 ->
       cell (vOf c') i (-1) = 2%float /\ cell (vOf c') i (2 - 1) = 4%float).
Proof.
  split; [split; [reflexivity | lia] | ].
  destruct (boundary_values_on_edges fourWalls 3 2 eq_refl ltac:(lia) ltac:(lia))
    as (c' & Hrun & Hu & _ & Hv & _).
  exists c'. split; [exact Hrun | ]. split; [exact Hu | exact Hv].
Defined.

(** X6.  [applyBoundaryValues] is idempotent on a grid with at least one cell
    in each direction: applying it a second time changes no cell of any
    field. *)
Theorem applyBoundaryValues_idempotent (c : Computation.t) (nx ny : Z) :
  cellsOf c = (nx, ny) -> 1 <= nx -> 1 <= ny ->
  exists c1 c2,
    Computation.applyBoundaryValues c = Returns (tt, c1) /\
    Computation.applyBoundaryValues c1 = Returns (tt, c2) /\
    (forall i j, cell (uOf c2) i j = cell (uOf c1) i j) /\
    (forall i j, cell (vOf c2) i j = cell (vOf c1) i j) /\
    (forall i j, cell (fOf c2) i j = cell (fOf c1) i j) /\
    (forall i j, cell (gOf c2) i j = cell (gOf c1) i j) /\
    pOf c2 = pOf c1 /\ rhsOf c2 = rhsOf c1 /\ sameFrame c1 c2.
Proof.
  intros Hcells Hnx Hny.
  destruct (applyBoundaryValues_spec c nx ny Hcells ltac:(lia) ltac:(lia))
    as (fu & fv & ff & fg & Hrun & Huf & Hus & Hubt & Hvf & Hvbt & Hvt & Hvb & Hvs
        & Hff & Hfe & Hgf & Hge).
  set (c1 := with_g (with_f (with_v (with_u c fu) fv) ff) fg) in *.
  destruct (applyBoundaryValues_spec c1 nx ny Hcells ltac:(lia) ltac:(lia))
    as (fu' & fv' & ff' & fg' & Hrun' & Huf' & Hus' & Hubt' & Hvf' & Hvbt' & Hvt' & Hvb'
        & Hvs' & Hff' & Hfe' & Hgf' & Hge').
  exists c1. eexists. split; [exact Hrun | ]. split; [exact Hrun' | ].
  subst c1.
  cbn [uOf vOf fOf gOf pOf rhsOf with_u with_v with_f with_g
       Computation.discretization_ Computation.settings_
       StaggeredGrid.u_ StaggeredGrid.v_ StaggeredGrid.f_ StaggeredGrid.g_
       StaggeredGrid.p_ StaggeredGrid.rhs_] in *.
  unfold uEdge, vEdge, uRange, vRange in *.
  assert (HU : forall i j, cell fu' i j = cell fu i j).
  { intros i j.
    destruct (Z.eq_dec i (-1)) as [-> | Hil];
      [ destruct (Z_le_dec (-1) j), (Z_lt_dec j (ny + 1));
          try (apply Huf'; lia);
          rewrite (proj2 (Hus' j ltac:(lia)) Hnx), (proj2 (Hus j ltac:(lia)) Hnx);
          reflexivity | ].
    destruct (Z.eq_dec i (nx - 1)) as [-> | Hir];
      [ destruct (Z_le_dec (-1) j), (Z_lt_dec j (ny + 1));
          try (apply Huf'; lia);
          rewrite (proj1 (Hus' j ltac:(lia))), (proj1 (Hus j ltac:(lia)));
          reflexivity | ].
    destruct (Z_le_dec 0 i), (Z_lt_dec i (nx - 1)); try (apply Huf'; lia).
    destruct (Z.eq_dec j (-1)) as [-> | Hjb].
    { rewrite (proj1 (Hubt' Hny i ltac:(lia))), (proj1 (Hubt Hny i ltac:(lia))).
      rewrite (Huf i 0) by lia. reflexivity. }
    destruct (Z.eq_dec j ny) as [-> | Hjt].
    { rewrite (proj2 (Hubt' Hny i ltac:(lia))), (proj2 (Hubt Hny i ltac:(lia))).
      rewrite (Huf i (ny - 1)) by lia. reflexivity. }
    apply Huf'. lia. }
  assert (HV : forall i j, cell fv' i j = cell fv i j).
  { intros i j.
    destruct (Z_le_dec (-1) j), (Z_lt_dec j ny); try (apply Hvf'; lia).
    destruct (Z_le_dec (-1) i), (Z_lt_dec i (nx + 1)); try (apply Hvf'; lia).
    destruct (Z.eq_dec i (-1)) as [-> | Hil].
    { destruct (Z.eq_dec j (-1)) as [-> | Hjb];
        [ rewrite (proj1 (Hvb' Hnx Hny)), (proj1 (Hvb Hnx Hny)); reflexivity | ].
      destruct (Z.eq_dec j (ny - 1)) as [-> | Hjt];
        [ rewrite (proj1 (Hvt' Hnx)), (proj1 (Hvt Hnx)); reflexivity | ].
      rewrite (proj1 (Hvs' Hnx j ltac:(lia))), (proj1 (Hvs Hnx j ltac:(lia))).
      rewrite (Hvf 0 j) by lia. reflexivity. }
    destruct (Z.eq_dec i nx) as [-> | Hir].
    { destruct (Z.eq_dec j (-1)) as [-> | Hjb];
        [ rewrite (proj2 (Hvb' Hnx Hny)), (proj2 (Hvb Hnx Hny)); reflexivity | ].
      destruct (Z.eq_dec j (ny - 1)) as [-> | Hjt];
        [ rewrite (proj2 (Hvt' Hnx)), (proj2 (Hvt Hnx)); reflexivity | ].
      rewrite (proj2 (Hvs' Hnx j ltac:(lia))), (proj2 (Hvs Hnx j ltac:(lia))).
      rewrite (Hvf (nx - 1) j) by lia. reflexivity. }
    destruct (Z.eq_dec j (ny - 1)) as [-> | Hjt];
      [ rewrite (proj1 (Hvbt' i ltac:(lia))), (proj1 (Hvbt i ltac:(lia))); reflexivity | ].
    destruct (Z.eq_dec j (-1)) as [-> | Hjb];
      [ rewrite (proj2 (Hvbt' i ltac:(lia)) Hny), (proj2 (Hvbt i ltac:(lia)) Hny);
        reflexivity | ].
    apply Hvf'. lia. }
  repeat apply conj; try reflexivity; try assumption.
  - intros i j.
    destruct (Z_le_dec (-1) i), (Z_lt_dec i nx), (Z_le_dec (-1) j), (Z_lt_dec j (ny + 1));
      try (apply Hff'; lia).
    destruct (Z.eq_dec i (-1)); [rewrite Hfe', Hfe, HU by lia; reflexivity | ].
    destruct (Z.eq_dec i (nx - 1)); [rewrite Hfe', Hfe, HU by lia; reflexivity | ].
    destruct (Z.eq_dec j (-1)); [rewrite Hfe', Hfe, HU by lia; reflexivity | ].
    destruct (Z.eq_dec j ny); [rewrite Hfe', Hfe, HU by lia; reflexivity | ].
    apply Hff'. lia.
  - intros i j.
    destruct (Z_le_dec (-1) i), (Z_lt_dec i (nx + 1)), (Z_le_dec (-1) j), (Z_lt_dec j ny);
      try (apply Hgf'; lia).
    destruct (Z.eq_dec i (-1)); [rewrite Hge', Hge, HV by lia; reflexivity | ].
    destruct (Z.eq_dec i nx); [rewrite Hge', Hge, HV by lia; reflexivity | ].
    destruct (Z.eq_dec j (-1)); [rewrite Hge', Hge, HV by lia; reflexivity | ].
    destruct (Z.eq_dec j (ny - 1)); [rewrite Hge', Hge, HV by lia; reflexivity | ].
    apply Hgf'. lia.
Qed.

Lemma applyBoundaryValues_idempotent_witness :
  (cellsOf fourWalls = (3, 2) /\ 1 <= 3 /\ 1 <= 2) /\
  exists c1 c2,
    Computation.applyBoundaryValues fourWalls = Returns (tt, c1) /\
    Computation.applyBoundaryValues c1 = Returns (tt, c2) /\
    (forall i j, cell (uOf c2) i j = cell (uOf c1) i j) /\
    (forall i j, cell (vOf c2) i j = cell (vOf c1) i j).
Proof.
  split; [split; [reflexivity | lia] | ].
  destruct (applyBoundaryValues_idempotent fourWalls 3 2 eq_refl ltac:(lia) ltac:(lia))
    as (c1 & c2 & Hrun1 & Hrun2 & Hu & Hv & _).
  exists c1, c2. repeat (split; [assumption | ]). assumption.
Defined.

(** ** More on the scans of [computeTimeStepWidth] *)

Lemma ltb_true_not_nan (a b : float) : (a <? b)%float = true -> is_nan b = false.
Proof.
  unfold is_nan. rewrite ltb_spec, eqb_spec. unfold SFltb, SFeqb.
  destruct (Prim2SF a) as [[] | [] | | [] ma ea], (Prim2SF b) as [[] | [] | | [] mb eb];
    cbn; try discriminate; try reflexivity; intros _;
    rewrite Z.compare_refl; change (Pos.compare_cont Eq) with Pos.compare;
    rewrite Pos.compare_refl; reflexivity.
Qed.

Lemma abs_not_negative (a : float) : (abs a <? 0)%float = false.
Proof.
  rewrite ltb_spec, abs_spec. change (Prim2SF 0) with (S754_zero false).
  destruct (Prim2SF a) as [[] | [] | | [] m e]; reflexivity.
Qed.

(** An absolute value that is not above zero is zero or not a number. *)
Lemma abs_not_positive (a : float) :
  (0 <? abs a)%float = false -> abs a = 0%float \/ is_nan a = true.
Proof.
  unfold is_nan. rewrite ltb_spec, eqb_spec, abs_spec.
  change (Prim2SF 0) with (S754_zero false). intros H.
  destruct (Prim2SF a) as [[] | [] | | [] m e] eqn:Ha; try discriminate H;
    try (right; reflexivity);
    left; apply Prim2SF_inj; rewrite abs_spec, Ha; reflexivity.
Qed.

Lemma abs_nan (a : float) : is_nan a = true -> is_nan (abs a) = true.
Proof.
  unfold is_nan. rewrite !eqb_spec, abs_spec.
  destruct (Prim2SF a) as [[] | [] | | [] m e]; cbn; try discriminate; try reflexivity;
    rewrite Z.compare_refl; change (Pos.compare_cont Eq) with Pos.compare;
    rewrite Pos.compare_refl; discriminate.
Qed.

Lemma scan_step_not_nan (m value : float) :
  is_nan m = false -> is_nan (Computation.scan_step m value) = false.
Proof.
  intros Hm. unfold Computation.scan_step.
  destruct (m <? abs value)%float eqn:Hlt; [ | exact Hm].
  exact (ltb_true_not_nan _ _ Hlt).
Qed.

Section ScanInvariant.
Import Computation.
Local Open Scope comp_scope.
Variable rd : Z -> Z -> M float.
Variable val : Z -> Z -> float.
Variable c : Computation.t.
Variables iB iE jB jE : Z.
Hypothesis Hrd : forall i j, iB <= i < iE -> jB <= j < jE -> rd i j c = Returns (val i j, c).

(** A scan never ends on a value that is not a number. *)
Lemma scan_rows_not_nan (a : float) :
  is_nan a = false ->
  exists a',
    for_ jB jE (fun j m =>
      for_ iB iE (fun i m => value <- rd i j ;; ret (scan_step m value)) m) a c
    = Returns (a', c) /\ is_nan a' = false.
Proof.
  intros Ha.
  destruct (for_inv_max
    (fun k a1 c1 => c1 = c /\ is_nan a1 = false)
    (fun j m =>
      for_ iB iE (fun i m => value <- rd i j ;; ret (scan_step m value)) m) jB jE a c)
    as (a' & c' & Hrun & -> & Hnan).
  - split; [reflexivity | exact Ha].
  - intros k a1 c1 Hk (-> & Ha1).
    destruct (for_inv_max
      (fun _ a2 c2 => c2 = c /\ is_nan a2 = false)
      (fun i m => value <- rd i k ;; ret (scan_step m value)) iB iE a1 c)
      as (a2 & c2 & Hrow & -> & Ha2).
    + split; [reflexivity | exact Ha1].
    + intros i a3 c3 Hi (-> & Ha3).
      exists (scan_step a3 (val i k)), c. split.
      * rewrite (bind_run _ _ _ _ _ (Hrd i k Hi Hk)). reflexivity.
      * split; [reflexivity | now apply scan_step_not_nan].
    + exists a2, c. split; [exact Hrow | ]. split; [reflexivity | exact Ha2].
  - exists a'. split; [exact Hrun | exact Hnan].
Qed.

End ScanInvariant.

(** X7.  The velocity maxima [computeTimeStepWidth] scans for are never
    negative and never NaN, whatever the fields hold: a cell that is not a
    number is skipped.  A maximum is exactly zero if and only if every cell of
    the field, ghost layers included, is a zero or not a number. *)
Theorem velocity_maxima_are_numbers (c : Computation.t) :
  let nx := fst (cellsOf c) in
  let ny := snd (cellsOf c) in
  exists u_max v_max,
    Computation.u_max c = Returns (u_max, c) /\
    Computation.v_max c = Returns (v_max, c) /\
    (is_nan u_max = false /\ (u_max <? 0)%float = false) /\
    (is_nan v_max = false /\ (v_max <? 0)%float = false) /\
    (u_max = 0%float <->
     forall i j, uRange nx ny i j ->
       abs (cell (uOf c) i j) = 0%float \/ is_nan (cell (uOf c) i j) = true) /\
    (v_max = 0%float <->
     forall i j, vRange nx ny i j ->
       abs (cell (vOf c) i j) = 0%float \/ is_nan (cell (vOf c) i j) = true).
Proof.
  cbv zeta.
  assert (Hc : cellsOf c = (fst (cellsOf c), snd (cellsOf c))) by apply surjective_pairing.
  set (nx := fst (cellsOf c)) in *. set (ny := snd (cellsOf c)) in *.
  destruct (u_max_spec c nx ny Hc) as (um & Hu & Hubound & Huwhere).
  destruct (v_max_spec c nx ny Hc) as (vm & Hv & Hvbound & Hvwhere).
  assert (Hun : is_nan um = false).
  { destruct (scan_rows_not_nan Computation.u (cell (uOf c)) c (-1) nx (-1) (ny + 1))
      with (a := 0%float) as (um' & Hu' & Hnan); [ | reflexivity | ].
    - intros i j Hi Hj. apply (u_in c nx ny Hc). split; assumption.
    - unfold Computation.u_max in Hu. rewrite bind_discretization in Hu. cbv beta in Hu.
      unfold StaggeredGrid.uIBegin, StaggeredGrid.uIEnd, StaggeredGrid.uJBegin,
        StaggeredGrid.uJEnd in Hu.
      change (StaggeredGrid.nCells_ (Computation.discretization_ c)) with (cellsOf c) in Hu.
      rewrite Hc in Hu. cbn [fst snd] in Hu. rewrite Hu' in Hu.
      injection Hu as <-. exact Hnan. }
  assert (Hvn : is_nan vm = false).
  { destruct (scan_rows_not_nan Computation.v (cell (vOf c)) c (-1) (nx + 1) (-1) ny)
      with (a := 0%float) as (vm' & Hv' & Hnan); [ | reflexivity | ].
    - intros i j Hi Hj. apply (v_in c nx ny Hc). split; assumption.
    - unfold Computation.v_max in Hv. rewrite bind_discretization in Hv. cbv beta in Hv.
      unfold StaggeredGrid.vIBegin, StaggeredGrid.vIEnd, StaggeredGrid.vJBegin,
        StaggeredGrid.vJEnd in Hv.
      change (StaggeredGrid.nCells_ (Computation.discretization_ c)) with (cellsOf c) in Hv.
      rewrite Hc in Hv. cbn [fst snd] in Hv. rewrite Hv' in Hv.
      injection Hv as <-. exact Hnan. }
  exists um, vm. split; [exact Hu | ]. split; [exact Hv | ].
  repeat apply conj; try assumption.
  - destruct Huwhere as [-> | (i & j & _ & ->)]; [reflexivity | apply abs_not_negative].
  - destruct Hvwhere as [-> | (i & j & _ & ->)]; [reflexivity | apply abs_not_negative].
  - intros -> i j Hij. apply abs_not_positive. now apply Hubound.
  - intros Hall. destruct Huwhere as [-> | (i & j & Hij & ->)]; [reflexivity | ].
    destruct (Hall i j Hij) as [H0 | Hnan]; [exact H0 | ].
    apply abs_nan in Hnan. rewrite Hnan in Hun. discriminate Hun.
  - intros -> i j Hij. apply abs_not_positive. now apply Hvbound.
  - intros Hall. destruct Hvwhere as [-> | (i & j & Hij & ->)]; [reflexivity | ].
    destruct (Hall i j Hij) as [H0 | Hnan]; [exact H0 | ].
    apply abs_nan in Hnan. rewrite Hnan in Hvn. discriminate Hvn.
Qed.

(** ** [initialize] *)

(** X8.  [initialize] understands exactly the two solver names "SOR" and
    "GaussSeidel", compared as written: any other name, whatever else the
    settings hold, ends the process after the operator set has been chosen
    and before [dt_] is set.  With an understood name it returns with
    [dt_ = 0], the mesh widths [physicalSize / nCells], the grid built from
    the cell counts and these widths, the donor-cell operators exactly when
    [useDonorCell] is set, and the solver of that name with its parameters. *)
Theorem initialize_understands_two_solvers (s : Settings.t) (sel : Settings.selection) :
  let name := Settings.pressureSolver sel in
  let meshWidth :=
    ((fst (Settings.physicalSize s)
      / Computation.double_of_int (fst (Settings.nCells s)))%float,
     (snd (Settings.physicalSize s)
      / Computation.double_of_int (snd (Settings.nCells s)))%float) in
  let common (o : Computation.initialized) :=
    Computation.computation_ o
    = Computation.mk s (StaggeredGrid.new (Settings.nCells s) meshWidth) meshWidth 0%float /\
    Computation.discretizationIs o
    = (if Settings.useDonorCell sel
       then Computation.DonorCell (Settings.nCells s) meshWidth (Settings.alpha sel)
       else Computation.CentralDifferences (Settings.nCells s) meshWidth) in
  (Computation.initialize s sel = Computation.NotUnderstood name <->
   name <> "SOR"%string /\ name <> "GaussSeidel"%string) /\
  (forall wrong, Computation.initialize s sel = Computation.NotUnderstood wrong ->
     wrong = name) /\
  (forall o, Computation.initialize s sel = Computation.Initialized o ->
     common o /\
     ((name = "SOR"%string /\
       Computation.pressureSolverIs o
       = Computation.SOR (Settings.epsilon sel) (Settings.maximumNumberOfIterations sel)
           (Settings.omega sel)) \/
      (name = "GaussSeidel"%string /\
       Computation.pressureSolverIs o
       = Computation.GaussSeidel (Settings.epsilon sel)
           (Settings.maximumNumberOfIterations sel)))).
Proof.
  cbv zeta. unfold Computation.initialize.
  destruct (String.eqb_spec (Settings.pressureSolver sel) "SOR") as [Hsor | Hsor];
    [ | destruct (String.eqb_spec (Settings.pressureSolver sel) "GaussSeidel")
          as [Hgs | Hgs] ].
  - split; [split; [discriminate | intros [H _]; contradiction] | ].
    split; [discriminate | ].
    intros o Ho. injection Ho as <-. cbn. split; [split; reflexivity | ].
    left. split; [exact Hsor | reflexivity].
  - split; [split; [discriminate | intros [_ H]; contradiction] | ].
    split; [discriminate | ].
    intros o Ho. injection Ho as <-. cbn. split; [split; reflexivity | ].
    right. split; [exact Hgs | reflexivity].
  - split; [split; [intros _; split; assumption | reflexivity] | ].
    split; [intros wrong Hw; injection Hw as <-; reflexivity | discriminate].
Qed.

(** X9.  [initialize] does not reject a cell count of zero: with a positive
    physical size the mesh width of that direction is the quotient by zero,
    [+infinity], in the computation and in the grid alike (the solver name
    being understood). *)
Theorem zero_cells_give_infinite_mesh (s : Settings.t) (sel : Settings.selection)
    (o : Computation.initialized) :
  Computation.initialize s sel = Computation.Initialized o ->
  (fst (Settings.nCells s) = 0 -> (0 <? fst (Settings.physicalSize s))%float = true ->
     fst (Computation.meshWidth_ (Computation.computation_ o)) = infinity /\
     StaggeredGrid.dx (Computation.discretization_ (Computation.computation_ o))
     = infinity) /\
  (snd (Settings.nCells s) = 0 -> (0 <? snd (Settings.physicalSize s))%float = true ->
     snd (Computation.meshWidth_ (Computation.computation_ o)) = infinity /\
     StaggeredGrid.dy (Computation.discretization_ (Computation.computation_ o))
     = infinity).
Proof.
  intros Hinit.
  assert (Ho : Computation.computation_ o
               = Computation.mk s
                   (StaggeredGrid.new (Settings.nCells s)
                      ((fst (Settings.physicalSize s)
                        / Computation.double_of_int (fst (Settings.nCells s)))%float,
                       (snd (Settings.physicalSize s)
                        / Computation.double_of_int (snd (Settings.nCells s)))%float))
                   ((fst (Settings.physicalSize s)
                     / Computation.double_of_int (fst (Settings.nCells s)))%float,
                    (snd (Settings.physicalSize s)
                     / Computation.double_of_int (snd (Settings.nCells s)))%float)
                   0%float).
  { unfold Computation.initialize in Hinit.
    destruct (String.eqb _ "SOR"); [injection Hinit as <-; reflexivity | ].
    destruct (String.eqb _ "GaussSeidel"); [injection Hinit as <-; reflexivity | ].
    discriminate Hinit. }
  rewrite Ho. unfold StaggeredGrid.dx, StaggeredGrid.dy. cbn.
  split; intros Hn Hp; rewrite Hn;
    change (Computation.double_of_int 0) with 0%float;
    rewrite (positive_div_zero _ Hp); split; reflexivity.
Qed.

Lemma zero_cells_give_infinite_mesh_witness :
  exists o,
    Computation.initialize noCellsSettings cavitySelection = Computation.Initialized o /\
    fst (Computation.meshWidth_ (Computation.computation_ o)) = infinity /\
    snd (Computation.meshWidth_ (Computation.computation_ o)) = 0.5%float.
Proof.
  eexists. split; [reflexivity | ]. split.
  - apply (zero_cells_give_infinite_mesh noCellsSettings cavitySelection _ eq_refl);
      reflexivity.
  - reflexivity.
Defined.

(** ** [runTest] *)

Section Descending.
Import Computation.
Variable body : Z -> M unit.
Variable c : Computation.t.

Lemma iterate_down_same (n : nat) :
  forall hi,
    (forall k, hi - Z.of_nat n < k <= hi -> body k c = Returns (tt, c)) ->
    iterate_down n hi body c = Returns (tt, c).
Proof.
  induction n as [ | n IH]; intros hi Hbody; [reflexivity | ].
  cbn [iterate_down]. rewrite (bind_run _ _ _ _ _ (Hbody hi ltac:(lia))).
  apply IH. intros k Hk. apply Hbody. lia.
Qed.

Lemma for_down_same (hi lo : Z) :
  (forall k, lo <= k <= hi -> body k c = Returns (tt, c)) ->
  for_down hi lo body c = Returns (tt, c).
Proof.
  intros Hbody. unfold for_down. apply iterate_down_same.
  intros k Hk. apply Hbody. lia.
Qed.

Lemma for_each_same (b e : Z) :
  (forall k, b <= k < e -> body k c = Returns (tt, c)) ->
  for_each b e body c = Returns (tt, c).
Proof.
  intros Hbody.
  destruct (for_each_inv_max (fun _ c1 => c1 = c) body b e c eq_refl)
    as (c' & Hrun & ->); [ | exact Hrun].
  intros k c1 Hk ->. exists c. split; [apply Hbody; exact Hk | reflexivity].
Qed.

End Descending.

(** The table of [p] reads every cell of the range of [p] and nothing else:
    it always returns, and leaves the state as it is. *)
Lemma printPressure_returns (c : Computation.t) :
  Computation.printPressure c = Returns (tt, c).
Proof.
  assert (Hc : cellsOf c = (fst (cellsOf c), snd (cellsOf c))) by apply surjective_pairing.
  unfold Computation.printPressure. rewrite bind_discretization. cbv beta.
  unfold StaggeredGrid.pIBegin, StaggeredGrid.pIEnd, StaggeredGrid.pJBegin,
    StaggeredGrid.pJEnd.
  change (StaggeredGrid.nCells_ (Computation.discretization_ c)) with (cellsOf c).
  apply for_down_same. intros j Hj. apply for_each_same. intros i Hi.
  rewrite (bind_run _ _ _ _ _
             (p_in c _ _ Hc i j ltac:(unfold pRange; lia))). reflexivity.
Qed.

Section TestCase.
Import Computation.
Local Open Scope comp_scope.
Variables (c : Computation.t) (nx ny : Z).
Hypothesis Hcells : cellsOf c = (nx, ny).
Variables rhsValue pValue : float.

(** One row of the loops of lines 331-340 and 372-379. *)
Lemma testCase_row (j : Z) (fr0 fp0 : FieldVariable) :
  0 <= j < ny ->
  exists fr fp,
    for_each (-1 + 1) (nx + 1 - 1) (fun i =>
      set_rhs i j rhsValue ;; set_p i j pValue) (with_p (with_rhs c fr0) fp0)
    = Returns (tt, with_p (with_rhs c fr) fp) /\
    (forall i, 0 <= i < nx -> cell fp i j = pValue /\ cell fr i j = rhsValue) /\
    (forall i' j', ~ (j' = j /\ 0 <= i' < nx) ->
       cell fp i' j' = cell fp0 i' j' /\ cell fr i' j' = cell fr0 i' j').
Proof.
  intros Hj.
  destruct (for_each_inv_max
    (fun k c1 => exists fr fp, c1 = with_p (with_rhs c fr) fp /\
       (forall i, 0 <= i < k -> cell fp i j = pValue /\ cell fr i j = rhsValue) /\
       (forall i' j', ~ (j' = j /\ 0 <= i' < k) ->
          cell fp i' j' = cell fp0 i' j' /\ cell fr i' j' = cell fr0 i' j'))
    (fun i => set_rhs i j rhsValue ;; set_p i j pValue)
    (-1 + 1) (nx + 1 - 1) (with_p (with_rhs c fr0) fp0))
    as (c' & Hrun & fr & fp & -> & Hval & Hframe).
  - exists fr0, fp0. split; [reflexivity | ]. split; [intros; lia | auto].
  - intros k c1 Hk (fr & fp & -> & Hval & Hframe).
    access_p set_rhs_in Hcells. access_p set_p_in Hcells.
    eexists. split; [reflexivity | ].
    exists (assign fr (k + 1) (j + 1) rhsValue), (assign fp (k + 1) (j + 1) pValue).
    split; [reflexivity | ]. split.
    + intros i Hi. rewrite !cell_assign.
      destruct (Z.eqb_spec i k) as [-> | Hik]; rewrite ?Z.eqb_refl; cbn [andb];
        [split; reflexivity | apply Hval; lia].
    + intros i' j' Hij. rewrite !cell_assign_other by lia. apply Hframe. lia.
  - exists fr, fp. split; [exact Hrun | ]. split.
    + intros i Hi. apply Hval. lia.
    + intros i' j' Hij. apply Hframe. lia.
Qed.

Lemma testCase_loops :
  exists fr fp,
    for_each (-1 + 1) (ny + 1 - 1) (fun j =>
      for_each (-1 + 1) (nx + 1 - 1) (fun i =>
        set_rhs i j rhsValue ;; set_p i j pValue)) c
    = Returns (tt, with_p (with_rhs c fr) fp) /\
    testCase rhsValue pValue nx ny (discretization_ c)
      (discretization_ (with_p (with_rhs c fr) fp)).
Proof.
  destruct (for_each_inv_max
    (fun k c1 => exists fr fp, c1 = with_p (with_rhs c fr) fp /\
       (forall i j, 0 <= i < nx -> 0 <= j < k ->
          cell fp i j = pValue /\ cell fr i j = rhsValue) /\
       (forall i j, ~ (0 <= i < nx /\ 0 <= j < k) ->
          cell fp i j = cell (pOf c) i j /\ cell fr i j = cell (rhsOf c) i j))
    (fun j =>
      for_each (-1 + 1) (nx + 1 - 1) (fun i =>
        set_rhs i j rhsValue ;; set_p i j pValue)) (-1 + 1) (ny + 1 - 1) c)
    as (c' & Hrun & fr & fp & -> & Hval & Hframe).
  - exists (rhsOf c), (pOf c). split; [now destruct c as [s [] mw d] | ].
    split; [intros; lia | auto].
  - intros k c1 Hk (fr & fp & -> & Hval & Hframe).
    destruct (testCase_row k fr fp ltac:(lia)) as (fr' & fp' & Hrow & Hrv & Hrf).
    eexists. split; [exact Hrow | ].
    exists fr', fp'. split; [reflexivity | ]. split.
    + intros i j Hi Hj. destruct (Z.eq_dec j k) as [-> | Hjk].
      * apply Hrv. exact Hi.
      * destruct (Hrf i j ltac:(lia)) as [-> ->]. apply Hval; lia.
    + intros i j Hij. destruct (Hrf i j ltac:(lia)) as [-> ->]. apply Hframe. lia.
  - exists fr, fp. split; [exact Hrun | ].
    unfold testCase, pInterior.
    cbn [with_p with_rhs discretization_ StaggeredGrid.nCells_ StaggeredGrid.meshWidth_
         StaggeredGrid.u_ StaggeredGrid.v_ StaggeredGrid.f_ StaggeredGrid.g_
         StaggeredGrid.p_ StaggeredGrid.rhs_].
    repeat (split; [reflexivity | ]). split.
    + intros i j Hij. apply Hval; lia.
    + intros i j Hij. apply Hframe. lia.
Qed.

End TestCase.

Lemma computePressure_run (solve : StaggeredGrid.t -> outcome StaggeredGrid.t)
    (c : Computation.t) :
  Computation.computePressure solve c
  = match solve (Computation.discretization_ c) with
    | Returns sg => Returns (tt, with_grid c sg)
    | Terminated e => Terminated e
    end.
Proof. reflexivity. Qed.

Lemma bind_computePressure {B : Type}
    (solve : StaggeredGrid.t -> outcome StaggeredGrid.t)
    (k : unit -> Computation.M B) (c : Computation.t) :
  Computation.bind (Computation.computePressure solve) k c
  = match solve (Computation.discretization_ c) with
    | Returns sg => k tt (with_grid c sg)
    | Terminated e => Terminated e
    end.
Proof.
  unfold Computation.bind. rewrite computePressure_run.
  destruct (solve (Computation.discretization_ c)); reflexivity.
Qed.

(** X10.  With a solver that keeps the cell counts, [runTest] runs the two
    test cases of the pressure solver in turn.  The first call receives the
    grid with [p = 1] and [rhs = 0] on every interior cell and everything
    else as it was; the second call receives the result of the first with
    [p = 0] and [rhs = 1] on every interior cell, ghost cells of [p]
    included as the first call left them; the grid [runTest] leaves is the
    result of the second call.  Its own accesses never leave the ranges: it
    ends early only if the solver does. *)
Theorem runTest_two_cases (solve : StaggeredGrid.t -> outcome StaggeredGrid.t)
    (c : Computation.t) :
  solverKeepsCells solve ->
  let nx := fst (cellsOf c) in
  let ny := snd (cellsOf c) in
  exists d1,
    testCase 0 1 nx ny (Computation.discretization_ c) d1 /\
    match solve d1 with
    | Terminated e => Computation.runTest solve c = Terminated e
    | Returns d2 =>
        exists d3,
          testCase 1 0 nx ny d2 d3 /\
          Computation.runTest solve c
          = match solve d3 with
            | Returns d4 => Returns (tt, with_grid c d4)
            | Terminated e => Terminated e
            end
    end.
Proof.
  intros Hsolve. cbv zeta.
  assert (Hc : cellsOf c = (fst (cellsOf c), snd (cellsOf c))) by apply surjective_pairing.
  set (nx := fst (cellsOf c)) in *. set (ny := snd (cellsOf c)) in *.
  unfold Computation.runTest.
  rewrite (bind_run _ _ _ _ _ (printPressure_returns c)).
  rewrite bind_discretization. cbv beta.
  unfold StaggeredGrid.pIBegin, StaggeredGrid.pIEnd, StaggeredGrid.pJBegin,
    StaggeredGrid.pJEnd.
  change (StaggeredGrid.nCells_ (Computation.discretization_ c)) with (cellsOf c).
  rewrite Hc. cbn [fst snd].
  destruct (testCase_loops c nx ny Hc 0 1) as (fr & fp & Hrun1 & Hcase1).
  rewrite (bind_run _ _ _ _ _ Hrun1). clear Hrun1.
  set (c1 := with_p (with_rhs c fr) fp) in *.
  exists (Computation.discretization_ c1). split; [exact Hcase1 | ].
  rewrite bind_computePressure.
  destruct (solve (Computation.discretization_ c1)) as [d2 | e] eqn:Hd2; [ | reflexivity].
  assert (Hc2 : cellsOf (with_grid c1 d2) = (nx, ny)).
  { unfold cellsOf. cbn [with_grid Computation.discretization_].
    rewrite (Hsolve _ _ Hd2). exact Hc. }
  rewrite (bind_run _ _ _ _ _ (printPressure_returns _)).
  rewrite (bind_run _ _ _ _ _ (printPressure_returns _)).
  rewrite bind_discretization. cbv beta.
  change (StaggeredGrid.nCells_ (Computation.discretization_ (with_grid c1 d2)))
    with (cellsOf (with_grid c1 d2)).
  rewrite Hc2. cbn [fst snd].
  destruct (testCase_loops (with_grid c1 d2) nx ny Hc2 1 0) as (fr' & fp' & Hrun2 & Hcase2).
  rewrite (bind_run _ _ _ _ _ Hrun2). clear Hrun2.
  set (c3 := with_p (with_rhs (with_grid c1 d2) fr') fp') in *.
  exists (Computation.discretization_ c3). split; [exact Hcase2 | ].
  rewrite bind_computePressure.
  destruct (solve (Computation.discretization_ c3)) as [d4 | e] eqn:Hd4; [ | reflexivity].
  rewrite printPressure_returns. reflexivity.
Qed.

Lemma noSweep_keeps_cells : solverKeepsCells noSweep.
Proof. intros sg sg' H. injection H as <-. reflexivity. Qed.

Lemma runTest_two_cases_witness :
  solverKeepsCells noSweep /\
  exists d1 d3,
    testCase 0 1 3 2 (Computation.discretization_ fourWalls) d1 /\
    testCase 1 0 3 2 d1 d3 /\
    Computation.runTest noSweep fourWalls = Returns (tt, with_grid fourWalls d3).
Proof.
  split; [exact noSweep_keeps_cells | ].
  destruct (runTest_two_cases noSweep fourWalls noSweep_keeps_cells)
    as (d1 & Hcase1 & Hrest).
  unfold noSweep in Hrest. destruct Hrest as (d3 & Hcase2 & Hrun).
  exists d1, d3. split; [exact Hcase1 | ]. split; [exact Hcase2 | exact Hrun].
Defined.

(** ** The accesses of a whole run *)

Section Returns.
Import Computation.
Local Open Scope comp_scope.
Variable R : Computation.t -> Prop.

Lemma rectangle_returns (body : Z -> Z -> M unit) (iB iE jB jE : Z) (c : Computation.t) :
  R c ->
  (forall c1 i j, iB <= i < iE -> jB <= j < jE -> R c1 ->
     exists c2, body i j c1 = Returns (tt, c2) /\ R c2) ->
  exists c',
    for_each jB jE (fun j => for_each iB iE (fun i => body i j)) c = Returns (tt, c') /\
    R c'.
Proof.
  intros Hinit Hbody.
  apply (for_each_inv_max (fun _ c1 => R c1)); [exact Hinit | ].
  intros j c1 Hj Hc1.
  apply (for_each_inv_max (fun _ c2 => R c2)); [exact Hc1 | ].
  intros i c2 Hi Hc2. apply Hbody; assumption.
Qed.

End Returns.

Section Safety.
Import Computation.
Local Open Scope comp_scope.
Variable scheme : Discretization.
Variable solve : StaggeredGrid.t -> outcome StaggeredGrid.t.
Hypothesis Hsolve : solverReturns solve.
Variables (nx ny : Z) (s : Settings.t) (mw : float * float).
Hypothesis Hnx : 0 <= nx.
Hypothesis Hny : 0 <= ny.

Ltac ranges c :=
  unfold StaggeredGrid.uIBegin, StaggeredGrid.uIEnd, StaggeredGrid.uJBegin,
    StaggeredGrid.uJEnd, StaggeredGrid.vIBegin, StaggeredGrid.vIEnd,
    StaggeredGrid.vJBegin, StaggeredGrid.vJEnd, StaggeredGrid.pIBegin,
    StaggeredGrid.pIEnd, StaggeredGrid.pJBegin, StaggeredGrid.pJEnd;
  change (StaggeredGrid.nCells_ (discretization_ c)) with (cellsOf c).

Lemma applyBoundaryValues_returns (c : Computation.t) :
  inFrame nx ny s mw c ->
  exists c', applyBoundaryValues c = Returns (tt, c') /\ inFrame nx ny s mw c'.
Proof.
  intros (Hc & Hs & Hm).
  destruct (applyBoundaryValues_spec c nx ny Hc Hnx Hny)
    as (fu & fv & ff & fg & Hrun & _).
  eexists. split; [exact Hrun | ]. repeat split; assumption.
Qed.

Lemma computeTimeStepWidth_returns (c : Computation.t) :
  inFrame nx ny s mw c ->
  exists c', computeTimeStepWidth c = Returns (tt, c') /\ inFrame nx ny s mw c'.
Proof.
  intros (Hc & Hs & Hm).
  destruct (computeTimeStepWidth_spec c nx ny Hc) as (um & vm & _ & _ & _ & _ & Hrun).
  eexists. split; [exact Hrun | ]. repeat split; assumption.
Qed.

Lemma advanceTime_returns (currentTime : float) (c : Computation.t) :
  inFrame nx ny s mw c ->
  exists t' c', advanceTime currentTime c = Returns (t', c') /\ inFrame nx ny s mw c'.
Proof.
  intros (Hc & Hs & Hm). rewrite advanceTime_spec. cbv zeta.
  destruct (_ <? _)%float; eexists; eexists; (split; [reflexivity | ]);
    repeat split; assumption.
Qed.

Lemma computePreliminaryVelocities_returns (c : Computation.t) :
  inFrame nx ny s mw c ->
  exists c',
    computePreliminaryVelocities scheme c = Returns (tt, c') /\ inFrame nx ny s mw c'.
Proof.
  intros HR. pose proof HR as (Hc & _).
  unfold computePreliminaryVelocities.
  rewrite bind_settings. cbv beta. rewrite bind_discretization. cbv beta.
  ranges c. rewrite Hc. cbn [fst snd].
  destruct (rectangle_returns (inFrame nx ny s mw)
    (fun i j =>
       d <- discretization ;; dt_ <- dt ;; uij <- u i j ;;
       set_f i j (preliminaryF scheme (settings_ c) dt_ d uij i j))
    (-1 + 1) (nx - 1) (-1 + 1) (ny + 1 - 1) c HR) as (c1 & Hrun1 & HR1).
  { intros c1 i j Hi Hj (Hc1 & Hs1 & Hm1).
    rewrite bind_discretization. cbv beta. rewrite bind_dt. cbv beta.
    access u_in Hc1. access set_f_in Hc1.
    eexists. split; [reflexivity | ]. repeat split; assumption. }
  rewrite (bind_run _ _ _ _ _ Hrun1).
  apply (rectangle_returns (inFrame nx ny s mw)); [exact HR1 | ].
  intros c2 i j Hi Hj (Hc2 & Hs2 & Hm2).
  rewrite bind_discretization. cbv beta. rewrite bind_dt. cbv beta.
  access v_in Hc2. access set_g_in Hc2.
  eexists. split; [reflexivity | ]. repeat split; assumption.
Qed.

Lemma computeRightHandSide_returns (c : Computation.t) :
  inFrame nx ny s mw c ->
  exists c', computeRightHandSide c = Returns (tt, c') /\ inFrame nx ny s mw c'.
Proof.
  intros HR. pose proof HR as (Hc & _).
  unfold computeRightHandSide. rewrite bind_discretization. cbv beta.
  ranges c. rewrite Hc. cbn [fst snd].
  apply (rectangle_returns (inFrame nx ny s mw)); [exact HR | ].
  intros c1 i j Hi Hj (Hc1 & Hs1 & Hm1).
  rewrite bind_dt. cbv beta.
  access f_in Hc1. access f_in Hc1. access g_in Hc1. access g_in Hc1.
  access_p set_rhs_in Hc1.
  eexists. split; [reflexivity | ]. repeat split; assumption.
Qed.

Lemma computePressure_returns (c : Computation.t) :
  inFrame nx ny s mw c ->
  exists c', computePressure solve c = Returns (tt, c') /\ inFrame nx ny s mw c'.
Proof.
  intros (Hc & Hs & Hm). rewrite computePressure_run.
  destruct (Hsolve (discretization_ c)) as (sg' & -> & Hcells).
  eexists. split; [reflexivity | ]. repeat split; try assumption.
  unfold cellsOf. cbn [with_grid discretization_]. rewrite Hcells. exact Hc.
Qed.

Lemma computeVelocities_returns (c : Computation.t) :
  inFrame nx ny s mw c ->
  exists c', computeVelocities scheme c = Returns (tt, c') /\ inFrame nx ny s mw c'.
Proof.
  intros HR. pose proof HR as (Hc & _).
  unfold computeVelocities. rewrite bind_discretization. cbv beta.
  ranges c. rewrite Hc. cbn [fst snd].
  destruct (rectangle_returns (inFrame nx ny s mw)
    (fun i j =>
       d <- discretization ;; dt_ <- dt ;; fij <- f i j ;;
       set_u i j (fij - dt_ * computeDpDx scheme d i j)%float)
    (-1 + 1) (nx - 1) (-1 + 1) (ny + 1 - 1) c HR) as (c1 & Hrun1 & HR1).
  { intros c1 i j Hi Hj (Hc1 & Hs1 & Hm1).
    rewrite bind_discretization. cbv beta. rewrite bind_dt. cbv beta.
    access f_in Hc1. access set_u_in Hc1.
    eexists. split; [reflexivity | ]. repeat split; assumption. }
  rewrite (bind_run _ _ _ _ _ Hrun1).
  apply (rectangle_returns (inFrame nx ny s mw)); [exact HR1 | ].
  intros c2 i j Hi Hj (Hc2 & Hs2 & Hm2).
  rewrite bind_discretization. cbv beta. rewrite bind_dt. cbv beta.
  access g_in Hc2. access set_v_in Hc2.
  eexists. split; [reflexivity | ]. repeat split; assumption.
Qed.

Lemma timeStep_returns (currentTime : float) (c : Computation.t) :
  inFrame nx ny s mw c ->
  exists t' c',
    timeStep scheme solve currentTime c = Returns (t', c') /\ inFrame nx ny s mw c'.
Proof.
  intros HR. unfold timeStep, beginTimeStep.
  destruct (applyBoundaryValues_returns c HR) as (c1 & H1 & HR1).
  destruct (computeTimeStepWidth_returns c1 HR1) as (c2 & H2 & HR2).
  destruct (advanceTime_returns currentTime c2 HR2) as (t' & c3 & H3 & HR3).
  destruct (computePreliminaryVelocities_returns c3 HR3) as (c4 & H4 & HR4).
  destruct (computeRightHandSide_returns c4 HR4) as (c5 & H5 & HR5).
  destruct (computePressure_returns c5 HR5) as (c6 & H6 & HR6).
  destruct (computeVelocities_returns c6 HR6) as (c7 & H7 & HR7).
  exists t', c7. split; [ | exact HR7].
  rewrite bind_assoc, (bind_run _ _ _ _ _ H1).
  rewrite bind_assoc, (bind_run _ _ _ _ _ H2).
  rewrite (bind_run _ _ _ _ _ H3), (bind_run _ _ _ _ _ H4), (bind_run _ _ _ _ _ H5),
    (bind_run _ _ _ _ _ H6), (bind_run _ _ _ _ _ H7).
  reflexivity.
Qed.

Lemma simulationLoop_returns (fuel : nat) :
  forall (currentTime : float) (steps : nat) (c : Computation.t),
    inFrame nx ny s mw c ->
    exists r c',
      simulationLoop scheme solve fuel currentTime steps c = Returns (r, c') /\
      inFrame nx ny s mw c'.
Proof.
  induction fuel as [ | fuel IH]; intros currentTime steps c HR.
  - exists None, c. split; [reflexivity | exact HR].
  - cbn [simulationLoop]. rewrite bind_settings. cbv beta.
    destruct (currentTime <? Settings.endTime (settings_ c))%float.
    + destruct (timeStep_returns currentTime c HR) as (t' & c1 & Hstep & HR1).
      rewrite (bind_run _ _ _ _ _ Hstep). apply IH. exact HR1.
    + exists (Some steps), c. split; [reflexivity | exact HR].
Qed.

End Safety.

(** X11.  On a grid with non-negative cell counts, with any operator set and
    any pressure solver that returns and keeps the cell counts, no access of
    the orchestrator ever leaves the range of a field.  A time step always
    returns.  No prefix of a run of [runSimulation] ends on an index error:
    after any number [fuel] of iterations the loop has either ended ([Some n],
    after [n] steps) or is still running ([None]), whatever the velocities
    and the step widths; the cell counts, the settings and the mesh widths
    are those it started with.  Whether the loop ends is not stated: with a
    step width of zero it never does. *)
Theorem simulation_stays_in_range (scheme : Discretization)
    (solve : StaggeredGrid.t -> outcome StaggeredGrid.t)
    (c : Computation.t) (nx ny : Z) :
  solverReturns solve -> cellsOf c = (nx, ny) -> 0 <= nx -> 0 <= ny ->
  (forall currentTime, exists t' c',
     Computation.timeStep scheme solve currentTime c = Returns (t', c') /\
     inFrame nx ny (Computation.settings_ c) (Computation.meshWidth_ c) c') /\
  (forall fuel e, Computation.runSimulation scheme solve fuel c <> Terminated e) /\
  (forall fuel, exists r c',
     Computation.runSimulation scheme solve fuel c = Returns (r, c') /\
     inFrame nx ny (Computation.settings_ c) (Computation.meshWidth_ c) c').
Proof.
  intros Hsolve Hc Hnx Hny.
  assert (HR : inFrame nx ny (Computation.settings_ c) (Computation.meshWidth_ c) c)
    by (repeat split; [exact Hc]).
  assert (Hrun : forall fuel, exists r c',
            Computation.runSimulation scheme solve fuel c = Returns (r, c') /\
            inFrame nx ny (Computation.settings_ c) (Computation.meshWidth_ c) c').
  { intros fuel. unfold Computation.runSimulation. cbv zeta.
    now apply simulationLoop_returns. }
  split; [ | split].
  - intros currentTime. now apply timeStep_returns.
  - intros fuel e He. destruct (Hrun fuel) as (r & c' & Hr & _).
    rewrite Hr in He. discriminate He.
  - exact Hrun.
Qed.

Lemma noSweep_returns : solverReturns noSweep.
Proof. intros sg. exists sg. split; reflexivity. Qed.

(** The cavity at rest: the run ends after two steps, the second one
    clamped. *)
Lemma simulation_stays_in_range_witness :
  (solverReturns noSweep /\ cellsOf quiescent = (2, 2) /\ 0 <= 2 /\ 0 <= 2) /\
  exists c',
    Computation.runSimulation CentralDifferences.scheme noSweep 3 quiescent
    = Returns (Some 2%nat, c') /\
    cellsOf c' = (2, 2).
Proof.
  split; [split; [exact noSweep_returns | split; [reflexivity | lia] ] | ].
  destruct (simulation_stays_in_range CentralDifferences.scheme noSweep quiescent 2 2
              noSweep_returns eq_refl ltac:(lia) ltac:(lia)) as (_ & _ & Hrun).
  destruct (Hrun 3%nat) as (r & c' & Hr & Hc' & _).
  assert (Hsteps :
    match Computation.runSimulation CentralDifferences.scheme noSweep 3 quiescent with
    | Returns (r0, _) => r0
    | Terminated _ => None
    end = Some 2%nat) by (vm_compute; reflexivity).
  rewrite Hr in Hsteps. subst r.
  exists c'. split; assumption.
Defined.

(** ** The boundary values in the step width *)

(** X12.  On a grid with at least one cell in each direction, the maxima
    scanned right after [applyBoundaryValues] account for the walls: [u_max]
    is not below the absolute left and right wall velocities, nor below the
    mirrored ghost values [2 * wall - neighbour] under and over the domain
    (twice the wall velocity where the fluid is at rest); [v_max] is not
    below the absolute bottom and top wall velocities. *)
Theorem wall_velocities_bound_the_maxima (c : Computation.t) (nx ny : Z) :
  cellsOf c = (nx, ny) -> 1 <= nx -> 1 <= ny ->
  let s := Computation.settings_ c in
  exists c1 u_max v_max,
    Computation.applyBoundaryValues c = Returns (tt, c1) /\
    Computation.u_max c1 = Returns (u_max, c1) /\
    Computation.v_max c1 = Returns (v_max, c1) /\
    (u_max <? abs (fst (Settings.dirichletBcLeft s)))%float = false /\
    (u_max <? abs (fst (Settings.dirichletBcRight s)))%float = false /\
    (forall i, 0 <= i < nx - 1 ->
       (u_max <? abs (2 * fst (Settings.dirichletBcBottom s) - cell (uOf c) i 0))%float
       = false /\
       (u_max <? abs (2 * fst (Settings.dirichletBcTop s) - cell (uOf c) i (ny - 1)))%float
       = false) /\
    (v_max <? abs (snd (Settings.dirichletBcBottom s)))%float = false /\
    (v_max <? abs (snd (Settings.dirichletBcTop s)))%float = false.
Proof.
  intros Hcells Hnx Hny s.
  destruct (applyBoundaryValues_spec c nx ny Hcells ltac:(lia) ltac:(lia))
    as (fu & fv & ff & fg & Hrun & _ & Hus & Hubt & _ & Hvbt & _).
  fold s in Hus, Hubt, Hvbt.
  set (c1 := with_g (with_f (with_v (with_u c fu) fv) ff) fg) in *.
  destruct (u_max_spec c1 nx ny Hcells) as (um & Hu & Hubound & _).
  destruct (v_max_spec c1 nx ny Hcells) as (vm & Hv & Hvbound & _).
  exists c1, um, vm. repeat (split; [assumption | ]).
  subst c1.
  cbn [uOf vOf with_u with_v with_f with_g Computation.discretization_
       StaggeredGrid.u_ StaggeredGrid.v_] in Hubound, Hvbound.
  unfold uRange in Hubound. unfold vRange in Hvbound.
  repeat apply conj.
  - rewrite <- (proj2 (Hus 0 ltac:(lia)) ltac:(lia)). apply Hubound. lia.
  - rewrite <- (proj1 (Hus 0 ltac:(lia))). apply Hubound. lia.
  - intros i Hi. destruct (Hubt ltac:(lia) i Hi) as [Hb Ht].
    rewrite <- Hb, <- Ht. split; apply Hubound; lia.
  - rewrite <- (proj2 (Hvbt 0 ltac:(lia)) ltac:(lia)). apply Hvbound. lia.
  - rewrite <- (proj1 (Hvbt 0 ltac:(lia))). apply Hvbound. lia.
Qed.

Lemma wall_velocities_bound_the_maxima_witness :
  (cellsOf fourWalls = (3, 2) /\ 1 <= 3 /\ 1 <= 2) /\
  exists c1 u_max v_max,
    Computation.applyBoundaryValues fourWalls = Returns (tt, c1) /\
    Computation.u_max c1 = Returns (u_max, c1) /\
    Computation.v_max c1 = Returns (v_max, c1) /\
    (u_max <? abs 5)%float = false /\ (u_max <? abs 7)%float = false /\
    (v_max <? abs 2)%float = false /\ (v_max <? abs 4)%float = false.
Proof.
  split; [split; [reflexivity | lia] | ].
  destruct (wall_velocities_bound_the_maxima fourWalls 3 2 eq_refl ltac:(lia) ltac:(lia))
    as (c1 & um & vm & Hrun & Hu & Hv & Hl & Hr & _ & Hb & Ht).
  exists c1, um, vm. repeat (split; [assumption | ]). assumption.
Defined.
